(** * TBBManager: a registry of named TBB arenas with per-iteration context
      tracking (tbb_manager.h / tbb_manager.cpp).

    The development embeds the manager as state-passing Rocq functions over
    stdpp finite maps.  The external pieces (the TBB scheduler, the steady
    clock, the gflags string) enter as explicit inputs. *)

From Stdlib Require Import ZArith Lia Ascii String.
From stdpp Require Import gmap strings list fin_maps pretty.
From Equations.Prop Require Import Equations Logic.

Local Open Scope string_scope.
Local Open Scope list_scope.
Local Open Scope Z_scope.

(** ** Exceptions and outcomes *)

(** The C++ exceptions that can cross the manager's functions. *)
Inductive exception :=
  | invalid_argument            (* std::stoi: no conversion *)
  | out_of_range                (* std::stoi: value does not fit an int *)
  | task_exception (code : Z).  (* anything thrown by a caller-supplied body *)

Global Instance exception_eq_dec : EqDecision exception.
Proof. solve_decision. Defined.

(** Result of running a piece of C++: a value, a thrown exception, or
    undefined behaviour (dereferencing a null [shared_ptr]). *)
Inductive outcome (A : Type) :=
  | Ok (a : A)
  | Throw (e : exception)
  | Undefined.
Arguments Ok {A} a.
Arguments Throw {A} e.
Arguments Undefined {A}.

(** ** std::string helpers used by the configuration parser *)

Module Str.

(** [item.find(c)]: position of the first occurrence, [None] for npos. *)
Fixpoint find (c : ascii) (s : string) : option nat :=
  match s with
  | EmptyString => None
  | String c' s' => if Ascii.eqb c' c then Some 0%nat else S <$> find c s'
  end.

(** [s.substr(pos)]: the suffix from [pos] (callers keep [pos <= size]). *)
Fixpoint substr_from (pos : nat) (s : string) : string :=
  match pos, s with
  | O, _ => s
  | S p, String _ s' => substr_from p s'
  | S _, EmptyString => EmptyString
  end.

(** [s.substr(0, n)]. *)
Fixpoint substr_to (n : nat) (s : string) : string :=
  match n, s with
  | S p, String c s' => String c (substr_to p s')
  | _, _ => EmptyString
  end.

(** The characters [std::getline] extracts up to the delimiter, and what
    is left in the stream after the delimiter has been consumed. *)
Fixpoint read_until (delim : ascii) (s : string) : string * string :=
  match s with
  | EmptyString => (EmptyString, EmptyString)
  | String c s' =>
      if Ascii.eqb c delim then (EmptyString, s')
      else let '(item, rest) := read_until delim s' in (String c item, rest)
  end.

(** [std::getline(ss, item, delim)] on a stream holding [ss]: fails (the
    loop condition is false) when nothing at all could be extracted. *)
Definition getline (ss : string) (delim : ascii) : option (string * string) :=
  match ss with
  | EmptyString => None
  | _ => Some (read_until delim ss)
  end.

Definition isspace (c : ascii) : bool :=
  let n := nat_of_ascii c in
  (n =? 32)%nat || ((9 <=? n)%nat && (n <=? 13)%nat).

Definition digit (c : ascii) : option Z :=
  let n := Z.of_nat (nat_of_ascii c) in
  if (48 <=? n) && (n <=? 57) then Some (n - 48) else None.

Fixpoint skip_spaces (s : string) : string :=
  match s with
  | String c s' => if isspace c then skip_spaces s' else s
  | EmptyString => s
  end.

(** Value of the longest prefix of decimal digits, starting from [acc];
    [None] when [s] does not start with a digit and none was read yet. *)
Fixpoint read_digits (acc : option Z) (s : string) : option Z :=
  match s with
  | String c s' =>
      match digit c with
      | Some d => read_digits (Some (10 * default 0 acc + d)) s'
      | None => acc
      end
  | EmptyString => acc
  end.

Definition INT_MIN : Z := - 2 ^ 31.
Definition INT_MAX : Z := 2 ^ 31 - 1.

(** [std::stoi(str)] in base 10: leading white space, an optional sign,
    then digits; trailing characters are ignored. *)
Definition stoi (str : string) : outcome Z :=
  let s := skip_spaces str in
  let '(neg, s) :=
    match s with
    | String "-" s' => (true, s')
    | String "+" s' => (false, s')
    | _ => (false, s)
    end in
  match read_digits None s with
  | None => Throw invalid_argument
  | Some v =>
      let v := if neg then - v else v in
      if (INT_MIN <=? v) && (v <=? INT_MAX) then Ok v else Throw out_of_range
  end.

End Str.

(** ** Configuration resolution *)

(** The body of the [while (std::getline(ss, item, ','))] loop together with
    the loop itself: [ss] is what is left in the stream, [defines] the map
    built so far. *)
Equations? parse_items (ss : string) (defines : gmap string Z)
  : outcome (gmap string Z) by wf (String.length ss) lt :=
  parse_items ss defines with inspect (Str.getline ss ",") := {
    | exist _ None _ => Ok defines
    | exist _ (Some (item, ss')) Hget with Str.find ":" item => {
        | None => parse_items ss' defines
        | Some pos with Str.stoi (Str.substr_from (pos + 1) item) => {
            | Ok count =>
                parse_items ss' (<[Str.substr_to pos item := count]> defines)
            | Throw e => Throw e
            | Undefined => Undefined } } }.
Proof.
  all: clear parse_items.
  all: assert (Hlen : ∀ u it rest, Str.read_until "," u = (it, rest) →
                      (String.length rest ≤ String.length u)%nat).
  1,3: induction u as [|c u IH]; simpl; intros it rest Hu;
    [by injection Hu as _ <-|];
    destruct (Ascii.eqb c ","); [injection Hu as _ <-; lia|];
    destruct (Str.read_until "," u) as [i r]; injection Hu as _ <-;
    specialize (IH _ _ eq_refl); lia.
  all: destruct ss as [|c s]; [done|]; injection Hget as Hget; simpl in Hget.
  all: destruct (Ascii.eqb c ","); [injection Hget as _ <-; simpl; lia|].
  all: destruct (Str.read_until "," s) as [i r] eqn:Hr; injection Hget as _ <-.
  all: specialize (Hlen _ _ _ Hr); simpl; lia.
Qed.

(** [TBBManager::InitTBBParallelCountDefines], reading the flag
    [FLAGS_custom_tbb_parallel_control] passed as [flag]. *)
Definition InitTBBParallelCountDefines (flag : string)
  : outcome (gmap string Z) :=
  let tbb_parallel_count_defines : gmap string Z := ∅ in
  if decide (flag = "") then Ok tbb_parallel_count_defines
  else parse_items flag tbb_parallel_count_defines.

(** ** Data model (tbb_manager.h) *)

Record ThreadContext := {
  thread_id : Z;              (* int *)
  task_name : string;
  task_instance_id : Z;       (* uint64_t *)
}.

(** [tbb::task_arena] as far as the manager uses it: the concurrency level
    the constructor was given. *)
Record task_arena := { max_concurrency : Z }.

(** [std::shared_ptr<tbb::task_arena>]: null, or the address of an arena
    object.  Objects are numbered in the order [std::make_shared] built
    them, so an address also tells which construction made the object. *)
Definition shared_ptr := option nat.

Record TBBState := {
  arena : shared_ptr;
  initialized : bool;
}.

(** [TBBState{}]: null arena, [initialized = false]. *)
Definition TBBState_default : TBBState :=
  {| arena := None; initialized := false |}.

Record blocked_range := { my_begin : Z; my_end : Z }.

Inductive mutex := arenas_mutex_ | contexts_mutex_.

(** What an observer of one call can see besides the final state: mutex
    operations and invocations of the caller-supplied body.  The log of a
    dispatch lists the sub-range invocations one after the other; on real
    worker threads the body calls of different sub-ranges may interleave,
    the critical sections under a mutex may not. *)
Inductive event :=
  | EvLock (m : mutex)
  | EvUnlock (m : mutex)
  | EvCall (i : Z).

Global Instance mutex_eq_dec : EqDecision mutex.
Proof. solve_decision. Defined.
Global Instance event_eq_dec : EqDecision event.
Proof. solve_decision. Defined.

(** The singleton [TBBManager] together with the process-wide variables its
    member functions use: the two function-local statics, the gflags string
    and the arena objects allocated so far. *)
Record TBBManager := {
  task_arenas_ : gmap string TBBState;
  thread_contexts_ : gmap string (list ThreadContext);
  (* static std::atomic<uint32_t> global_counter, in GenerateUniqueTaskId *)
  global_counter : Z;
  (* static once_flag + map in GetTBBParallelCountDefines;
     [None] while the flag is not set *)
  tbb_parallel_count_defines : option (gmap string Z);
  FLAGS_custom_tbb_parallel_control : string;
  (* every tbb::task_arena constructed so far, by address *)
  arena_objects : list task_arena;
}.

Definition set_task_arenas (f : gmap string TBBState → gmap string TBBState)
    (s : TBBManager) : TBBManager :=
  {| task_arenas_ := f (task_arenas_ s);
     thread_contexts_ := thread_contexts_ s;
     global_counter := global_counter s;
     tbb_parallel_count_defines := tbb_parallel_count_defines s;
     FLAGS_custom_tbb_parallel_control := FLAGS_custom_tbb_parallel_control s;
     arena_objects := arena_objects s |}.

Definition set_thread_contexts
    (f : gmap string (list ThreadContext) → gmap string (list ThreadContext))
    (s : TBBManager) : TBBManager :=
  {| task_arenas_ := task_arenas_ s;
     thread_contexts_ := f (thread_contexts_ s);
     global_counter := global_counter s;
     tbb_parallel_count_defines := tbb_parallel_count_defines s;
     FLAGS_custom_tbb_parallel_control := FLAGS_custom_tbb_parallel_control s;
     arena_objects := arena_objects s |}.

Definition set_global_counter (c : Z) (s : TBBManager) : TBBManager :=
  {| task_arenas_ := task_arenas_ s;
     thread_contexts_ := thread_contexts_ s;
     global_counter := c;
     tbb_parallel_count_defines := tbb_parallel_count_defines s;
     FLAGS_custom_tbb_parallel_control := FLAGS_custom_tbb_parallel_control s;
     arena_objects := arena_objects s |}.

Definition set_defines (d : option (gmap string Z)) (s : TBBManager)
  : TBBManager :=
  {| task_arenas_ := task_arenas_ s;
     thread_contexts_ := thread_contexts_ s;
     global_counter := global_counter s;
     tbb_parallel_count_defines := d;
     FLAGS_custom_tbb_parallel_control := FLAGS_custom_tbb_parallel_control s;
     arena_objects := arena_objects s |}.

Definition set_arena_objects (l : list task_arena) (s : TBBManager)
  : TBBManager :=
  {| task_arenas_ := task_arenas_ s;
     thread_contexts_ := thread_contexts_ s;
     global_counter := global_counter s;
     tbb_parallel_count_defines := tbb_parallel_count_defines s;
     FLAGS_custom_tbb_parallel_control := FLAGS_custom_tbb_parallel_control s;
     arena_objects := l |}.

(** The process right after start-up, with the flag set to [flag]. *)
Definition fresh_process (flag : string) : TBBManager :=
  {| task_arenas_ := ∅;
     thread_contexts_ := ∅;
     global_counter := 0;
     tbb_parallel_count_defines := None;
     FLAGS_custom_tbb_parallel_control := flag;
     arena_objects := [] |}.

(** ** A state, exception and event-log monad *)

Definition M (A : Type) : Type :=
  TBBManager → outcome A * TBBManager * list event.

Definition ret {A} (a : A) : M A := λ s, (Ok a, s, []).

Definition bind {A B} (m : M A) (f : A → M B) : M B := λ s,
  match m s with
  | (Ok a, s', t) => let '(r, s'', t') := f a s' in (r, s'', t ++ t')
  | (Throw e, s', t) => (Throw e, s', t)
  | (Undefined, s', t) => (Undefined, s', t)
  end.

Global Instance M_ret : MRet M := @ret.
Global Instance M_bind : MBind M := λ A B f m, bind m f.

Definition get : M TBBManager := λ s, (Ok s, s, []).
Definition modify (f : TBBManager → TBBManager) : M unit :=
  λ s, (Ok tt, f s, []).
Definition emit (ev : event) : M unit := λ s, (Ok tt, s, [ev]).
Definition lift {A} (o : outcome A) : M A := λ s, (o, s, []).

(** [std::lock_guard<std::mutex> g(m); body]: the mutex is held for the
    scope and released when the scope is left, also by an exception. *)
Definition lock_guard {A} (m : mutex) (body : M A) : M A := λ s,
  let '(r, s', t) := body s in (r, s', EvLock m :: t ++ [EvUnlock m]).

(** ** Configuration cache *)

(** [TBBManager::GetTBBParallelCountDefines]: [std::call_once] runs the
    initialiser until it has returned once without throwing. *)
Definition GetTBBParallelCountDefines : M (gmap string Z) :=
  s ← get;
  match tbb_parallel_count_defines s with
  | Some defines => ret defines
  | None =>
      defines ← lift (InitTBBParallelCountDefines
                         (FLAGS_custom_tbb_parallel_control s));
      modify (set_defines (Some defines));;
      ret defines
  end.

(** ** Arena registry *)

(** [it = task_arenas_.find(tbb_name);
     if (it != end && it->second.initialized) return it->second.arena;] *)
Definition find_initialized (tbb_name : string) : M (option shared_ptr) :=
  s ← get;
  match task_arenas_ s !! tbb_name with
  | Some st => if initialized st then ret (Some (arena st)) else ret None
  | None => ret None
  end.

(** [std::make_shared<tbb::task_arena>(thread_count)]. *)
Definition make_shared (thread_count : Z) : M shared_ptr :=
  s ← get;
  modify (set_arena_objects
            (arena_objects s ++ [{| max_concurrency := thread_count |}]));;
  ret (Some (length (arena_objects s))).

(** [task_arenas_[tbb_name]]: default-construct the entry when absent. *)
Definition index_arenas (tbb_name : string)
    (m : gmap string TBBState) : gmap string TBBState :=
  match m !! tbb_name with
  | Some _ => m
  | None => <[tbb_name := TBBState_default]> m
  end.

(** The first critical section of [Init]: the lookup under [read_lock]. *)
Definition Init_first_check (tbb_name : string) : M (option shared_ptr) :=
  lock_guard arenas_mutex_ (find_initialized tbb_name).

(** The second critical section of [Init], under [write_lock]: look again,
    and construct the arena when the entry is still not initialized. *)
Definition Init_locked (tbb_name : string) (default_concurrency : Z)
  : M shared_ptr :=
  lock_guard arenas_mutex_
    (found ← find_initialized tbb_name;
     match found with
     | Some a => ret a
     | None =>
         let thread_count := default_concurrency in
         parallel_count_defines ← GetTBBParallelCountDefines;
         let thread_count :=
           match parallel_count_defines !! tbb_name with
           | Some count => count
           | None => thread_count
           end in
         modify (set_task_arenas (index_arenas tbb_name));;
         a ← make_shared thread_count;
         modify (set_task_arenas
           (alter (λ st, {| arena := a;
                            initialized := initialized st |}) tbb_name));;
         modify (set_task_arenas
           (alter (λ st, {| arena := arena st;
                            initialized := true |}) tbb_name));;
         ret a
     end).

(** [TBBManager::Init]; [default_concurrency] is what
    [tbb::this_task_arena::max_concurrency()] reports. *)
Definition Init (tbb_name : string) (default_concurrency : Z) : M shared_ptr :=
  found ← Init_first_check tbb_name;
  match found with
  | Some a => ret a
  | None => Init_locked tbb_name default_concurrency
  end.

(** *** Two threads in [Init]

    Between its two critical sections a caller holds no lock, so another
    thread's critical section can come in between. *)
Inductive caller :=
  | Entering                    (* before the first critical section *)
  | Waiting                     (* first check failed, before the second *)
  | Returned (h : shared_ptr)
  | Thrown (e : exception)
  | Broken.

(** One critical section of a caller of [Init tbb_name]. *)
Definition caller_step (tbb_name : string) (default_concurrency : Z)
    (c : caller) (s : TBBManager) : caller * TBBManager :=
  match c with
  | Entering =>
      match Init_first_check tbb_name s with
      | (Ok (Some a), s', _) => (Returned a, s')
      | (Ok None, s', _) => (Waiting, s')
      | (Throw e, s', _) => (Thrown e, s')
      | (Undefined, s', _) => (Broken, s')
      end
  | Waiting =>
      match Init_locked tbb_name default_concurrency s with
      | (Ok a, s', _) => (Returned a, s')
      | (Throw e, s', _) => (Thrown e, s')
      | (Undefined, s', _) => (Broken, s')
      end
  | _ => (c, s)
  end.

(** Two callers of [Init tbb_name] whose critical sections are taken in the
    order [turns] ([true]: the first caller moves). *)
Fixpoint interleave (tbb_name : string) (d1 d2 : Z) (turns : list bool)
    (c1 c2 : caller) (s : TBBManager) : caller * caller * TBBManager :=
  match turns with
  | [] => (c1, c2, s)
  | true :: rest =>
      let '(c1', s') := caller_step tbb_name d1 c1 s in
      interleave tbb_name d1 d2 rest c1' c2 s'
  | false :: rest =>
      let '(c2', s') := caller_step tbb_name d2 c2 s in
      interleave tbb_name d1 d2 rest c1 c2' s'
  end.

(** ** Task ids *)

Definition wrap32 (z : Z) : Z := z mod 2 ^ 32.
Definition wrap64 (z : Z) : Z := z mod 2 ^ 64.

(** [global_counter.fetch_add(1)] on a [uint32_t]. *)
Definition fetch_add_counter : M Z :=
  s ← get;
  modify (set_global_counter (wrap32 (global_counter s + 1)));;
  ret (global_counter s).

(** [TBBManager::GenerateUniqueTaskId]; [now] is the tick count of
    [steady_clock::now().time_since_epoch()], a signed 64-bit number. *)
Definition GenerateUniqueTaskId (now : Z) : M Z :=
  let timestamp := Z.land now 0xFFFFFFFF in
  counter ← fetch_add_counter;
  ret (Z.lor (wrap64 (Z.shiftl timestamp 32)) (Z.land counter 0xFFFFFFFF)).

(** ** Teardown *)

(** [TBBManager::Release]. *)
Definition Release : M unit :=
  lock_guard arenas_mutex_
    (lock_guard contexts_mutex_
       (modify (set_task_arenas (λ _, ∅));;
        modify (set_thread_contexts (λ _, ∅)))).

(** ** Parallel dispatch (tbb_manager.h) *)

(** [static_cast<int>(i)]. *)
Definition cast_int (z : Z) : Z := (z + 2 ^ 31) mod 2 ^ 32 - 2 ^ 31.

(** A caller-supplied body: on each element it returns ([None]) or throws.
    It is taken to act on nothing the manager owns. *)
Definition body_fn := Z → option exception.

Definition call (task : body_fn) (i : Z) : M unit :=
  emit (EvCall i);;
  match task i with
  | None => ret tt
  | Some e => lift (Throw e)
  end.

(** [thread_contexts_[unique_task_name]]: create an empty queue when the
    name has none. *)
Definition index_contexts (unique_task_name : string)
    (m : gmap string (list ThreadContext)) : gmap string (list ThreadContext) :=
  match m !! unique_task_name with
  | Some _ => m
  | None => <[unique_task_name := []]> m
  end.

(** [auto& queue = thread_contexts_[name]; for (ctx : local) queue.push(ctx);] *)
Definition push_all (unique_task_name : string)
    (local_contexts : list ThreadContext)
    (m : gmap string (list ThreadContext)) : gmap string (list ThreadContext) :=
  foldl (λ m ctx, alter (λ queue, queue ++ [ctx]) unique_task_name m)
        (index_contexts unique_task_name m) local_contexts.

(** The flush that ends a sub-range, the same in both overloads. *)
Definition flush (unique_task_name : string)
    (local_contexts : list ThreadContext) : M unit :=
  match local_contexts with
  | [] => ret tt
  | _ => lock_guard contexts_mutex_
           (modify (set_thread_contexts
                      (push_all unique_task_name local_contexts)))
  end.

Section Dispatch.

Variable task : body_fn.
Variable tbb_name : string.
Variable task_id : Z.
Variable unique_task_name : string.

(** [ThreadContext context{static_cast<int>(i), tbb_name, task_id}] *)
Definition context_of_index (i : Z) : ThreadContext :=
  {| thread_id := cast_int i;
     task_name := tbb_name;
     task_instance_id := task_id |}.

(** [ThreadContext context{0, tbb_name, task_id}] *)
Definition context_of_position (it : Z) : ThreadContext :=
  {| thread_id := 0;
     task_name := tbb_name;
     task_instance_id := task_id |}.

(** [for (IntType i = range.begin(); i < range.end(); ++i)] of the IntType
    overload, entered at [i] with [local_contexts] filled so far; [stop] is
    [range.end()]. *)
Equations? for_each_index (stop i : Z) (local_contexts : list ThreadContext)
  : M (list ThreadContext) by wf (Z.to_nat (stop - i)) lt :=
  for_each_index stop i local_contexts with decide (i < stop) := {
    | left _ =>
        let context := context_of_index i in
        call task i;;
        for_each_index stop (i + 1) (local_contexts ++ [context])
    | right _ => ret local_contexts }.
Proof. lia. Qed.

(** [for (auto it = sub_range.begin(); it != sub_range.end(); ++it)] of the
    blocked_range overload.  A [tbb::blocked_range] keeps [begin <= end], so
    the loop makes [end - begin] rounds. *)
Fixpoint for_each_position (rounds : nat) (it : Z)
    (local_contexts : list ThreadContext) : M (list ThreadContext) :=
  match rounds with
  | O => ret local_contexts
  | S rounds' =>
      let context := context_of_position it in
      call task it;;
      for_each_position rounds' (it + 1) (local_contexts ++ [context])
  end.

(** The lambda handed to [tbb::parallel_for] by the IntType overload. *)
Definition sub_range_body (range : blocked_range) : M unit :=
  local_contexts ← for_each_index (my_end range) (my_begin range) [];
  flush unique_task_name local_contexts.

(** The lambda handed to [tbb::parallel_for] by the blocked_range overload. *)
Definition sub_range_body_br (sub_range : blocked_range) : M unit :=
  local_contexts ←
    for_each_position (Z.to_nat (my_end sub_range - my_begin sub_range))
                      (my_begin sub_range) [];
  flush unique_task_name local_contexts.

End Dispatch.

(** [tbb::parallel_for(range, body)].  The scheduler is external: [sched]
    lists the sub-ranges it hands to [body], in the order in which their
    invocations take effect.  An exception thrown by one invocation is kept,
    the invocations already under way still finish, and the first exception
    is rethrown to the caller at the end. *)
Fixpoint parallel_for (sched : list blocked_range)
    (body : blocked_range → M unit) : M unit :=
  match sched with
  | [] => ret tt
  | sub_range :: rest => λ s,
      match body sub_range s with
      | (Ok _, s', t) =>
          let '(r, s'', t') := parallel_for rest body s' in (r, s'', t ++ t')
      | (Throw e, s', t) =>
          let '(r, s'', t') := parallel_for rest body s' in
          (match r with Undefined => Undefined | _ => Throw e end,
           s'', t ++ t')
      | (Undefined, s', t) => (Undefined, s', t)
      end
  end.

(** [arena->execute(job)]. *)
Definition execute (arena : shared_ptr) (job : M unit) : M unit :=
  match arena with
  | Some _ => job
  | None => lift Undefined
  end.

(** [tbb_name + "_" + std::to_string(task_id)]. *)
Definition make_unique_task_name (tbb_name : string) (task_id : Z) : string :=
  tbb_name +:+ "_" +:+ pretty task_id.

(** [TBBManager::ParallelFor], IntType overload.  Besides the source's
    arguments it takes what the environment supplies during the call: the
    clock reading, the default concurrency and the scheduler's sub-ranges
    for [blocked_range(start, end)]. *)
Definition ParallelFor (tbb_name : string) (start end_ : Z) (task : body_fn)
    (now default_concurrency : Z) (sched : list blocked_range) : M unit :=
  task_id ← GenerateUniqueTaskId now;
  let unique_task_name := make_unique_task_name tbb_name task_id in
  arena ← Init tbb_name default_concurrency;
  execute arena
    (parallel_for sched
       (sub_range_body task tbb_name task_id unique_task_name)).

(** [TBBManager::ParallelFor], blocked_range overload. *)
Definition ParallelFor_blocked_range (tbb_name : string)
    (range : blocked_range) (task : body_fn)
    (now default_concurrency : Z) (sched : list blocked_range) : M unit :=
  task_id ← GenerateUniqueTaskId now;
  let unique_task_name := make_unique_task_name tbb_name task_id in
  arena ← Init tbb_name default_concurrency;
  execute arena
    (parallel_for sched
       (sub_range_body_br task tbb_name task_id unique_task_name)).

(** ** What the scheduler may do *)

Definition range_elements (r : blocked_range) : list Z :=
  seqZ (my_begin r) (my_end r - my_begin r).

(** Recursive splitting of a range into non-empty leaves, left to right; an
    empty range yields no leaf at all. *)
Inductive engine_splits : blocked_range → list blocked_range → Prop :=
  | splits_empty r :
      my_end r ≤ my_begin r → engine_splits r []
  | splits_leaf r :
      my_begin r < my_end r → engine_splits r [r]
  | splits_node b m e l1 l2 :
      b < m < e →
      engine_splits {| my_begin := b; my_end := m |} l1 →
      engine_splits {| my_begin := m; my_end := e |} l2 →
      engine_splits {| my_begin := b; my_end := e |} (l1 ++ l2).

(** The body throws somewhere in the sub-range. *)
Definition raises (task : body_fn) (r : blocked_range) : Prop :=
  ∃ i, my_begin r ≤ i < my_end r ∧ is_Some (task i).

(** The sub-ranges a dispatch hands out: leaves of a splitting of the range,
    in any order; all of them, unless some invocation threw, in which case
    leaves not yet started may have been cancelled. *)
Definition engine_schedule (task : body_fn) (range : blocked_range)
    (sched : list blocked_range) : Prop :=
  ∃ leaves, engine_splits range leaves ∧ sched ⊆+ leaves ∧
            (sched ≡ₚ leaves ∨ ∃ sr, sr ∈ sched ∧ raises task sr).

(** ** Vocabulary of the statements *)

(** The entries the [std::getline] loop reads from a stream holding [ss]. *)
Equations? entries (ss : string) : list string
  by wf (String.length ss) lt :=
  entries ss with inspect (Str.getline ss ",") := {
    | exist _ None _ => []
    | exist _ (Some (item, ss')) Hget => item :: entries ss' }.
Proof.
  clear entries.
  assert (Hlen : ∀ u it rest, Str.read_until "," u = (it, rest) →
                 (String.length rest ≤ String.length u)%nat).
  { induction u as [|c u IH]; simpl; intros it rest Hu;
      [by injection Hu as _ <-|].
    destruct (Ascii.eqb c ","); [injection Hu as _ <-; lia|].
    destruct (Str.read_until "," u) as [i r]; injection Hu as _ <-.
    specialize (IH _ _ eq_refl); lia. }
  destruct ss as [|c s]; [done|]; injection Hget as Hget; simpl in Hget.
  destruct (Ascii.eqb c ","); [injection Hget as _ <-; simpl; lia|].
  destruct (Str.read_until "," s) as [i r] eqn:Hr; injection Hget as _ <-.
  specialize (Hlen _ _ _ Hr); simpl; lia.
Qed.

(** The count field of an entry that has a separator. *)
Definition count_field (item : string) : option string :=
  pos ← Str.find ":" item; Some (Str.substr_from (pos + 1) item).

Definition name_field (item : string) : option string :=
  pos ← Str.find ":" item; Some (Str.substr_to pos item).

Definition has_separator (item : string) : Prop :=
  is_Some (Str.find ":" item).

Global Instance has_separator_dec item : Decision (has_separator item).
Proof. unfold has_separator. apply _. Defined.

(** A valid integer, in the specification's sense: an optional sign and
    then decimal digits, at least one, up to the end of the field. *)
Fixpoint all_digits (s : string) : bool :=
  match s with
  | EmptyString => true
  | String c s' =>
      match Str.digit c with
      | Some _ => all_digits s'
      | None => false
      end
  end.

Definition valid_integer (field : string) : bool :=
  let digits :=
    match field with
    | String "-" s' => s'
    | String "+" s' => s'
    | _ => field
    end in
  match digits with
  | EmptyString => false
  | _ => all_digits digits
  end.

(** The number a count field starts with: after any white space and one
    optional sign, the value of the longest run of decimal digits; [None]
    when no digit stands there.  What follows the digits plays no part. *)
Definition leading_number (field : string) : option Z :=
  let s := Str.skip_spaces field in
  let '(neg, s) :=
    match s with
    | String "-" s' => (true, s')
    | String "+" s' => (false, s')
    | _ => (false, s)
    end in
  (λ v : Z, if neg then - v else v) <$> Str.read_digits None s.

(** The count field does not start with a number, or with one that does
    not fit an int. *)
Definition unreadable (field : string) : Prop :=
  match leading_number field with
  | None => True
  | Some v => ¬ (Str.INT_MIN ≤ v ≤ Str.INT_MAX)
  end.

(** Resolution of a list of entries that all have a separator. *)
Fixpoint resolve_entries (items : list string) (defines : gmap string Z)
  : outcome (gmap string Z) :=
  match items with
  | [] => Ok defines
  | item :: rest =>
      match name_field item, count_field item with
      | Some name, Some field =>
          match Str.stoi field with
          | Ok count => resolve_entries rest (<[name := count]> defines)
          | Throw e => Throw e
          | Undefined => Undefined
          end
      | _, _ => Undefined
      end
  end.

(** Running the same call on a list of inputs, one after the other. *)
Fixpoint each {A B} (f : A → M B) (l : list A) : M (list B) :=
  match l with
  | [] => ret []
  | a :: l' => b ← f a; bs ← each f l'; ret (b :: bs)
  end.

(** The queue stored under a name, empty when there is none. *)
Definition queue_of (name : string) (s : TBBManager) : list ThreadContext :=
  default [] (thread_contexts_ s !! name).

(** How often a mutex is acquired in an event log. *)
Definition lock_count (m : mutex) (t : list event) : nat :=
  length (filter (λ ev, ev = EvLock m) t).

(** The body invocations in an event log. *)
Definition calls (t : list event) : list Z :=
  omap (λ ev, match ev with EvCall i => Some i | _ => None end) t.

(** The events of a sub-range invocation that runs to its end. *)
Definition sub_range_events (r : blocked_range) : list event :=
  (EvCall <$> range_elements r)
  ++ [EvLock contexts_mutex_; EvUnlock contexts_mutex_].

(** State invariant: every registry entry is initialized and points to a
    constructed arena, and once an arena has been constructed the
    configuration has been resolved. *)
Definition wf (s : TBBManager) : Prop :=
  (∀ name st, task_arenas_ s !! name = Some st →
     initialized st = true ∧
     ∃ a, arena st = Some a ∧ (a < length (arena_objects s))%nat) ∧
  (arena_objects s ≠ [] → is_Some (tbb_parallel_count_defines s)).

(** One public call on the manager. *)
Inductive op :=
  | OpInit (tbb_name : string) (default_concurrency : Z)
  | OpParallelFor (tbb_name : string) (start end_ : Z) (task : body_fn)
      (now default_concurrency : Z) (sched : list blocked_range)
  | OpParallelForRange (tbb_name : string) (range : blocked_range)
      (task : body_fn) (now default_concurrency : Z)
      (sched : list blocked_range)
  | OpRelease.

Definition run_op (o : op) (s : TBBManager) : TBBManager :=
  match o with
  | OpInit n d => (Init n d s).1.2
  | OpParallelFor n b e task now d sched =>
      (ParallelFor n b e task now d sched s).1.2
  | OpParallelForRange n r task now d sched =>
      (ParallelFor_blocked_range n r task now d sched s).1.2
  | OpRelease => (Release s).1.2
  end.

(** States a process can be in: any number of calls after start-up. *)
Inductive reachable (flag : string) : TBBManager → Prop :=
  | reachable_fresh : reachable flag (fresh_process flag)
  | reachable_step s o :
      reachable flag s → reachable flag (run_op o s).

(** The name has no initialized entry: [Init] will construct. *)
Definition needs_init (tbb_name : string) (s : TBBManager) : Prop :=
  ∀ st, task_arenas_ s !! tbb_name = Some st → initialized st = false.

(** The state [Init] leaves behind when it constructs the arena. *)
Definition constructed (tbb_name : string) (thread_count : Z)
    (s : TBBManager) : TBBManager :=
  set_task_arenas
    (<[tbb_name := {| arena := Some (length (arena_objects s));
                      initialized := true |}]>)
    (set_arena_objects
       (arena_objects s ++ [{| max_concurrency := thread_count |}]) s).

Definition lock_unlock (m : mutex) : list event := [EvLock m; EvUnlock m].

(** The id [GenerateUniqueTaskId] returns at clock reading [now] when the
    counter holds [counter]. *)
Definition task_id_at (now counter : Z) : Z :=
  Z.lor (wrap64 (Z.shiftl (Z.land now 0xFFFFFFFF) 32))
        (Z.land counter 0xFFFFFFFF).

(** The element loops, read off a list of elements: the buffer a loop ends
    with, or the exception that ends it, and the body calls it makes. *)
Fixpoint run_elements (task : body_fn) (mk : Z → ThreadContext)
    (els : list Z) (local_contexts : list ThreadContext)
  : outcome (list ThreadContext) * list event :=
  match els with
  | [] => (Ok local_contexts, [])
  | i :: rest =>
      match task i with
      | None =>
          let '(r, t) := run_elements task mk rest (local_contexts ++ [mk i])
          in (r, EvCall i :: t)
      | Some e => (Throw e, [EvCall i])
      end
  end.

(** The first exception the body throws on a list of elements. *)
Definition first_exception (task : body_fn) (els : list Z)
  : option exception :=
  head (omap task els).

(** The elements on which the body is called: up to the first throw. *)
Fixpoint called (task : body_fn) (els : list Z) : list Z :=
  match els with
  | [] => []
  | i :: rest => i :: match task i with
                      | None => called task rest
                      | Some _ => []
                      end
  end.

(** Appending a batch of contexts to the queue under [name]; an empty batch
    does not touch the map. *)
Definition append_queue (name : string) (recs : list ThreadContext)
    (m : gmap string (list ThreadContext)) : gmap string (list ThreadContext) :=
  match recs with
  | [] => m
  | _ => <[name := default [] (m !! name) ++ recs]> m
  end.

(** What one sub-range invocation flushes, returns and logs. *)
Definition sub_range_flushed (task : body_fn) (mk : Z → ThreadContext)
    (r : blocked_range) : list ThreadContext :=
  match first_exception task (range_elements r) with
  | None => mk <$> range_elements r
  | Some _ => []
  end.

Definition sub_range_result (task : body_fn) (r : blocked_range)
  : outcome unit :=
  match first_exception task (range_elements r) with
  | None => Ok tt
  | Some e => Throw e
  end.

Definition sub_range_log (task : body_fn) (r : blocked_range) : list event :=
  match first_exception task (range_elements r) with
  | Some _ => EvCall <$> called task (range_elements r)
  | None =>
      (EvCall <$> range_elements r)
      ++ match range_elements r with
         | [] => []
         | _ => lock_unlock contexts_mutex_
         end
  end.

(** What a dispatch over [sched] flushes, returns and logs. *)
Definition flushed (task : body_fn) (mk : Z → ThreadContext)
    (sched : list blocked_range) : list ThreadContext :=
  concat (sub_range_flushed task mk <$> sched).

Definition dispatch_result (task : body_fn) (sched : list blocked_range)
  : outcome unit :=
  match head (omap (λ r, first_exception task (range_elements r)) sched) with
  | Some e => Throw e
  | None => Ok tt
  end.

Definition dispatch_log (task : body_fn) (sched : list blocked_range)
  : list event :=
  concat (sub_range_log task <$> sched).

(** The sub-range holds the element [k]. *)
Definition holds (k : Z) (sr : blocked_range) : Prop :=
  my_begin sr ≤ k < my_end sr.

Global Instance holds_dec k sr : Decision (holds k sr).
Proof. unfold holds. apply _. Defined.

(** What a caller of [Init] that has returned knows about the registry. *)
Definition settled (tbb_name : string) (c : caller) (s : TBBManager) : Prop :=
  match c with
  | Returned h =>
      ∃ st, task_arenas_ s !! tbb_name = Some st ∧ initialized st = true
            ∧ arena st = h
  | Broken => False
  | _ => True
  end.

(** The sub-range is a non-empty part of the range from [start] to [end_]. *)
Definition inside (start end_ : Z) (sr : blocked_range) : Prop :=
  start ≤ my_begin sr ∧ my_begin sr < my_end sr ∧ my_end sr ≤ end_.

(** The body returns on every element of the sub-range. *)
Definition completes (task : body_fn) (sr : blocked_range) : Prop :=
  first_exception task (range_elements sr) = None.

Global Instance completes_dec task sr : Decision (completes task sr).
Proof. unfold completes. apply _. Defined.

(** Two bodies for the examples: one that always returns, one that throws
    on element 500 only. *)
Definition quiet_body : body_fn := λ _, None.

Definition fails_at_500 : body_fn :=
  λ i, if decide (i = 500) then Some (task_exception 1) else None.

(** ** Vocabulary of the further properties *)

(** The string is empty or does not start with a decimal digit: there
    [std::stoi] stops reading. *)
Definition stops (rest : string) : Prop :=
  match rest with
  | EmptyString => True
  | String c _ => Str.digit c = None
  end.

(** The last step of [Str.stoi]: apply the sign and check the int range. *)
Definition finish (neg : bool) (digits : option Z) : outcome Z :=
  match digits with
  | None => Throw invalid_argument
  | Some v =>
      let v := if neg then - v else v in
      if (Str.INT_MIN <=? v) && (v <=? Str.INT_MAX) then Ok v
      else Throw out_of_range
  end.

(** The entry reads as the pair: the text before its first ':' is the name
    and [std::stoi] converts the text after it to the count. *)
Definition reads_as (item : string) (p : string * Z) : Prop :=
  name_field item = Some p.1 ∧
  ∃ field, count_field item = Some field ∧ Str.stoi field = Ok p.2.

(** A configuration text written from pairs: [name:count], joined by ','. *)
Definition render_entry (p : string * Z) : string :=
  p.1 +:+ ":" +:+ pretty p.2.

Fixpoint join_entries (items : list string) : string :=
  match items with
  | [] => ""
  | [item] => item
  | item :: rest => item +:+ "," +:+ join_entries rest
  end.

(** A count field at which [std::stoi] finds nothing to convert: empty, or
    starting with a character that is no digit, no sign and no white
    space. *)
Definition bare (junk : string) : Prop :=
  match junk with
  | EmptyString => True
  | String c _ =>
      Str.digit c = None ∧ Str.isspace c = false ∧
      Ascii.eqb c "-" = false ∧ Ascii.eqb c "+" = false
  end.

(** The hosting program assigns the gflags variable. *)
Definition set_flag (flag : string) (s : TBBManager) : TBBManager :=
  {| task_arenas_ := task_arenas_ s;
     thread_contexts_ := thread_contexts_ s;
     global_counter := global_counter s;
     tbb_parallel_count_defines := tbb_parallel_count_defines s;
     FLAGS_custom_tbb_parallel_control := flag;
     arena_objects := arena_objects s |}.

(** The context with its index field set to 0. *)
Definition zero_index (c : ThreadContext) : ThreadContext :=
  {| thread_id := 0;
     task_name := task_name c;
     task_instance_id := task_instance_id c |}.

(** What every state of a process satisfies beyond [wf]: the cached
    configuration is the parse of the flag, the counter is a [uint32_t],
    every registry entry owns an arena object of its own, built with the
    configured count when the name is configured, and every queue is
    non-empty and holds only records of its own dispatch. *)
Record invariant (flag : string) (s : TBBManager) : Prop := {
  inv_flag : FLAGS_custom_tbb_parallel_control s = flag;
  inv_cache :
    ∀ defines, tbb_parallel_count_defines s = Some defines →
      InitTBBParallelCountDefines flag = Ok defines;
  inv_counter : 0 ≤ global_counter s < 2 ^ 32;
  inv_resolved :
    arena_objects s ≠ [] → is_Some (tbb_parallel_count_defines s);
  inv_entries :
    ∀ name st, task_arenas_ s !! name = Some st →
      initialized st = true ∧
      ∃ a obj, arena st = Some a ∧ arena_objects s !! a = Some obj ∧
        ∀ defines c, tbb_parallel_count_defines s = Some defines →
          defines !! name = Some c → max_concurrency obj = c;
  inv_distinct :
    ∀ name1 name2 st1 st2,
      task_arenas_ s !! name1 = Some st1 →
      task_arenas_ s !! name2 = Some st2 →
      arena st1 = arena st2 → name1 = name2;
  inv_queues :
    ∀ key q, thread_contexts_ s !! key = Some q →
      q ≠ [] ∧
      Forall (λ c, make_unique_task_name (task_name c) (task_instance_id c)
                   = key) q;
}.

(** Reading an event log with the mutex held so far: a mutex is taken only
    while none is held, the mutex released is the one held, and the body is
    called only while none is held.  The result is the mutex held at the
    end, or [None] when the log breaks one of these rules. *)
Fixpoint lock_discipline (held : option mutex) (t : list event)
  : option (option mutex) :=
  match t, held with
  | [], _ => Some held
  | EvLock m :: rest, None => lock_discipline (Some m) rest
  | EvUnlock m :: rest, Some m' =>
      if decide (m = m') then lock_discipline None rest else None
  | EvCall _ :: rest, None => lock_discipline None rest
  | _, _ => None
  end.

(** A run of public calls, one after the other. *)
Definition run_ops (os : list op) (s : TBBManager) : TBBManager :=
  foldl (λ s o, run_op o s) s os.

Definition is_release (o : op) : bool :=
  match o with
  | OpRelease => true
  | _ => false
  end.

(** Of two callers of [Init] whose critical sections are taken in the order
    [turns], the one that is first to take its second critical section;
    [w1] and [w2] tell which callers have been through their first. *)
Fixpoint first_writer (turns : list bool) (w1 w2 : bool) : option bool :=
  match turns with
  | [] => None
  | true :: rest => if w1 then Some true else first_writer rest true w2
  | false :: rest => if w2 then Some false else first_writer rest w1 true
  end.

(** The caller has not been through its second critical section. *)
Definition pending (c : caller) : option bool :=
  match c with
  | Entering => Some false
  | Waiting => Some true
  | _ => None
  end.

(** * Properties *)

(** ** Configuration resolution *)

Lemma entries_step ss :
  entries ss = match Str.getline ss "," with
               | None => []
               | Some (item, ss') => item :: entries ss'
               end.
Proof. funelim (entries ss); first [by rewrite Hget | by rewrite e]. Qed.

Lemma parse_items_step ss m :
  parse_items ss m =
    match Str.getline ss "," with
    | None => Ok m
    | Some (item, ss') =>
        match Str.find ":" item with
        | None => parse_items ss' m
        | Some pos =>
            match Str.stoi (Str.substr_from (pos + 1) item) with
            | Ok count =>
                parse_items ss' (<[Str.substr_to pos item := count]> m)
            | Throw e => Throw e
            | Undefined => Undefined
            end
        end
    end.
Proof.
  funelim (parse_items ss m);
    repeat match goal with
    | Hg : Str.getline _ _ = _ |- _ => rewrite Hg
    | Hf : Str.find _ _ = _ |- _ => rewrite Hf
    | Hs : Str.stoi _ = _ |- _ => rewrite Hs
    end; done.
Qed.

Lemma stoi_cases s :
  (∃ count, Str.stoi s = Ok count ∧ Str.INT_MIN ≤ count ≤ Str.INT_MAX) ∨
  Str.stoi s = Throw invalid_argument ∨ Str.stoi s = Throw out_of_range.
Proof.
  unfold Str.stoi.
  destruct (match Str.skip_spaces s with
            | String "-" s' => (true, s')
            | String "+" s' => (false, s')
            | _ => (false, Str.skip_spaces s)
            end) as [neg s'].
  destruct (Str.read_digits None s') as [v|]; [|by right; left].
  destruct (_ && _) eqn:Hb; [|by right; right].
  left. eexists; split; [done|]. apply andb_prop in Hb. lia.
Qed.

Lemma has_separator_fields item :
  has_separator item →
  ∃ pos, Str.find ":" item = Some pos ∧
         name_field item = Some (Str.substr_to pos item) ∧
         count_field item = Some (Str.substr_from (pos + 1) item).
Proof.
  unfold has_separator, name_field, count_field.
  intros [pos Hpos]. exists pos. by rewrite Hpos.
Qed.

(** The loop is the resolution of the entries that have a separator. *)
Lemma parse_items_entries ss m :
  parse_items ss m = resolve_entries (filter has_separator (entries ss)) m.
Proof.
  revert m. funelim (entries ss); intros m; rewrite parse_items_step.
  - rewrite Hget. destruct (Str.find ":" item) as [pos|] eqn:Hfind.
    + rewrite filter_cons_True by (unfold has_separator; by rewrite Hfind).
      simpl. unfold name_field, count_field. rewrite Hfind. simpl.
      destruct (Str.stoi _); [apply H| |]; done.
    + rewrite filter_cons_False; [apply H|].
      unfold has_separator. rewrite Hfind. by intros [? ?].
  - by rewrite e.
Qed.

Lemma resolve_entries_bad items m item field :
  Forall has_separator items →
  item ∈ items → count_field item = Some field →
  (∀ count, Str.stoi field ≠ Ok count) →
  resolve_entries items m = Throw invalid_argument ∨
  resolve_entries items m = Throw out_of_range.
Proof.
  intros Hsep. revert m. induction Hsep as [|it items Hit Hsep IH];
    intros m Hin Hfield Hbad; [by apply elem_of_nil in Hin|].
  destruct (has_separator_fields _ Hit) as (pos & _ & Hn & Hc).
  simpl. rewrite Hn, Hc.
  destruct (stoi_cases (Str.substr_from (pos + 1) it))
    as [(count & Hok & _)|[Hthrow|Hthrow]]; rewrite ?Hthrow; auto.
  rewrite Hok. apply elem_of_cons in Hin as [->|Hin]; [|by apply IH].
  rewrite Hc in Hfield. injection Hfield as <-. by destruct (Hbad count).
Qed.

Lemma parse_items_defined ss m : parse_items ss m ≠ Undefined.
Proof.
  funelim (parse_items ss m); try done.
  destruct (stoi_cases (Str.substr_from (pos + 1) item))
    as [(? & ? & _)|[?|?]]; congruence.
Qed.

Lemma InitTBBParallelCountDefines_defined flag :
  InitTBBParallelCountDefines flag ≠ Undefined.
Proof.
  unfold InitTBBParallelCountDefines. case_decide; [done|].
  apply parse_items_defined.
Qed.

Lemma InitTBBParallelCountDefines_entries flag :
  InitTBBParallelCountDefines flag
    = resolve_entries (filter has_separator (entries flag)) ∅.
Proof.
  unfold InitTBBParallelCountDefines. case_decide as Hflag.
  - subst flag. by rewrite entries_step.
  - apply parse_items_entries.
Qed.

(** C4: the three configuration strings of the specification resolve to
    the mappings {a: 2, b: 4}, the empty mapping and {a: 2}; the entry
    without a separator is dropped without an error. *)
Theorem InitTBBParallelCountDefines_examples :
  InitTBBParallelCountDefines "a:2,b:4" = Ok (<["a" := 2]> (<["b" := 4]> ∅)) ∧
  InitTBBParallelCountDefines "" = Ok ∅ ∧
  InitTBBParallelCountDefines "a:2,bad" = Ok (<["a" := 2]> ∅).
Proof. repeat split; vm_compute; reflexivity. Qed.

Lemma stoi_leading_number field :
  Str.stoi field =
    match leading_number field with
    | None => Throw invalid_argument
    | Some v =>
        if (Str.INT_MIN <=? v) && (v <=? Str.INT_MAX) then Ok v
        else Throw out_of_range
    end.
Proof.
  unfold Str.stoi, leading_number.
  destruct (match Str.skip_spaces field with
            | String "-" s' => (true, s')
            | String "+" s' => (false, s')
            | _ => (false, Str.skip_spaces field)
            end) as [neg s'].
  by destruct (Str.read_digits None s').
Qed.

Lemma unreadable_stoi field :
  unreadable field ↔ ∀ count, Str.stoi field ≠ Ok count.
Proof.
  unfold unreadable. rewrite stoi_leading_number.
  destruct (leading_number field) as [v|]; [|done].
  destruct (_ && _) eqn:Hb.
  - apply andb_prop in Hb. split; [lia|]. intros Hbad. by destruct (Hbad v).
  - apply andb_false_iff in Hb. split; [done|]. intros _. lia.
Qed.

Lemma resolve_entries_readable items m :
  Forall has_separator items →
  (∃ m', resolve_entries items m = Ok m') ↔
  Forall (λ item, ∃ field, count_field item = Some field ∧ ¬ unreadable field)
         items.
Proof.
  intros Hsep. revert m.
  induction Hsep as [|item items Hit Hsep IH]; intros m.
  { split; [done|]. by exists m. }
  destruct (has_separator_fields _ Hit) as (pos & _ & Hn & Hc).
  rewrite Forall_cons. simpl. rewrite Hn, Hc.
  destruct (stoi_cases (Str.substr_from (pos + 1) item))
    as [(count & Hok & _)|Hthrow].
  - rewrite Hok, IH. split.
    + intros Hall. split; [|done]. eexists. split; [done|].
      rewrite unreadable_stoi. intros Hbad. by destruct (Hbad count).
    + by intros [_ Hall].
  - split.
    + intros [m' Hm']. by destruct Hthrow as [Ht|Ht]; rewrite Ht in Hm'.
    + intros [(field & [= <-] & Hread) _]. destruct Hread.
      apply unreadable_stoi. intros count.
      by destruct Hthrow as [Ht|Ht]; rewrite Ht.
Qed.

(** C5 (as amended): an entry without a ':' leaves the loop's map as it is
    and the loop goes on with the rest of the stream, so resolving a
    configuration string gives what the entries that have a ':' give.  When
    some entry has the separator but a count field that does not start,
    after white space and an optional sign, with a decimal number, or that
    starts with one that does not fit an int, the whole resolution throws
    the parse error and no mapping is returned; these are exactly the fields
    [std::stoi] cannot convert, and exactly the configurations that do not
    resolve.  A count field that starts with a number that fits an int is
    converted to that number, whatever text follows the digits. *)
Theorem InitTBBParallelCountDefines_skip_or_throw (flag : string) :
  (∀ ss item ss' defines,
     Str.getline ss "," = Some (item, ss') → Str.find ":" item = None →
     parse_items ss defines = parse_items ss' defines) ∧
  InitTBBParallelCountDefines flag
    = resolve_entries (filter has_separator (entries flag)) ∅ ∧
  (∀ item field,
     item ∈ entries flag → count_field item = Some field →
     unreadable field →
     InitTBBParallelCountDefines flag = Throw invalid_argument ∨
     InitTBBParallelCountDefines flag = Throw out_of_range) ∧
  (∀ field, unreadable field ↔ ∀ count, Str.stoi field ≠ Ok count) ∧
  (∀ field v,
     leading_number field = Some v → Str.INT_MIN ≤ v ≤ Str.INT_MAX →
     Str.stoi field = Ok v) ∧
  ((∃ m, InitTBBParallelCountDefines flag = Ok m) ↔
   Forall (λ item, ∃ field, count_field item = Some field ∧
                            ¬ unreadable field)
          (filter has_separator (entries flag))).
Proof.
  assert (Hsep : Forall has_separator (filter has_separator (entries flag)))
    by (apply Forall_forall; by intros it [Hit _]%list_elem_of_filter).
  split_and!; [|apply InitTBBParallelCountDefines_entries| |
               apply unreadable_stoi| |].
  - intros ss item ss' defines Hget Hfind.
    by rewrite parse_items_step, Hget, Hfind.
  - intros item field Hin Hfield Hbad.
    pose proof (proj1 (unreadable_stoi field) Hbad) as Hstoi.
    rewrite InitTBBParallelCountDefines_entries.
    apply (resolve_entries_bad _ _ item field); [done| |done..].
    apply list_elem_of_filter. split; [|done].
    unfold has_separator, count_field in *.
    destruct (Str.find ":" item); [by eexists|done].
  - intros field v Hv Hrange. rewrite stoi_leading_number, Hv.
    destruct (_ && _) eqn:Hb; [done|]. apply andb_false_iff in Hb. lia.
  - rewrite InitTBBParallelCountDefines_entries.
    by apply resolve_entries_readable.
Qed.

Lemma InitTBBParallelCountDefines_skip_or_throw_witness :
  InitTBBParallelCountDefines "a:2,bad,b:x,c:3" = Throw invalid_argument ∨
  InitTBBParallelCountDefines "a:2,bad,b:x,c:3" = Throw out_of_range.
Proof.
  apply (proj1 (proj2 (proj2
           (InitTBBParallelCountDefines_skip_or_throw "a:2,bad,b:x,c:3")))
           "b:x" "x").
  - vm_compute. do 2 right. left.
  - reflexivity.
  - vm_compute. exact I.
Defined.

(** C5, counterexample: count fields that are not valid integers but start
    with one.  The entries [b:12abc], [a:1e3] and [a:3.7] make no
    resolution fail: they resolve to 12, 1 and 3. *)
Lemma InitTBBParallelCountDefines_accepts_trailing_text :
  valid_integer "12abc" = false ∧
  InitTBBParallelCountDefines "a:2,b:12abc"
  = Ok (<["a" := 2]> (<["b" := 12]> ∅)) ∧
  valid_integer "1e3" = false ∧
  InitTBBParallelCountDefines "a:1e3" = Ok (<["a" := 1]> ∅) ∧
  valid_integer "3.7" = false ∧
  InitTBBParallelCountDefines "a:3.7" = Ok (<["a" := 3]> ∅).
Proof. repeat split; vm_compute; reflexivity. Qed.

(** ** The arena registry *)

Global Arguments GetTBBParallelCountDefines : simpl never.
Global Arguments find_initialized : simpl never.
Global Arguments Init : simpl never.
Global Arguments GenerateUniqueTaskId : simpl never.

Ltac run_monad :=
  unfold mbind, M_bind, bind, lock_guard, get, modify, emit, lift, ret in *;
  simpl in *.

Lemma GetTBBParallelCountDefines_cached s defines :
  tbb_parallel_count_defines s = Some defines →
  GetTBBParallelCountDefines s = (Ok defines, s, []).
Proof. intros H. unfold GetTBBParallelCountDefines. run_monad. by rewrite H. Qed.

Lemma GetTBBParallelCountDefines_first s defines :
  tbb_parallel_count_defines s = None →
  InitTBBParallelCountDefines (FLAGS_custom_tbb_parallel_control s)
    = Ok defines →
  GetTBBParallelCountDefines s = (Ok defines, set_defines (Some defines) s, []).
Proof.
  intros H1 H2. unfold GetTBBParallelCountDefines. run_monad.
  by rewrite H1, H2.
Qed.

Lemma GetTBBParallelCountDefines_throw s e :
  tbb_parallel_count_defines s = None →
  InitTBBParallelCountDefines (FLAGS_custom_tbb_parallel_control s)
    = Throw e →
  GetTBBParallelCountDefines s = (Throw e, s, []).
Proof.
  intros H1 H2. unfold GetTBBParallelCountDefines. run_monad.
  by rewrite H1, H2.
Qed.

(** Whatever it returns, the cache lookup changes at most the cache, logs
    nothing, and leaves the cache set when it succeeds. *)
Lemma GetTBBParallelCountDefines_frame s :
  ∃ r d, GetTBBParallelCountDefines s = (r, set_defines d s, []) ∧
         r ≠ Undefined ∧
         (∀ defines, r = Ok defines → d = Some defines) ∧
         (∀ defines, tbb_parallel_count_defines s = Some defines →
                     r = Ok defines ∧ d = Some defines) ∧
         (∀ e, r = Throw e → d = tbb_parallel_count_defines s).
Proof.
  destruct (tbb_parallel_count_defines s) as [defines|] eqn:Hc.
  - exists (Ok defines), (Some defines).
    rewrite (GetTBBParallelCountDefines_cached _ _ Hc).
    split_and!; try done; [|naive_solver..].
    f_equal. f_equal. destruct s; simpl in *; by subst.
  - destruct (InitTBBParallelCountDefines
                (FLAGS_custom_tbb_parallel_control s)) as [m|e|] eqn:Hi.
    + exists (Ok m), (Some m).
      rewrite (GetTBBParallelCountDefines_first _ _ Hc Hi). naive_solver.
    + exists (Throw e), None.
      rewrite (GetTBBParallelCountDefines_throw _ _ Hc Hi).
      split_and!; try done; [|naive_solver..].
      f_equal. f_equal. destruct s; simpl in *; by subst.
    + by apply InitTBBParallelCountDefines_defined in Hi.
Qed.


Lemma needs_init_dec tbb_name s :
  (∃ st, task_arenas_ s !! tbb_name = Some st ∧ initialized st = true) ∨
  needs_init tbb_name s.
Proof.
  unfold needs_init.
  destruct (task_arenas_ s !! tbb_name) as [st|] eqn:Hl; [|by right].
  destruct (initialized st) eqn:Hi; [left; eauto|right].
  by intros ? [= <-].
Qed.

Lemma find_initialized_hit tbb_name s st :
  task_arenas_ s !! tbb_name = Some st → initialized st = true →
  find_initialized tbb_name s = (Ok (Some (arena st)), s, []).
Proof.
  intros Hl Hi. unfold find_initialized. run_monad. by rewrite Hl, Hi.
Qed.

Lemma find_initialized_miss tbb_name s :
  needs_init tbb_name s → find_initialized tbb_name s = (Ok None, s, []).
Proof.
  intros Hn. unfold find_initialized. run_monad.
  destruct (task_arenas_ s !! tbb_name) as [st|] eqn:Hl; [|done].
  by rewrite (Hn st Hl).
Qed.

(** The three writes of the construction path amount to one insertion. *)
Lemma construct_entry tbb_name a (m : gmap string TBBState) :
  alter (λ st, {| arena := arena st; initialized := true |}) tbb_name
    (alter (λ st, {| arena := a; initialized := initialized st |}) tbb_name
       (index_arenas tbb_name m))
  = <[tbb_name := {| arena := a; initialized := true |}]> m.
Proof.
  apply map_eq. intros k. destruct (decide (k = tbb_name)) as [->|Hne].
  - rewrite !lookup_alter_eq, lookup_insert_eq. unfold index_arenas.
    destruct (m !! tbb_name) as [st|] eqn:Hl.
    + by rewrite Hl.
    + by rewrite lookup_insert_eq.
  - rewrite !lookup_alter_ne, lookup_insert_ne by done. unfold index_arenas.
    destruct (m !! tbb_name); [done|]. by rewrite lookup_insert_ne.
Qed.


Lemma Init_hit tbb_name d s st :
  task_arenas_ s !! tbb_name = Some st → initialized st = true →
  Init tbb_name d s = (Ok (arena st), s, lock_unlock arenas_mutex_).
Proof.
  intros Hl Hi. unfold Init, Init_first_check.
  pose proof (find_initialized_hit _ _ _ Hl Hi) as Hf.
  run_monad. by rewrite Hf.
Qed.

Lemma Init_construct tbb_name d s defines dc :
  needs_init tbb_name s →
  GetTBBParallelCountDefines s = (Ok defines, set_defines dc s, []) →
  Init tbb_name d s =
    (Ok (Some (length (arena_objects s))),
     constructed tbb_name (default d (defines !! tbb_name)) (set_defines dc s),
     lock_unlock arenas_mutex_ ++ lock_unlock arenas_mutex_).
Proof.
  intros Hn Hg. unfold Init, Init_first_check, Init_locked.
  pose proof (find_initialized_miss _ _ Hn) as Hf.
  run_monad. rewrite Hf; simpl. rewrite Hf; simpl. rewrite Hg; simpl.
  f_equal. f_equal. unfold constructed, set_task_arenas; simpl. f_equal.
  rewrite <- (construct_entry tbb_name (Some (length (arena_objects s)))).
  by destruct (defines !! tbb_name).
Qed.

Lemma Init_throw tbb_name d s e dc :
  needs_init tbb_name s →
  GetTBBParallelCountDefines s = (Throw e, set_defines dc s, []) →
  Init tbb_name d s =
    (Throw e, set_defines dc s,
     lock_unlock arenas_mutex_ ++ lock_unlock arenas_mutex_).
Proof.
  intros Hn Hg. unfold Init, Init_first_check, Init_locked.
  pose proof (find_initialized_miss _ _ Hn) as Hf.
  run_monad. rewrite Hf; simpl. rewrite Hf; simpl. by rewrite Hg.
Qed.

(** ** The dispatch, step by step *)

Lemma set_thread_contexts_id s : set_thread_contexts (λ m, m) s = s.
Proof. by destruct s. Qed.

Lemma set_thread_contexts_compose f g s :
  set_thread_contexts f (set_thread_contexts g s)
  = set_thread_contexts (f ∘ g) s.
Proof. by destruct s. Qed.

Lemma push_onto_queue name (local : list ThreadContext)
    (m : gmap string (list ThreadContext)) queue :
  m !! name = Some queue →
  foldl (λ m ctx, alter (λ queue, queue ++ [ctx]) name m) m local
  = <[name := queue ++ local]> m.
Proof.
  revert m queue. induction local as [|ctx local IH]; intros m queue Hq; simpl.
  - by rewrite app_nil_r, insert_id.
  - rewrite (IH _ (queue ++ [ctx])) by (by rewrite lookup_alter_eq, Hq).
    rewrite <- app_assoc. simpl. apply map_eq. intros k.
    destruct (decide (k = name)) as [->|Hne].
    + by rewrite !lookup_insert_eq.
    + by rewrite !lookup_insert_ne, lookup_alter_ne.
Qed.

Lemma push_all_append name local m :
  push_all name local m = <[name := default [] (m !! name) ++ local]> m.
Proof.
  unfold push_all, index_contexts. destruct (m !! name) as [queue|] eqn:Hq.
  - by apply push_onto_queue.
  - rewrite (push_onto_queue _ _ _ []) by apply lookup_insert_eq.
    by rewrite insert_insert_eq.
Qed.

Lemma append_queue_app name recs1 recs2 m :
  append_queue name recs2 (append_queue name recs1 m)
  = append_queue name (recs1 ++ recs2) m.
Proof.
  destruct recs1 as [|c1 recs1]; [done|].
  destruct recs2 as [|c2 recs2]; [by rewrite app_nil_r|].
  unfold append_queue at 1 2. simpl.
  rewrite lookup_insert_eq, insert_insert_eq. simpl.
  by rewrite <- app_assoc.
Qed.

Lemma append_queue_lookup name recs m :
  default [] (append_queue name recs m !! name)
  = default [] (m !! name) ++ recs.
Proof.
  destruct recs; simpl; [by rewrite app_nil_r|]. by rewrite lookup_insert_eq.
Qed.

Lemma append_queue_lookup_ne name other recs m :
  other ≠ name → append_queue name recs m !! other = m !! other.
Proof. intros. destruct recs; simpl; [done|]. by rewrite lookup_insert_ne. Qed.

Lemma flush_spec name local s :
  flush name local s =
    (Ok tt, set_thread_contexts (append_queue name local) s,
     match local with [] => [] | _ => lock_unlock contexts_mutex_ end).
Proof.
  destruct local as [|c local]; unfold flush; run_monad.
  - by rewrite set_thread_contexts_id.
  - f_equal. f_equal. destruct s; unfold set_thread_contexts; simpl. f_equal.
    apply push_all_append.
Qed.

Lemma for_each_index_run task tbb_name task_id stop i local s :
  for_each_index task tbb_name task_id stop i local s =
    let '(r, t) := run_elements task (context_of_index tbb_name task_id)
                     (seqZ i (stop - i)) local in
    (r, s, t).
Proof.
  revert s. funelim (for_each_index task tbb_name task_id stop i local);
    intros s.
  - rewrite seqZ_cons by lia. simpl. unfold call. run_monad.
    destruct (task i) as [e|]; [done|]. simpl.
    rewrite (H tt s s). replace (Z.pred (stop - i)) with (stop - (i + 1)) by lia.
    replace (Z.succ i) with (i + 1) by lia.
    by destruct (run_elements _ _ _ _).
  - by rewrite seqZ_nil by lia.
Qed.

Lemma for_each_position_run task tbb_name task_id rounds it local s :
  for_each_position task tbb_name task_id rounds it local s =
    let '(r, t) := run_elements task (context_of_position tbb_name task_id)
                     (seqZ it (Z.of_nat rounds)) local in
    (r, s, t).
Proof.
  revert it local s. induction rounds as [|rounds IH]; intros it local s.
  - done.
  - rewrite seqZ_cons by lia. simpl for_each_position. unfold call. run_monad.
    destruct (task it) as [e|]; [done|]. simpl.
    rewrite IH. replace (Z.pred (Z.of_nat (S rounds))) with (Z.of_nat rounds) by lia.
    replace (Z.succ it) with (it + 1) by lia.
    by destruct (run_elements _ _ _ _).
Qed.

Lemma run_elements_spec task mk els local :
  run_elements task mk els local =
    (match first_exception task els with
     | None => Ok (local ++ (mk <$> els))
     | Some e => Throw e
     end, EvCall <$> called task els).
Proof.
  revert local. induction els as [|i els IH]; intros local.
  - simpl. by rewrite app_nil_r.
  - unfold first_exception in *. csimpl.
    destruct (task i) as [e|] eqn:Ht; [done|]. rewrite IH.
    destruct (head (omap task els)); [done|]. by rewrite <- app_assoc.
Qed.

Lemma called_all task els :
  first_exception task els = None → called task els = els.
Proof.
  unfold first_exception. induction els as [|i els IH]; csimpl; [done|].
  destruct (task i); [done|]. intros H. by rewrite IH.
Qed.

Lemma sub_range_flush task mk name r local t s :
  run_elements task mk (range_elements r) [] = (local, t) →
  match local with
  | Ok a => let '(r1, s1, t1) := flush name a s in (r1, s1, t ++ t1)
  | Throw e => (Throw e, s, t)
  | Undefined => (Undefined, s, t)
  end =
  (sub_range_result task r,
   set_thread_contexts (append_queue name (sub_range_flushed task mk r)) s,
   sub_range_log task r).
Proof.
  rewrite run_elements_spec.
  unfold sub_range_result, sub_range_flushed, sub_range_log.
  destruct (first_exception task (range_elements r)) as [e|] eqn:He.
  - intros [= <- <-]. by rewrite set_thread_contexts_id.
  - intros [= <- <-]. rewrite flush_spec, (called_all _ _ He). simpl.
    by destruct (range_elements r).
Qed.

Lemma sub_range_body_spec task tbb_name task_id name r s :
  sub_range_body task tbb_name task_id name r s =
    (sub_range_result task r,
     set_thread_contexts
       (append_queue name
          (sub_range_flushed task (context_of_index tbb_name task_id) r)) s,
     sub_range_log task r).
Proof.
  unfold sub_range_body. run_monad. rewrite for_each_index_run.
  fold (range_elements r).
  destruct (run_elements _ _ _ _) as [local t] eqn:Hrun.
  by rewrite <- (sub_range_flush _ _ name _ _ _ s Hrun).
Qed.

Lemma seqZ_to_nat m len : seqZ m (Z.of_nat (Z.to_nat len)) = seqZ m len.
Proof. unfold seqZ. by rewrite Nat2Z.id. Qed.

Lemma sub_range_body_br_spec task tbb_name task_id name r s :
  sub_range_body_br task tbb_name task_id name r s =
    (sub_range_result task r,
     set_thread_contexts
       (append_queue name
          (sub_range_flushed task (context_of_position tbb_name task_id) r)) s,
     sub_range_log task r).
Proof.
  unfold sub_range_body_br. run_monad.
  rewrite for_each_position_run, seqZ_to_nat. fold (range_elements r).
  destruct (run_elements _ _ _ _) as [local t] eqn:Hrun.
  by rewrite <- (sub_range_flush _ _ name _ _ _ s Hrun).
Qed.

Lemma dispatch_result_defined task sched :
  dispatch_result task sched ≠ Undefined.
Proof. unfold dispatch_result. by destruct (head _). Qed.

(** A dispatch flushes the batches of its sub-ranges one after the other,
    returns the first exception and logs the sub-ranges in turn. *)
Lemma parallel_for_spec task mk name body sched s :
  (∀ r s, body r s =
     (sub_range_result task r,
      set_thread_contexts (append_queue name (sub_range_flushed task mk r)) s,
      sub_range_log task r)) →
  parallel_for sched body s =
    (dispatch_result task sched,
     set_thread_contexts (append_queue name (flushed task mk sched)) s,
     dispatch_log task sched).
Proof.
  intros Hbody. revert s. induction sched as [|r sched IH]; intros s.
  - simpl. unfold ret. by rewrite set_thread_contexts_id.
  - simpl. rewrite Hbody, IH, set_thread_contexts_compose.
    assert (Hstate :
      set_thread_contexts
        (append_queue name (flushed task mk sched)
         ∘ append_queue name (sub_range_flushed task mk r)) s
      = set_thread_contexts
          (append_queue name (flushed task mk (r :: sched))) s).
    { destruct s; unfold set_thread_contexts; simpl. f_equal.
      apply append_queue_app. }
    rewrite Hstate. unfold dispatch_log, dispatch_result, sub_range_result.
    csimpl. destruct (first_exception task (range_elements r)) as [e|]; csimpl.
    + by destruct (head _).
    + done.
Qed.

(** ** Whole calls *)

Lemma set_defines_same s : set_defines (tbb_parallel_count_defines s) s = s.
Proof. by destruct s. Qed.

(** The three ways a call of [Init] can go. *)
Lemma Init_cases tbb_name d s :
  (∃ st, task_arenas_ s !! tbb_name = Some st ∧ initialized st = true ∧
         Init tbb_name d s = (Ok (arena st), s, lock_unlock arenas_mutex_)) ∨
  (needs_init tbb_name s ∧
   ∃ defines, (GetTBBParallelCountDefines s).1.1 = Ok defines ∧
     Init tbb_name d s =
       (Ok (Some (length (arena_objects s))),
        constructed tbb_name (default d (defines !! tbb_name))
          (set_defines (Some defines) s),
        lock_unlock arenas_mutex_ ++ lock_unlock arenas_mutex_)) ∨
  (needs_init tbb_name s ∧
   ∃ e, Init tbb_name d s =
          (Throw e, s, lock_unlock arenas_mutex_ ++ lock_unlock arenas_mutex_)).
Proof.
  destruct (needs_init_dec tbb_name s) as [(st & Hl & Hi)|Hn].
  - left. exists st. split_and!; [done..|]. by apply Init_hit.
  - right. destruct (GetTBBParallelCountDefines_frame s)
      as (r & dc & Hg & Hdef & Hok & _ & Hthrow).
    destruct r as [defines|e|]; [|right|done].
    + left. split; [done|]. exists defines. rewrite Hg. split; [done|].
      rewrite <- (Hok defines eq_refl). by apply Init_construct.
    + split; [done|]. exists e. rewrite (Hthrow e eq_refl) in Hg.
      rewrite <- (set_defines_same s) at 2.
      apply Init_throw; [done|]. by rewrite set_defines_same in *.
Qed.

Lemma GenerateUniqueTaskId_spec now s :
  GenerateUniqueTaskId now s =
    (Ok (task_id_at now (global_counter s)),
     set_global_counter (wrap32 (global_counter s + 1)) s, []).
Proof. done. Qed.

Lemma Release_spec s :
  Release s =
    (Ok tt, set_thread_contexts (λ _, ∅) (set_task_arenas (λ _, ∅) s),
     [EvLock arenas_mutex_; EvLock contexts_mutex_;
      EvUnlock contexts_mutex_; EvUnlock arenas_mutex_]).
Proof. done. Qed.

(** A dispatch is an id, an [Init], and the scheduler's run. *)
Lemma dispatch_unfold tbb_name d now body s :
  (task_id ← GenerateUniqueTaskId now;
   arena ← Init tbb_name d;
   execute arena (body task_id)) s =
  let s1 := set_global_counter (wrap32 (global_counter s + 1)) s in
  match Init tbb_name d s1 with
  | (Ok (Some a), s2, t2) =>
      let '(r, s3, t3) := body (task_id_at now (global_counter s)) s2 in
      (r, s3, t2 ++ t3)
  | (Ok None, s2, t2) => (Undefined, s2, t2 ++ [])
  | (Throw e, s2, t2) => (Throw e, s2, t2)
  | (Undefined, s2, t2) => (Undefined, s2, t2)
  end.
Proof.
  unfold mbind, M_bind, bind. rewrite GenerateUniqueTaskId_spec. simpl.
  destruct (Init _ _ _) as [[[[a|]|e|] s2] t2]; simpl; try done.
  by destruct (body _ _) as [[? ?] ?].
Qed.

Lemma ParallelFor_spec tbb_name b e task now d sched s a s2 t2 :
  Init tbb_name d (set_global_counter (wrap32 (global_counter s + 1)) s)
    = (Ok (Some a), s2, t2) →
  let task_id := task_id_at now (global_counter s) in
  ParallelFor tbb_name b e task now d sched s =
    (dispatch_result task sched,
     set_thread_contexts
       (append_queue (make_unique_task_name tbb_name task_id)
          (flushed task (context_of_index tbb_name task_id) sched)) s2,
     t2 ++ dispatch_log task sched).
Proof.
  intros HInit task_id. unfold ParallelFor.
  rewrite (dispatch_unfold tbb_name d now
    (λ id, parallel_for sched
       (sub_range_body task tbb_name id (make_unique_task_name tbb_name id)))).
  simpl. rewrite HInit.
  by rewrite (parallel_for_spec task (context_of_index tbb_name task_id)
                (make_unique_task_name tbb_name task_id))
    by apply sub_range_body_spec.
Qed.

Lemma ParallelFor_blocked_range_spec tbb_name range task now d sched s a s2 t2 :
  Init tbb_name d (set_global_counter (wrap32 (global_counter s + 1)) s)
    = (Ok (Some a), s2, t2) →
  let task_id := task_id_at now (global_counter s) in
  ParallelFor_blocked_range tbb_name range task now d sched s =
    (dispatch_result task sched,
     set_thread_contexts
       (append_queue (make_unique_task_name tbb_name task_id)
          (flushed task (context_of_position tbb_name task_id) sched)) s2,
     t2 ++ dispatch_log task sched).
Proof.
  intros HInit task_id. unfold ParallelFor_blocked_range.
  rewrite (dispatch_unfold tbb_name d now
    (λ id, parallel_for sched
       (sub_range_body_br task tbb_name id
          (make_unique_task_name tbb_name id)))).
  simpl. rewrite HInit.
  by rewrite (parallel_for_spec task (context_of_position tbb_name task_id)
                (make_unique_task_name tbb_name task_id))
    by apply sub_range_body_br_spec.
Qed.

(** ** The scheduler's sub-ranges *)

Lemma engine_splits_elements r leaves :
  engine_splits r leaves →
  concat (range_elements <$> leaves) = range_elements r.
Proof.
  induction 1 as [r Hr|r Hr|b m e l1 l2 Hm _ IH1 _ IH2].
  - unfold range_elements. by rewrite seqZ_nil by lia.
  - simpl. by rewrite app_nil_r.
  - rewrite fmap_app, concat_app, IH1, IH2. unfold range_elements. simpl.
    replace (e - b) with ((m - b) + (e - m)) by lia.
    rewrite seqZ_app by lia. by replace (b + (m - b)) with m by lia.
Qed.

Lemma engine_splits_within r leaves :
  engine_splits r leaves →
  Forall (λ sr, my_begin r ≤ my_begin sr ∧ my_begin sr < my_end sr
                ∧ my_end sr ≤ my_end r) leaves.
Proof.
  induction 1 as [r Hr|r Hr|b m e l1 l2 Hm _ IH1 _ IH2].
  - constructor.
  - repeat constructor; lia.
  - apply Forall_app. split; (eapply Forall_impl; [eassumption|]);
      simpl; intros sr ?; lia.
Qed.

Lemma elem_of_range_elements i r :
  i ∈ range_elements r ↔ my_begin r ≤ i < my_end r.
Proof. unfold range_elements. rewrite elem_of_seqZ. lia. Qed.

Lemma first_exception_None task els :
  first_exception task els = None ↔ Forall (λ i, task i = None) els.
Proof.
  unfold first_exception. induction els as [|i els IH]; csimpl.
  - split; [constructor|done].
  - destruct (task i) as [e|] eqn:Ht.
    + split; [done|]. intros [? _]%Forall_cons. congruence.
    + rewrite IH. split; [by constructor|by intros [_ ?]%Forall_cons].
Qed.

Lemma first_exception_raises task r :
  is_Some (first_exception task (range_elements r)) ↔ raises task r.
Proof.
  unfold raises. rewrite <- not_eq_None_Some, first_exception_None.
  rewrite <- Exists_Forall_neg by (intros i; destruct (task i); naive_solver).
  rewrite Exists_exists. setoid_rewrite elem_of_range_elements.
  by setoid_rewrite not_eq_None_Some.
Qed.

(** The sub-ranges handed out lie inside the range and are not empty. *)
Lemma engine_schedule_within task r sched :
  engine_schedule task r sched →
  Forall (λ sr, my_begin r ≤ my_begin sr ∧ my_begin sr < my_end sr
                ∧ my_end sr ≤ my_end r) sched.
Proof.
  intros (leaves & Hsplit & Hsub & _). apply Forall_forall. intros sr Hsr.
  pose proof (engine_splits_within _ _ Hsplit) as Hw.
  rewrite Forall_forall in Hw. apply Hw. by eapply elem_of_submseteq.
Qed.

(** When the body throws nowhere in the range, every leaf is handed out. *)
Lemma engine_schedule_complete task r sched :
  engine_schedule task r sched →
  (∀ i, my_begin r ≤ i < my_end r → task i = None) →
  Forall (λ sr, first_exception task (range_elements sr) = None) sched ∧
  concat (range_elements <$> sched) ≡ₚ range_elements r.
Proof.
  intros Hsched Hquiet.
  pose proof (engine_schedule_within _ _ _ Hsched) as Hw.
  assert (Hnone : Forall (λ sr, first_exception task (range_elements sr)
                                = None) sched).
  { eapply Forall_impl; [exact Hw|]. simpl. intros sr Hsr.
    apply first_exception_None, Forall_forall.
    intros i Hi%elem_of_range_elements. apply Hquiet. lia. }
  split; [done|].
  destruct Hsched as (leaves & Hsplit & Hsub & [Hperm|(sr & Hsr & Hraise)]).
  - rewrite Hperm. by rewrite (engine_splits_elements _ _ Hsplit).
  - rewrite Forall_forall in Hnone. specialize (Hnone sr Hsr).
    apply first_exception_raises in Hraise. rewrite Hnone in Hraise.
    by destruct Hraise.
Qed.

Lemma flushed_quiet task mk sched :
  Forall (λ sr, first_exception task (range_elements sr) = None) sched →
  flushed task mk sched = mk <$> concat (range_elements <$> sched).
Proof.
  unfold flushed. induction 1 as [|sr sched Hsr _ IH]; [done|].
  csimpl. rewrite fmap_app, <- IH. unfold sub_range_flushed at 1.
  by rewrite Hsr.
Qed.

Lemma dispatch_result_quiet task sched :
  Forall (λ sr, first_exception task (range_elements sr) = None) sched →
  dispatch_result task sched = Ok tt.
Proof.
  unfold dispatch_result. induction 1 as [|sr sched Hsr _ IH]; [done|].
  csimpl. by rewrite Hsr.
Qed.

Lemma dispatch_log_quiet task sched :
  Forall (λ sr, first_exception task (range_elements sr) = None
                ∧ my_begin sr < my_end sr) sched →
  dispatch_log task sched = concat (sub_range_events <$> sched).
Proof.
  unfold dispatch_log. induction 1 as [|sr sched [Hsr Hne] _ IH]; [done|].
  csimpl. rewrite IH. f_equal. unfold sub_range_log, sub_range_events.
  rewrite Hsr. f_equal. unfold range_elements.
  by rewrite seqZ_cons by lia.
Qed.

Lemma cast_int_small z : - 2 ^ 31 ≤ z < 2 ^ 31 → cast_int z = z.
Proof. intros Hz. unfold cast_int. rewrite Z.mod_small; lia. Qed.

Lemma Init_thread_contexts tbb_name d s :
  thread_contexts_ (Init tbb_name d s).1.2 = thread_contexts_ s ∧
  global_counter (Init tbb_name d s).1.2 = global_counter s.
Proof.
  destruct (Init_cases tbb_name d s)
    as [(st & _ & _ & ->)|[(_ & defines & _ & ->)|(_ & e & ->)]]; done.
Qed.

Lemma Init_no_contexts_lock tbb_name d s :
  lock_count contexts_mutex_ (Init tbb_name d s).2 = 0%nat ∧
  calls (Init tbb_name d s).2 = [].
Proof.
  destruct (Init_cases tbb_name d s)
    as [(st & _ & _ & ->)|[(_ & defines & _ & ->)|(_ & e & ->)]]; done.
Qed.

(** A dispatch whose body throws nowhere in the range: it returns, and what
    it flushes is one context per element of the range, in some order. *)
Lemma quiet_dispatch task mk b e sched :
  engine_schedule task {| my_begin := b; my_end := e |} sched →
  (∀ i, b ≤ i < e → task i = None) →
  dispatch_result task sched = Ok tt ∧
  dispatch_log task sched = concat (sub_range_events <$> sched) ∧
  ∃ els, flushed task mk sched = mk <$> els ∧ els ≡ₚ seqZ b (e - b).
Proof.
  intros Hsched Hquiet.
  destruct (engine_schedule_complete _ _ _ Hsched Hquiet) as [Hnone Hperm].
  split_and!.
  - by apply dispatch_result_quiet.
  - apply dispatch_log_quiet.
    pose proof (engine_schedule_within _ _ _ Hsched) as Hw.
    rewrite Forall_forall in Hnone, Hw. apply Forall_forall.
    intros sr Hsr. split; [by apply Hnone|]. by apply Hw.
  - eexists. split; [by apply flushed_quiet|done].
Qed.

Lemma queue_after_flush name recs s :
  queue_of name (set_thread_contexts (append_queue name recs) s)
  = queue_of name s ++ recs.
Proof.
  unfold queue_of. destruct s; simpl. apply append_queue_lookup.
Qed.

Lemma queue_created name recs s :
  recs ≠ [] → thread_contexts_ s !! name = None →
  thread_contexts_ (set_thread_contexts (append_queue name recs) s) !! name
  = Some recs.
Proof.
  intros Hne Hnone. destruct s; simpl in *.
  destruct recs; [done|]. simpl. by rewrite lookup_insert_eq, Hnone.
Qed.

(** C1 (as amended): a dispatch over the range 0..1000 whose body does not
    throw returns, and has then appended exactly 1000 contexts to the queue
    of its task-instance name (which holds nothing else when the name is
    new).  In the IntType overload the recorded indices are 0,...,999, each
    once, and every context carries the arena name and the task id; in the
    blocked_range overload every context carries the arena name and the
    task id, and the constant 0 where the other overload has the index. *)
Theorem ParallelFor_context_completeness
    tbb_name task now d sched s a s2 t2 :
  Init tbb_name d (GenerateUniqueTaskId now s).1.2 = (Ok (Some a), s2, t2) →
  engine_schedule task {| my_begin := 0; my_end := 1000 |} sched →
  (∀ i, 0 ≤ i < 1000 → task i = None) →
  let task_id := task_id_at now (global_counter s) in
  let name := make_unique_task_name tbb_name task_id in
  (GenerateUniqueTaskId now s).1.1 = Ok task_id ∧
  (∃ s' t recs,
     ParallelFor tbb_name 0 1000 task now d sched s = (Ok tt, s', t) ∧
     queue_of name s' = queue_of name s ++ recs ∧
     (thread_contexts_ s !! name = None →
      thread_contexts_ s' !! name = Some recs) ∧
     length recs = 1000%nat ∧
     thread_id <$> recs ≡ₚ seqZ 0 1000 ∧
     NoDup (thread_id <$> recs) ∧
     Forall (λ c, task_name c = tbb_name ∧ task_instance_id c = task_id)
            recs) ∧
  (∃ s' t recs,
     ParallelFor_blocked_range tbb_name {| my_begin := 0; my_end := 1000 |}
       task now d sched s = (Ok tt, s', t) ∧
     queue_of name s' = queue_of name s ++ recs ∧
     (thread_contexts_ s !! name = None →
      thread_contexts_ s' !! name = Some recs) ∧
     length recs = 1000%nat ∧
     Forall (λ c, thread_id c = 0 ∧ task_name c = tbb_name
                  ∧ task_instance_id c = task_id) recs).
Proof.
  intros HInit Hsched Hquiet task_id name.
  rewrite GenerateUniqueTaskId_spec in HInit. simpl in HInit.
  assert (Hctx : thread_contexts_ s2 = thread_contexts_ s).
  { pose proof (proj1 (Init_thread_contexts tbb_name d
      (set_global_counter (wrap32 (global_counter s + 1)) s))) as H.
    by rewrite HInit in H. }
  assert (Hq : ∀ n, queue_of n s2 = queue_of n s)
    by (intros n; unfold queue_of; by rewrite Hctx).
  split; [done|]. split.
  - destruct (quiet_dispatch task (context_of_index tbb_name task_id)
                0 1000 sched Hsched Hquiet) as (Hres & _ & els & Hfl & Hperm).
    assert (Hlen : length els = 1000%nat)
      by (by rewrite Hperm, length_seqZ).
    do 3 eexists. rewrite (ParallelFor_spec _ _ _ _ _ _ _ _ _ _ _ HInit).
    fold task_id name. rewrite Hres, Hfl.
    assert (Hids : thread_id <$> (context_of_index tbb_name task_id <$> els)
                   ≡ₚ seqZ 0 1000).
    { assert (Hid : thread_id <$> (context_of_index tbb_name task_id <$> els)
                    = els); [|by rewrite Hid].
      rewrite <- list_fmap_compose.
      rewrite (proj1 (Forall_fmap_ext _ id els)); [apply list_fmap_id|].
      apply Forall_forall. intros i Hi. simpl.
      rewrite Hperm in Hi. apply elem_of_seqZ in Hi.
      apply cast_int_small. lia. }
    split_and!.
    + done.
    + by rewrite queue_after_flush, Hq.
    + intros Hnew. apply queue_created; [|by rewrite Hctx].
      destruct els; [done|]. done.
    + by rewrite length_fmap.
    + done.
    + rewrite Hids. apply NoDup_seqZ.
    + apply Forall_fmap, Forall_true. done.
  - destruct (quiet_dispatch task (context_of_position tbb_name task_id)
                0 1000 sched Hsched Hquiet) as (Hres & _ & els & Hfl & Hperm).
    assert (Hlen : length els = 1000%nat)
      by (by rewrite Hperm, length_seqZ).
    do 3 eexists.
    rewrite (ParallelFor_blocked_range_spec _ _ _ _ _ _ _ _ _ _ HInit).
    fold task_id name. rewrite Hres, Hfl. split_and!.
    + done.
    + by rewrite queue_after_flush, Hq.
    + intros Hnew. apply queue_created; [|by rewrite Hctx].
      destruct els; [done|]. done.
    + by rewrite length_fmap.
    + apply Forall_fmap, Forall_true. done.
Qed.

Lemma two_halves_schedule task :
  engine_schedule task {| my_begin := 0; my_end := 1000 |}
    [{| my_begin := 500; my_end := 1000 |}; {| my_begin := 0; my_end := 500 |}].
Proof.
  exists [{| my_begin := 0; my_end := 500 |};
          {| my_begin := 500; my_end := 1000 |}].
  split_and!.
  - apply (splits_node 0 500 1000 [_] [_]); [lia|apply splits_leaf..];
      simpl; lia.
  - apply Permutation_submseteq, perm_swap.
  - left. apply perm_swap.
Qed.

Lemma ParallelFor_context_completeness_witness :
  ∃ s' t recs,
    ParallelFor "x" 0 1000 quiet_body 7 4
      [{| my_begin := 500; my_end := 1000 |};
       {| my_begin := 0; my_end := 500 |}] (fresh_process "x:2")
    = (Ok tt, s', t) ∧
    thread_contexts_ s' !! "x_30064771072"%string = Some recs ∧
    length recs = 1000%nat ∧
    thread_id <$> recs ≡ₚ seqZ 0 1000.
Proof.
  destruct (ParallelFor_context_completeness "x" quiet_body 7 4
              [{| my_begin := 500; my_end := 1000 |};
               {| my_begin := 0; my_end := 500 |}]
              (fresh_process "x:2") 0%nat
              (Init "x" 4
                 (GenerateUniqueTaskId 7 (fresh_process "x:2")).1.2).1.2
              (Init "x" 4
                 (GenerateUniqueTaskId 7 (fresh_process "x:2")).1.2).2)
    as (_ & (s' & t & recs & Hrun & _ & Hnew & Hlen & Hperm & _) & _).
  - vm_compute. reflexivity.
  - apply two_halves_schedule.
  - done.
  - exists s', t, recs. split_and!; [exact Hrun| |exact Hlen|exact Hperm].
    apply Hnew. vm_compute. reflexivity.
Defined.

(** C1, counterexample: the blocked_range overload run over 0..1000 appends
    1000 contexts that all carry 0, so the recorded indices are not
    0,...,999. *)
Lemma ParallelFor_blocked_range_records_zero :
  let run := ParallelFor_blocked_range "x"
               {| my_begin := 0; my_end := 1000 |} quiet_body 7 4
               [{| my_begin := 0; my_end := 1000 |}] (fresh_process "") in
  run.1.1 = Ok tt ∧
  length (queue_of "x_30064771072" run.1.2) = 1000%nat ∧
  Forall (λ c, thread_id c = 0) (queue_of "x_30064771072" run.1.2) ∧
  ¬ (thread_id <$> queue_of "x_30064771072" run.1.2 ≡ₚ seqZ 0 1000).
Proof.
  intros run.
  assert (Hzero : Forall (λ c, thread_id c = 0)
                    (queue_of "x_30064771072" run.1.2)).
  { apply (bool_decide_unpack _). vm_compute. exact I. }
  split_and!; [vm_compute; reflexivity..|done|].
  intros Hperm.
  assert (H1 : 1 ∈ thread_id <$> queue_of "x_30064771072" run.1.2)
    by (rewrite Hperm; apply elem_of_seqZ; lia).
  apply list_elem_of_fmap in H1 as (c & Hc & Hin).
  rewrite Forall_forall in Hzero. specialize (Hzero c Hin). lia.
Qed.

(** ** A body that throws on one element *)

Lemma elem_of_concat {A} (x : A) (ls : list (list A)) :
  x ∈ concat ls ↔ ∃ l, l ∈ ls ∧ x ∈ l.
Proof.
  induction ls as [|l' ls IH]; simpl.
  - split; [by intros ?%elem_of_nil|by intros (? & ?%elem_of_nil & _)].
  - rewrite elem_of_app, IH. split.
    + intros [Hx|(l & Hl & Hx)];
        [exists l'; split; [left|done]|exists l; split; [by right|done]].
    + intros (l & [->|Hl]%elem_of_cons & Hx); [by left|right; eauto].
Qed.

Section OneFailure.

Variable task : body_fn.
Variables (start end_ k : Z) (ex : exception).
Hypothesis Hk : start ≤ k < end_.
Hypothesis Hthrow : task k = Some ex.
Hypothesis Hothers : ∀ i, start ≤ i < end_ → i ≠ k → task i = None.

Lemma first_exception_elem els e :
  first_exception task els = Some e → ∃ i, i ∈ els ∧ task i = Some e.
Proof.
  unfold first_exception. induction els as [|i els IH]; csimpl; [done|].
  destruct (task i) as [e'|] eqn:Ht.
  - intros [= ->]. exists i. split; [left|done].
  - intros (j & Hj & He)%IH. exists j. split; [by right|done].
Qed.

Lemma one_failure_sub_range sr :
  start ≤ my_begin sr → my_end sr ≤ end_ →
  first_exception task (range_elements sr)
  = if decide (holds k sr) then Some ex else None.
Proof.
  intros Hb He. case_decide as Hin.
  - destruct (first_exception task (range_elements sr)) as [e|] eqn:Hf.
    + apply first_exception_elem in Hf as (i & Hi%elem_of_range_elements & Hti).
      destruct (decide (i = k)) as [->|Hne]; [congruence|].
      rewrite Hothers in Hti by lia. done.
    + rewrite first_exception_None, Forall_forall in Hf.
      rewrite (Hf k) in Hthrow; [done|]. by apply elem_of_range_elements.
  - apply first_exception_None, Forall_forall.
    intros i Hi%elem_of_range_elements. apply Hothers; [lia|].
    intros ->. by apply Hin.
Qed.

(** Only the sub-ranges that do not hold [k] flush. *)
Lemma one_failure_flushed mk sched :
  Forall (inside start end_) sched →
  flushed task mk sched
  = mk <$> concat (range_elements <$> filter (λ sr, ¬ holds k sr) sched).
Proof.
  unfold flushed. induction 1 as [|sr sched (Hb & _ & He) _ IH]; [done|].
  csimpl. rewrite IH. unfold sub_range_flushed at 1.
  rewrite one_failure_sub_range by done. case_decide as Hin.
  - by rewrite filter_cons_False by (by intros []).
  - rewrite filter_cons_True by done. csimpl. by rewrite fmap_app.
Qed.

Lemma one_failure_result sched sr :
  Forall (inside start end_) sched → sr ∈ sched → holds k sr →
  dispatch_result task sched = Throw ex.
Proof.
  unfold dispatch_result.
  induction 1 as [|sr' sched (Hb & _ & He) _ IH]; intros Hsr Hin;
    [by apply elem_of_nil in Hsr|].
  csimpl. rewrite one_failure_sub_range by done. case_decide as Hin'; [done|].
  apply elem_of_cons in Hsr as [->|Hsr]; [done|]. by apply IH.
Qed.

Lemma filter_concat_length (P : blocked_range → Prop)
    `{∀ sr, Decision (P sr)} sched :
  (length (concat (range_elements <$> filter P sched))
   ≤ length (concat (range_elements <$> sched)))%nat.
Proof.
  induction sched as [|sr sched IH]; [done|].
  destruct (decide (P sr)).
  - rewrite filter_cons_True by done. csimpl. rewrite !length_app. lia.
  - rewrite filter_cons_False by done. csimpl. rewrite !length_app. lia.
Qed.

Lemma one_failure_length sched sr :
  sr ∈ sched → holds k sr →
  (length (concat (range_elements <$> filter (λ sr, ¬ holds k sr) sched)) + 1
   ≤ length (concat (range_elements <$> sched)))%nat.
Proof.
  induction sched as [|sr' sched IH]; intros Hsr Hin;
    [by apply elem_of_nil in Hsr|].
  destruct (decide (holds k sr')) as [Hin'|Hout].
  - rewrite filter_cons_False by (by intros []). csimpl. rewrite length_app.
    pose proof (filter_concat_length (λ sr, ¬ holds k sr) sched).
    assert (length (range_elements sr') ≠ 0%nat); [|lia].
    apply elem_of_range_elements in Hin'.
    destruct (range_elements sr'); [by apply elem_of_nil in Hin'|done].
  - rewrite filter_cons_True by done. csimpl. rewrite !length_app.
    apply elem_of_cons in Hsr as [->|Hsr]; [done|].
    specialize (IH Hsr Hin). lia.
Qed.

(** The sub-range that holds [k] is among those handed out. *)
Lemma one_failure_reached sched :
  engine_schedule task {| my_begin := start; my_end := end_ |} sched →
  ∃ sr, sr ∈ sched ∧ holds k sr.
Proof.
  intros Hsched. pose proof (engine_schedule_within _ _ _ Hsched) as Hw.
  destruct Hsched as (leaves & Hsplit & Hsub & [Hperm|(sr & Hsr & Hraise)]).
  - assert (Hin : k ∈ concat (range_elements <$> sched)).
    { rewrite Hperm, (engine_splits_elements _ _ Hsplit).
      by apply elem_of_range_elements. }
    apply elem_of_concat in Hin as (els & Hels & Hkin).
    apply list_elem_of_fmap in Hels as (sr & -> & Hsr).
    exists sr. split; [done|]. by apply elem_of_range_elements.
  - exists sr. split; [done|]. destruct Hraise as (i & Hi & Hsome).
    rewrite Forall_forall in Hw. specialize (Hw sr Hsr). simpl in Hw.
    destruct (decide (i = k)) as [->|Hne]; [done|].
    rewrite Hothers in Hsome by lia. by destruct Hsome.
Qed.

Lemma schedule_total_length sched :
  engine_schedule task {| my_begin := start; my_end := end_ |} sched →
  (length (concat (range_elements <$> sched)) ≤ Z.to_nat (end_ - start))%nat.
Proof.
  intros (leaves & Hsplit & Hsub & _).
  apply submseteq_Permutation in Hsub as [rest Hrest].
  pose proof (engine_splits_elements _ _ Hsplit) as Hels.
  apply (f_equal length) in Hels. rewrite Hrest in Hels.
  rewrite fmap_app, concat_app, length_app in Hels.
  unfold range_elements in Hels at 3. rewrite length_seqZ in Hels.
  simpl in Hels. lia.
Qed.

End OneFailure.

(** C2: when the body throws on one element [k] of the range (and nowhere
    else), the IntType overload rethrows that exception to its caller; what
    it has appended to the queue are the contexts of the sub-ranges that do
    not hold [k] and nothing of the sub-range that holds it, so no appended
    context records [k] and at most [end - start - 1] contexts were added
    (at most 999 for element 500 of 0..1000). *)
Theorem ParallelFor_failure_propagation
    tbb_name start end_ k ex task now d sched s a s2 t2 :
  Init tbb_name d (GenerateUniqueTaskId now s).1.2 = (Ok (Some a), s2, t2) →
  engine_schedule task {| my_begin := start; my_end := end_ |} sched →
  - 2 ^ 31 ≤ start → end_ ≤ 2 ^ 31 →
  start ≤ k < end_ →
  task k = Some ex →
  (∀ i, start ≤ i < end_ → i ≠ k → task i = None) →
  let task_id := task_id_at now (global_counter s) in
  let name := make_unique_task_name tbb_name task_id in
  ∃ s' t recs,
    ParallelFor tbb_name start end_ task now d sched s = (Throw ex, s', t) ∧
    queue_of name s' = queue_of name s ++ recs ∧
    recs = context_of_index tbb_name task_id <$>
             concat (range_elements <$> filter (λ sr, ¬ holds k sr) sched) ∧
    (∀ c, c ∈ recs → thread_id c ≠ k) ∧
    (length recs ≤ Z.to_nat (end_ - start) - 1)%nat ∧
    (thread_contexts_ s !! name = None →
     (length (queue_of name s') ≤ Z.to_nat (end_ - start) - 1)%nat).
Proof.
  intros HInit Hsched Hlo Hhi Hk Hthrow Hothers task_id name.
  rewrite GenerateUniqueTaskId_spec in HInit. simpl in HInit.
  assert (Hq : queue_of name s2 = queue_of name s).
  { pose proof (proj1 (Init_thread_contexts tbb_name d
      (set_global_counter (wrap32 (global_counter s + 1)) s))) as H.
    rewrite HInit in H. simpl in H. unfold queue_of. by rewrite H. }
  pose proof (engine_schedule_within _ _ _ Hsched) as Hw. simpl in Hw.
  destruct (one_failure_reached task start end_ k Hk Hothers sched Hsched)
    as (sr & Hsr & Hin).
  pose proof (one_failure_length k sched sr Hsr Hin) as Hlen.
  pose proof (schedule_total_length task start end_ sched Hsched) as Htot.
  do 3 eexists. rewrite (ParallelFor_spec _ _ _ _ _ _ _ _ _ _ _ HInit).
  fold task_id name.
  rewrite (one_failure_result task start end_ k ex Hk Hthrow Hothers sched sr)
    by done.
  rewrite (one_failure_flushed task start end_ k ex Hk Hthrow Hothers)
    by done.
  split_and!.
  - done.
  - by rewrite queue_after_flush, Hq.
  - done.
  - intros c (i & -> & Hi)%list_elem_of_fmap.
    apply elem_of_concat in Hi as (els & Hels & Hi).
    apply list_elem_of_fmap in Hels as (sr' & -> & [Hout Hsr']%list_elem_of_filter).
    rewrite Forall_forall in Hw. specialize (Hw sr' Hsr').
    apply elem_of_range_elements in Hi. simpl.
    rewrite cast_int_small by lia. intros ->. apply Hout. done.
  - rewrite length_fmap. lia.
  - intros Hnew. rewrite queue_after_flush, Hq. unfold queue_of at 1.
    rewrite Hnew. simpl. rewrite length_fmap. lia.
Qed.

Lemma ParallelFor_failure_propagation_witness :
  ∃ s' t,
    ParallelFor "x" 0 1000 fails_at_500 7 4
      [{| my_begin := 500; my_end := 1000 |};
       {| my_begin := 0; my_end := 500 |}] (fresh_process "x:2")
    = (Throw (task_exception 1), s', t) ∧
    (length (queue_of "x_30064771072" s') ≤ 999)%nat.
Proof.
  destruct (ParallelFor_failure_propagation "x" 0 1000 500 (task_exception 1)
              fails_at_500 7 4
              [{| my_begin := 500; my_end := 1000 |};
               {| my_begin := 0; my_end := 500 |}]
              (fresh_process "x:2") 0%nat
              (Init "x" 4
                 (GenerateUniqueTaskId 7 (fresh_process "x:2")).1.2).1.2
              (Init "x" 4
                 (GenerateUniqueTaskId 7 (fresh_process "x:2")).1.2).2)
    as (s' & t & recs & Hrun & _ & _ & _ & _ & Hnew).
  - vm_compute. reflexivity.
  - apply two_halves_schedule.
  - lia.
  - lia.
  - lia.
  - reflexivity.
  - intros i _ Hne. unfold fails_at_500. by case_decide.
  - exists s', t. split; [exact Hrun|]. apply Hnew. vm_compute. reflexivity.
Defined.

(** ** Arena creation *)

Lemma constructed_lookup tbb_name count s :
  task_arenas_ (constructed tbb_name count s) !! tbb_name
  = Some {| arena := Some (length (arena_objects s)); initialized := true |}.
Proof. unfold constructed. simpl. apply lookup_insert_eq. Qed.

(** Once [Init] has returned a handle, calling it again changes nothing. *)
Lemma Init_again tbb_name d d' s h s1 t :
  Init tbb_name d s = (Ok h, s1, t) →
  Init tbb_name d' s1 = (Ok h, s1, lock_unlock arenas_mutex_).
Proof.
  intros HInit.
  destruct (Init_cases tbb_name d s)
    as [(st & Hl & Hi & Heq)|[(_ & defines & _ & Heq)|(_ & e & Heq)]];
    rewrite Heq in HInit; [| |done].
  - injection HInit as <- <- <-. by apply Init_hit.
  - injection HInit as <- <- <-.
    by rewrite (Init_hit _ _ _ _ (constructed_lookup _ _ _)).
Qed.

Lemma each_Init_again tbb_name (ds : list Z) s1 h :
  (∀ d', Init tbb_name d' s1 = (Ok h, s1, lock_unlock arenas_mutex_)) →
  (each (Init tbb_name) ds s1).1 = (Ok (replicate (length ds) h), s1).
Proof.
  intros Hagain. induction ds as [|d ds IH]; [done|].
  simpl. unfold mbind, M_bind, bind. rewrite Hagain.
  destruct (each (Init tbb_name) ds s1) as [[r s'] t'].
  simpl in IH. injection IH as -> ->. done.
Qed.

(** *** The two critical sections, and two callers at once *)

Lemma Init_first_check_hit tbb_name s st :
  task_arenas_ s !! tbb_name = Some st → initialized st = true →
  Init_first_check tbb_name s
  = (Ok (Some (arena st)), s, lock_unlock arenas_mutex_).
Proof.
  intros Hl Hi. unfold Init_first_check, lock_guard.
  by rewrite (find_initialized_hit _ _ _ Hl Hi).
Qed.

Lemma Init_first_check_miss tbb_name s :
  needs_init tbb_name s →
  Init_first_check tbb_name s = (Ok None, s, lock_unlock arenas_mutex_).
Proof.
  intros Hn. unfold Init_first_check, lock_guard.
  by rewrite (find_initialized_miss _ _ Hn).
Qed.

Lemma Init_locked_cases tbb_name d s :
  (∃ st, task_arenas_ s !! tbb_name = Some st ∧ initialized st = true ∧
         Init_locked tbb_name d s
         = (Ok (arena st), s, lock_unlock arenas_mutex_)) ∨
  (needs_init tbb_name s ∧
   ∃ count defines,
     Init_locked tbb_name d s =
       (Ok (Some (length (arena_objects s))),
        constructed tbb_name count (set_defines (Some defines) s),
        lock_unlock arenas_mutex_)) ∨
  (needs_init tbb_name s ∧
   ∃ e, Init_locked tbb_name d s = (Throw e, s, lock_unlock arenas_mutex_)).
Proof.
  destruct (needs_init_dec tbb_name s) as [(st & Hl & Hi)|Hn].
  - left. exists st. split_and!; [done..|].
    unfold Init_locked. run_monad.
    by rewrite (find_initialized_hit _ _ _ Hl Hi).
  - right. pose proof (Init_first_check_miss _ _ Hn) as Hfirst.
    destruct (Init_cases tbb_name d s)
      as [(st & Hl & Hi & _)|[(_ & defines & _ & Heq)|(_ & e & Heq)]].
    + by rewrite (Hn st Hl) in Hi.
    + left. split; [done|]. exists (default d (defines !! tbb_name)), defines.
      unfold Init in Heq. run_monad. rewrite Hfirst in Heq. simpl in Heq.
      destruct (Init_locked tbb_name d s) as [[r s'] t].
      by injection Heq as -> -> ->.
    + right. split; [done|]. exists e.
      unfold Init in Heq. run_monad. rewrite Hfirst in Heq. simpl in Heq.
      destruct (Init_locked tbb_name d s) as [[r s'] t].
      by injection Heq as -> -> ->.
Qed.

Lemma constructed_initialized tbb_name count s :
  ¬ needs_init tbb_name (constructed tbb_name count s).
Proof.
  intros Hn. specialize (Hn _ (constructed_lookup tbb_name count s)). done.
Qed.

(** A critical section keeps what returned callers know, and either leaves
    the process as it is or constructs the arena the name still lacked. *)
Lemma caller_step_spec tbb_name d c s :
  settled tbb_name c s →
  settled tbb_name (caller_step tbb_name d c s).1
                   (caller_step tbb_name d c s).2 ∧
  ((caller_step tbb_name d c s).2 = s ∨
   (needs_init tbb_name s ∧
    ∃ count defines,
      (caller_step tbb_name d c s).2
      = constructed tbb_name count (set_defines (Some defines) s))).
Proof.
  intros Hc. destruct c as [| |h|e|]; simpl; try (split; [done|by left]).
  - destruct (needs_init_dec tbb_name s) as [(st & Hl & Hi)|Hn].
    + rewrite (Init_first_check_hit _ _ _ Hl Hi). simpl.
      split; [by exists st|by left].
    + rewrite (Init_first_check_miss _ _ Hn). simpl. split; [done|by left].
  - destruct (Init_locked_cases tbb_name d s)
      as [(st & Hl & Hi & ->)|[(Hn & count & defines & ->)|(Hn & e & ->)]];
      simpl.
    + split; [by exists st|by left].
    + split; [|right; split; [done|by exists count, defines]].
      exists {| arena := Some (length (arena_objects s));
                initialized := true |}.
      split; [apply lookup_insert_eq|done].
    + split; [done|by left].
Qed.

Lemma settled_kept tbb_name c s s' :
  settled tbb_name c s →
  (s' = s ∨
   (needs_init tbb_name s ∧
    ∃ count defines,
      s' = constructed tbb_name count (set_defines (Some defines) s))) →
  settled tbb_name c s'.
Proof.
  intros Hc [->|(Hn & _)]; [done|].
  destruct c; try done. destruct Hc as (st & Hl & Hi & _).
  by rewrite (Hn st Hl) in Hi.
Qed.

Lemma interleave_settled tbb_name d1 d2 turns c1 c2 s h1 h2 s' :
  settled tbb_name c1 s → settled tbb_name c2 s →
  interleave tbb_name d1 d2 turns c1 c2 s = (Returned h1, Returned h2, s') →
  h1 = h2 ∧ settled tbb_name (Returned h1) s' ∧
  (s' = s ∨
   (needs_init tbb_name s ∧
    length (arena_objects s') = S (length (arena_objects s)))).
Proof.
  revert c1 c2 s. induction turns as [|turn turns IH]; intros c1 c2 s H1 H2.
  - simpl. intros [= -> -> ->]. split_and!; [|done|by left].
    destruct H1 as (st1 & Hl1 & _ & <-), H2 as (st2 & Hl2 & _ & <-).
    congruence.
  - assert (Hgo : ∀ c1' c2' s1,
        settled tbb_name c1' s1 → settled tbb_name c2' s1 →
        (s1 = s ∨
         (needs_init tbb_name s ∧
          ∃ count defines,
            s1 = constructed tbb_name count (set_defines (Some defines) s))) →
        interleave tbb_name d1 d2 turns c1' c2' s1
        = (Returned h1, Returned h2, s') →
        h1 = h2 ∧ settled tbb_name (Returned h1) s' ∧
        (s' = s ∨
         (needs_init tbb_name s ∧
          length (arena_objects s') = S (length (arena_objects s))))).
    { intros c1' c2' s1 H1' H2' Hs1 Hrun.
      destruct (IH _ _ _ H1' H2' Hrun) as (Heq & Hset & Hs').
      split_and!; [done..|].
      destruct Hs1 as [->|(Hn & count & defines & ->)]; [done|].
      right. split; [done|].
      destruct Hs' as [->|[Hn' _]];
        [|by apply constructed_initialized in Hn'].
      unfold constructed. simpl. rewrite length_app. simpl. lia. }
    destruct turn; simpl.
    + destruct (caller_step_spec tbb_name d1 c1 s H1) as [Hc Hs].
      destruct (caller_step tbb_name d1 c1 s) as [c1' s1]. simpl in *.
      apply Hgo; [done| |done]. by eapply settled_kept.
    + destruct (caller_step_spec tbb_name d2 c2 s H2) as [Hc Hs].
      destruct (caller_step tbb_name d2 c2 s) as [c2' s1]. simpl in *.
      apply Hgo; [|done..]. by eapply settled_kept.
Qed.

(** Two callers of [Init] for one name whose critical sections interleave
    in any order end with the same handle, and between them construct the
    arena once when the name had no initialized entry and not at all
    otherwise. *)
Lemma interleave_one_arena tbb_name d1 d2 turns s h1 h2 s' :
  interleave tbb_name d1 d2 turns Entering Entering s
  = (Returned h1, Returned h2, s') →
  h1 = h2 ∧
  (needs_init tbb_name s →
   length (arena_objects s') = S (length (arena_objects s))) ∧
  (¬ needs_init tbb_name s → s' = s).
Proof.
  intros Hrun.
  destruct (interleave_settled tbb_name d1 d2 turns Entering Entering
              s h1 h2 s' I I Hrun)
    as (Heq & (st & Hl & Hi & _) & Hs).
  split_and!; [done| |].
  - intros Hn. destruct Hs as [->|[_ Hlen]]; [|done].
    by rewrite (Hn st Hl) in Hi.
  - intros Hn. by destruct Hs as [->|[Hn' _]].
Qed.

(** A caller alone goes through its two critical sections: that is [Init]. *)
Lemma Init_two_steps tbb_name d s :
  let '(c1, s1) := caller_step tbb_name d Entering s in
  let '(c2, s2) := caller_step tbb_name d c1 s1 in
  (Init tbb_name d s).1 =
    (match c2 with
     | Returned h => Ok h
     | Thrown e => Throw e
     | _ => Undefined
     end, s2).
Proof.
  simpl. unfold Init. run_monad.
  destruct (needs_init_dec tbb_name s) as [(st & Hl & Hi)|Hn].
  - by rewrite (Init_first_check_hit _ _ _ Hl Hi).
  - rewrite (Init_first_check_miss _ _ Hn). simpl.
    destruct (Init_locked_cases tbb_name d s)
      as [(st & Hl & Hi & ->)|[(_ & count & defines & ->)|(_ & e & ->)]];
      done.
Qed.

(** C3: after a call of [Init] for a name has returned a handle, every
    later call for that name returns the same handle and leaves the
    process, and with it the arena objects, as it is: it only looks the
    entry up.  The first call constructs one arena when the name has no
    initialized entry, and none otherwise.  The same holds for two callers
    whose critical sections interleave: they end with one handle and one
    construction. *)
Theorem Init_idempotent tbb_name d s h s1 t (ds : list Z) :
  Init tbb_name d s = (Ok h, s1, t) →
  (∀ d', Init tbb_name d' s1 = (Ok h, s1, lock_unlock arenas_mutex_)) ∧
  (each (Init tbb_name) ds s1).1 = (Ok (replicate (length ds) h), s1) ∧
  (needs_init tbb_name s →
   length (arena_objects s1) = S (length (arena_objects s)) ∧
   h = Some (length (arena_objects s))) ∧
  (¬ needs_init tbb_name s → s1 = s) ∧
  (∀ d1 d2 turns h1 h2 s',
     interleave tbb_name d1 d2 turns Entering Entering s
     = (Returned h1, Returned h2, s') →
     h1 = h2 ∧
     (needs_init tbb_name s →
      length (arena_objects s') = S (length (arena_objects s))) ∧
     (¬ needs_init tbb_name s → s' = s)).
Proof.
  intros HInit.
  assert (Hagain : ∀ d', Init tbb_name d' s1
                         = (Ok h, s1, lock_unlock arenas_mutex_))
    by (intros d'; by eapply Init_again).
  split_and!; [done|by apply each_Init_again| | |].
  - intros Hn.
    destruct (Init_cases tbb_name d s)
      as [(st & Hl & Hi & Heq)|[(_ & defines & _ & Heq)|(_ & e & Heq)]];
      rewrite Heq in HInit; [| |done].
    + rewrite (Hn st Hl) in Hi. done.
    + injection HInit as <- <- <-. split; [|done].
      unfold constructed. simpl. rewrite length_app. simpl. lia.
  - intros Hn.
    destruct (Init_cases tbb_name d s)
      as [(st & Hl & Hi & Heq)|[(? & _)|(? & _)]]; [|done..].
    rewrite Heq in HInit. by injection HInit as <- <- <-.
  - intros d1 d2 turns h1 h2 s'. apply interleave_one_arena.
Qed.

Lemma Init_idempotent_witness :
  let s1 := (Init "x" 4 (fresh_process "x:2")).1.2 in
  (each (Init "x") [4; 9; 1] s1).1 = (Ok (replicate 3 (Some 0%nat)), s1) ∧
  length (arena_objects s1) = 1%nat ∧
  interleave "x" 4 9 [true; false; false; true] Entering Entering
    (fresh_process "x:2")
  = (Returned (Some 0%nat), Returned (Some 0%nat), s1).
Proof.
  intros s1.
  destruct (Init_idempotent "x" 4 (fresh_process "x:2") (Some 0%nat) s1
              (Init "x" 4 (fresh_process "x:2")).2 [4; 9; 1])
    as (_ & Heach & Hnew & _).
  - vm_compute. reflexivity.
  - split_and!; [exact Heach| |vm_compute; reflexivity].
    apply Hnew. by intros st Hst.
Defined.

(** C6: when [Init] has to construct the arena of a name, the arena gets
    the count the cached configuration mapping holds for the name, or the
    engine's default concurrency when the mapping has none; the entry is
    stored in the registry under the name, marked initialized, and points
    to the new arena. *)
Theorem Init_constructs_with_resolved_concurrency tbb_name d s defines :
  needs_init tbb_name s →
  (GetTBBParallelCountDefines s).1.1 = Ok defines →
  ∃ a s' t,
    Init tbb_name d s = (Ok (Some a), s', t) ∧
    a = length (arena_objects s) ∧
    arena_objects s' =
      arena_objects s ++
      [{| max_concurrency := match defines !! tbb_name with
                             | Some count => count
                             | None => d
                             end |}] ∧
    arena_objects s' !! a =
      Some {| max_concurrency := match defines !! tbb_name with
                                 | Some count => count
                                 | None => d
                                 end |} ∧
    tbb_parallel_count_defines s' = Some defines ∧
    task_arenas_ s' !! tbb_name
      = Some {| arena := Some a; initialized := true |} ∧
    (∀ other, other ≠ tbb_name →
       task_arenas_ s' !! other = task_arenas_ s !! other).
Proof.
  intros Hn Hdef.
  destruct (Init_cases tbb_name d s)
    as [(st & Hl & Hi & _)|[(_ & defines' & Hdef' & Heq)|(_ & e & Heq)]].
  - rewrite (Hn st Hl) in Hi. done.
  - rewrite Hdef in Hdef'. injection Hdef' as <-.
    do 3 eexists. split; [exact Heq|].
    assert (Hc : default d (defines !! tbb_name)
                 = match defines !! tbb_name with
                   | Some count => count
                   | None => d
                   end) by (by destruct (defines !! tbb_name)).
    rewrite <- Hc. unfold constructed. simpl. split_and!; try done.
    + by rewrite lookup_app_r, Nat.sub_diag.
    + apply lookup_insert_eq.
    + intros other Hne. by rewrite lookup_insert_ne.
  - exfalso. destruct (GetTBBParallelCountDefines_frame s)
      as (r & dc & Hg & _ & _ & _ & _).
    unfold Init, Init_first_check, Init_locked in Heq.
    pose proof (find_initialized_miss _ _ Hn) as Hf.
    run_monad. rewrite Hf in Heq; simpl in Heq. rewrite Hf in Heq.
    simpl in Heq. rewrite Hg in *. simpl in *. subst r. done.
Qed.

Lemma Init_constructs_with_resolved_concurrency_witness :
  ∃ s' sb,
    (Init "a" 8 (fresh_process "a:2,b:4")).1 = (Ok (Some 0%nat), s') ∧
    arena_objects s' = [{| max_concurrency := 2 |}] ∧
    (Init "c" 8 s').1 = (Ok (Some 1%nat), sb) ∧
    arena_objects sb = [{| max_concurrency := 2 |}; {| max_concurrency := 8 |}].
Proof.
  destruct (Init_constructs_with_resolved_concurrency "a" 8
              (fresh_process "a:2,b:4") (<["a" := 2]> (<["b" := 4]> ∅)))
    as (a & s' & t & Heq & -> & Hobjs & _ & Hcache & _ & Hother).
  { by intros st Hst. }
  { vm_compute. reflexivity. }
  destruct (Init_constructs_with_resolved_concurrency "c" 8 s'
              (<["a" := 2]> (<["b" := 4]> ∅)))
    as (c & sb & tb & Heqb & -> & Hobjsb & _).
  { intros st Hst. by rewrite Hother in Hst. }
  { by rewrite (GetTBBParallelCountDefines_cached _ _ Hcache). }
  exists s', sb. rewrite Heq, Heqb, Hobjsb, Hobjs. done.
Defined.

(** ** Task ids *)

Lemma land_mask32 z : Z.land z 0xFFFFFFFF = z mod 2 ^ 32.
Proof. change 0xFFFFFFFF with (Z.ones 32). by rewrite Z.land_ones. Qed.

Lemma high_low_disjoint a c : Z.land (a * 2 ^ 32) (c mod 2 ^ 32) = 0.
Proof.
  apply Z.bits_inj'. intros n Hn. rewrite Z.land_spec, Z.bits_0.
  destruct (Z.lt_ge_cases n 32).
  - by rewrite Z.mul_pow2_bits_low by lia.
  - rewrite (Z.mod_pow2_bits_high c) by lia. apply andb_false_r.
Qed.

(** The id is the truncated clock reading in the high half and the
    truncated counter in the low half. *)
Lemma task_id_at_arith now c :
  task_id_at now c = (now mod 2 ^ 32) * 2 ^ 32 + c mod 2 ^ 32.
Proof.
  unfold task_id_at, wrap64. rewrite !land_mask32.
  rewrite Z.shiftl_mul_pow2 by lia.
  pose proof (Z.mod_pos_bound now (2 ^ 32) ltac:(lia)).
  rewrite (Z.mod_small (_ * _)) by lia.
  rewrite <- Z.lxor_lor, <- Z.add_nocarry_lxor; auto using high_low_disjoint.
Qed.

Lemma task_id_at_halves now c :
  Z.shiftr (task_id_at now c) 32 = now mod 2 ^ 32 ∧
  Z.land (task_id_at now c) 0xFFFFFFFF = c mod 2 ^ 32 ∧
  0 ≤ task_id_at now c < 2 ^ 64.
Proof.
  rewrite land_mask32, Z.shiftr_div_pow2, task_id_at_arith by lia.
  pose proof (Z.mod_pos_bound now (2 ^ 32) ltac:(lia)).
  pose proof (Z.mod_pos_bound c (2 ^ 32) ltac:(lia)).
  split_and!.
  - rewrite Z.add_comm, Z.div_add by lia. rewrite Z.div_small; lia.
  - rewrite Z.add_comm, Z.mod_add by lia. by rewrite Z.mod_mod.
  - lia.
  - lia.
Qed.

Lemma task_id_at_inj now1 c1 now2 c2 :
  task_id_at now1 c1 = task_id_at now2 c2 ↔
  now1 mod 2 ^ 32 = now2 mod 2 ^ 32 ∧ c1 mod 2 ^ 32 = c2 mod 2 ^ 32.
Proof.
  split.
  - intros Heq.
    destruct (task_id_at_halves now1 c1) as (Hh1 & Hl1 & _).
    destruct (task_id_at_halves now2 c2) as (Hh2 & Hl2 & _).
    rewrite Heq in Hh1, Hl1. split; congruence.
  - intros [Hn Hc]. by rewrite !task_id_at_arith, Hn, Hc.
Qed.

Lemma task_id_at_wrap now c : task_id_at now (wrap32 c) = task_id_at now c.
Proof. apply task_id_at_inj. unfold wrap32. by rewrite Z.mod_mod. Qed.

(** The ids of a run of calls, the [i]-th made at clock reading
    [nows !! i]: the counter has then advanced [i] times. *)
Lemma each_GenerateUniqueTaskId nows s :
  ∃ s', each GenerateUniqueTaskId nows s =
          (Ok (imap (λ i now, task_id_at now (global_counter s + Z.of_nat i))
                    nows), s', []).
Proof.
  revert s. induction nows as [|now nows IH]; intros s; [by eexists|].
  simpl. unfold mbind, M_bind, bind. rewrite GenerateUniqueTaskId_spec.
  destruct (IH (set_global_counter (wrap32 (global_counter s + 1)) s))
    as [s' ->]. simpl. exists s'. rewrite Z.add_0_r.
  do 4 f_equal. apply imap_ext. intros i now' _. simpl.
  apply task_id_at_inj. split; [done|]. unfold wrap32.
  rewrite Zplus_mod_idemp_l. f_equal. lia.
Qed.

(** C7: every id is the 32-bit truncated clock reading, shifted into the
    high 32 bits, combined with the 32-bit counter in the low 32 bits.  In
    a run of calls, two ids differ whenever fewer than 2^32 calls lie
    between them (the counter has not come round) or their truncated clock
    readings differ; and any two calls whose 32-bit counter values differ
    return different ids. *)
Theorem GenerateUniqueTaskId_unique (nows : list Z) s :
  ∃ ids s',
    each GenerateUniqueTaskId nows s = (Ok ids, s', []) ∧
    length ids = length nows ∧
    (∀ i now id, nows !! i = Some now → ids !! i = Some id →
       id = (now mod 2 ^ 32) * 2 ^ 32
            + (global_counter s + Z.of_nat i) mod 2 ^ 32 ∧
       Z.shiftr id 32 = now mod 2 ^ 32 ∧
       Z.land id 0xFFFFFFFF = (global_counter s + Z.of_nat i) mod 2 ^ 32 ∧
       0 ≤ id < 2 ^ 64) ∧
    (∀ i j now_i now_j id_i id_j,
       (i < j)%nat →
       nows !! i = Some now_i → nows !! j = Some now_j →
       ids !! i = Some id_i → ids !! j = Some id_j →
       Z.of_nat j - Z.of_nat i < 2 ^ 32
       ∨ now_i mod 2 ^ 32 ≠ now_j mod 2 ^ 32 →
       id_i ≠ id_j) ∧
    (∀ now1 now2 s1 s2 id1 id2,
       (GenerateUniqueTaskId now1 s1).1.1 = Ok id1 →
       (GenerateUniqueTaskId now2 s2).1.1 = Ok id2 →
       wrap32 (global_counter s1) ≠ wrap32 (global_counter s2) →
       id1 ≠ id2).
Proof.
  destruct (each_GenerateUniqueTaskId nows s) as [s' Heach].
  do 2 eexists. split; [exact Heach|].
  assert (Hid : ∀ i now id, nows !! i = Some now →
            imap (λ i now, task_id_at now (global_counter s + Z.of_nat i))
              nows !! i = Some id →
            id = task_id_at now (global_counter s + Z.of_nat i)).
  { intros i now id Hnow. rewrite list_lookup_imap, Hnow. simpl. congruence. }
  split_and!.
  - apply length_imap.
  - intros i now id Hnow Hi. rewrite (Hid _ _ _ Hnow Hi).
    destruct (task_id_at_halves now (global_counter s + Z.of_nat i))
      as (? & ? & ?).
    by rewrite <- task_id_at_arith.
  - intros i j now_i now_j id_i id_j Hij Hni Hnj Hi Hj Hor.
    rewrite (Hid _ _ _ Hni Hi), (Hid _ _ _ Hnj Hj).
    intros [Hn Hc]%task_id_at_inj. destruct Hor as [Hclose|Hdiff]; [|done].
    assert (Hdiv : ((global_counter s + Z.of_nat j)
                    - (global_counter s + Z.of_nat i)) mod 2 ^ 32 = 0).
    { rewrite Zminus_mod, Hc, Z.sub_diag. done. }
    apply Z.mod_divide in Hdiv; [|lia]. destruct Hdiv as [q Hq]. nia.
  - intros now1 now2 s1 s2 id1 id2.
    rewrite !GenerateUniqueTaskId_spec. simpl. intros [= <-] [= <-] Hne.
    intros [_ Hc]%task_id_at_inj. by apply Hne.
Qed.

Lemma GenerateUniqueTaskId_unique_witness :
  ∃ id0 id1 id2 s',
    each GenerateUniqueTaskId [5; 5; 2 ^ 32 + 5] (fresh_process "")
    = (Ok [id0; id1; id2], s', []) ∧
    id0 ≠ id1 ∧ id1 ≠ id2 ∧ id0 ≠ id2.
Proof.
  destruct (GenerateUniqueTaskId_unique [5; 5; 2 ^ 32 + 5] (fresh_process ""))
    as (ids & s' & Heach & Hlen & _ & Hdiff & _).
  destruct ids as [|id0 [|id1 [|id2 [|? ?]]]]; try done.
  exists id0, id1, id2, s'. split; [done|]. split_and!.
  - apply (Hdiff 0%nat 1%nat 5 5); [lia|done..|left; lia].
  - apply (Hdiff 1%nat 2%nat 5 (2 ^ 32 + 5)); [lia|done..|left; lia].
  - apply (Hdiff 0%nat 2%nat 5 (2 ^ 32 + 5)); [lia|done..|left; lia].
Defined.

(** ** The state invariant *)

Lemma wf_fresh flag : wf (fresh_process flag).
Proof.
  split; [|done]. intros name st Hst. simpl in Hst.
  by rewrite lookup_empty in Hst.
Qed.

Lemma wf_set_thread_contexts f s : wf s → wf (set_thread_contexts f s).
Proof. by destruct s. Qed.

Lemma wf_set_global_counter c s : wf s → wf (set_global_counter c s).
Proof. by destruct s. Qed.

Lemma wf_constructed tbb_name count defines s :
  wf s → wf (constructed tbb_name count (set_defines (Some defines) s)).
Proof.
  intros [Hentries _]. split; [|by eexists]. simpl.
  intros name st [[<- <-]|[Hne Hst]]%lookup_insert_Some.
  - split; [done|]. eexists. split; [done|]. rewrite length_app. simpl. lia.
  - destruct (Hentries name st Hst) as (Hi & a & Ha & Hlt).
    split; [done|]. exists a. split; [done|]. rewrite length_app. lia.
Qed.

Lemma wf_Init tbb_name d s : wf s → wf (Init tbb_name d s).1.2.
Proof.
  intros Hwf. destruct (Init_cases tbb_name d s)
    as [(st & _ & _ & ->)|[(_ & defines & _ & ->)|(_ & e & ->)]]; try done.
  by apply wf_constructed.
Qed.

Lemma wf_Release s : wf s → wf (Release s).1.2.
Proof.
  intros [_ Hcache]. rewrite Release_spec. split; [|by destruct s].
  simpl. intros name st Hst. by rewrite lookup_empty in Hst.
Qed.

(** What a dispatch does to the process: an id, an [Init], and batches
    appended to one queue. *)
Lemma dispatch_frame tbb_name d now task mk body sched s :
  (∀ id r s, body id r s =
     (sub_range_result task r,
      set_thread_contexts
        (append_queue (make_unique_task_name tbb_name id)
           (sub_range_flushed task (mk id) r)) s,
      sub_range_log task r)) →
  let run := (task_id ← GenerateUniqueTaskId now;
              arena ← Init tbb_name d;
              execute arena (parallel_for sched (body task_id))) s in
  let init := Init tbb_name d
                (set_global_counter (wrap32 (global_counter s + 1)) s) in
  let task_id := task_id_at now (global_counter s) in
  ∃ recs log,
    run.1.2 = set_thread_contexts
                (append_queue (make_unique_task_name tbb_name task_id) recs)
                init.1.2 ∧
    run.2 = init.2 ++ log ∧
    (recs = [] ∨ recs = flushed task (mk task_id) sched) ∧
    (log = [] ∨ log = dispatch_log task sched).
Proof.
  intros Hbody run init task_id. subst run.
  rewrite (dispatch_unfold tbb_name d now (λ id, parallel_for sched (body id))).
  simpl. fold init.
  destruct init as [[[[a|]|e|] s2] t2]; simpl.
  - rewrite (parallel_for_spec task (mk task_id)
               (make_unique_task_name tbb_name task_id)) by apply Hbody.
    do 2 eexists. split_and!; [done..|by right|by right].
  - exists [], []. rewrite set_thread_contexts_id. auto.
  - exists [], []. rewrite set_thread_contexts_id, app_nil_r. auto.
  - exists [], []. rewrite set_thread_contexts_id, app_nil_r. auto.
Qed.

Lemma ParallelFor_frame tbb_name b e task now d sched s :
  let run := ParallelFor tbb_name b e task now d sched s in
  let init := Init tbb_name d
                (set_global_counter (wrap32 (global_counter s + 1)) s) in
  let task_id := task_id_at now (global_counter s) in
  ∃ recs log,
    run.1.2 = set_thread_contexts
                (append_queue (make_unique_task_name tbb_name task_id) recs)
                init.1.2 ∧
    run.2 = init.2 ++ log ∧
    (recs = [] ∨ recs = flushed task (context_of_index tbb_name task_id) sched) ∧
    (log = [] ∨ log = dispatch_log task sched).
Proof.
  apply (dispatch_frame tbb_name d now task (context_of_index tbb_name)
           (λ id, sub_range_body task tbb_name id
                    (make_unique_task_name tbb_name id))).
  intros. apply sub_range_body_spec.
Qed.

Lemma ParallelFor_blocked_range_frame tbb_name range task now d sched s :
  let run := ParallelFor_blocked_range tbb_name range task now d sched s in
  let init := Init tbb_name d
                (set_global_counter (wrap32 (global_counter s + 1)) s) in
  let task_id := task_id_at now (global_counter s) in
  ∃ recs log,
    run.1.2 = set_thread_contexts
                (append_queue (make_unique_task_name tbb_name task_id) recs)
                init.1.2 ∧
    run.2 = init.2 ++ log ∧
    (recs = [] ∨
     recs = flushed task (context_of_position tbb_name task_id) sched) ∧
    (log = [] ∨ log = dispatch_log task sched).
Proof.
  apply (dispatch_frame tbb_name d now task (context_of_position tbb_name)
           (λ id, sub_range_body_br task tbb_name id
                    (make_unique_task_name tbb_name id))).
  intros. apply sub_range_body_br_spec.
Qed.

Lemma wf_run_op o s : wf s → wf (run_op o s).
Proof.
  intros Hwf. destruct o as [n d|n b e task now d sched|n r task now d sched|];
    simpl.
  - by apply wf_Init.
  - destruct (ParallelFor_frame n b e task now d sched s)
      as (recs & log & -> & _).
    by apply wf_set_thread_contexts, wf_Init, wf_set_global_counter.
  - destruct (ParallelFor_blocked_range_frame n r task now d sched s)
      as (recs & log & -> & _).
    by apply wf_set_thread_contexts, wf_Init, wf_set_global_counter.
  - by apply wf_Release.
Qed.

(** Every state a process reaches satisfies the invariant. *)
Lemma wf_reachable flag s : reachable flag s → wf s.
Proof. induction 1; [apply wf_fresh|by apply wf_run_op]. Qed.

(** ** Teardown *)

(** C8: [Release] takes the arena lock, then the context lock, and leaves
    both maps empty; a later [Init] for a name that had an entry constructs
    a new arena, one that none of the old entries referred to. *)
Theorem Release_clears_both_maps s :
  ∃ s1,
    Release s = (Ok tt, s1,
                 [EvLock arenas_mutex_; EvLock contexts_mutex_;
                  EvUnlock contexts_mutex_; EvUnlock arenas_mutex_]) ∧
    task_arenas_ s1 = ∅ ∧
    thread_contexts_ s1 = ∅ ∧
    (∀ tbb_name st d,
       wf s → task_arenas_ s !! tbb_name = Some st →
       ∃ a s2 t2,
         Init tbb_name d s1 = (Ok (Some a), s2, t2) ∧
         a = length (arena_objects s) ∧
         length (arena_objects s2) = S (length (arena_objects s)) ∧
         task_arenas_ s2 !! tbb_name
           = Some {| arena := Some a; initialized := true |} ∧
         (∀ name' st', task_arenas_ s !! name' = Some st' →
                       arena st' ≠ Some a)).
Proof.
  eexists. split; [apply Release_spec|]. split_and!; [done..|].
  intros tbb_name st d [Hentries Hcache] Hst.
  destruct (Hentries _ _ Hst) as (_ & a0 & _ & Ha0).
  destruct Hcache as [defines Hdefines];
    [by destruct (arena_objects s); [simpl in Ha0; lia|]|].
  set (s1 := set_thread_contexts (λ _, ∅) (set_task_arenas (λ _, ∅) s)).
  assert (Hn : needs_init tbb_name s1)
    by (intros st' Hst'; simpl in Hst'; by rewrite lookup_empty in Hst').
  assert (Hg : GetTBBParallelCountDefines s1
               = (Ok defines, set_defines (Some defines) s1, [])).
  { rewrite (GetTBBParallelCountDefines_cached s1 defines) by done.
    do 2 f_equal. destruct s; simpl in *. by subst. }
  do 3 eexists. split; [by apply (Init_construct _ d _ _ _ Hn Hg)|].
  split_and!.
  - done.
  - simpl. rewrite length_app. simpl. lia.
  - apply lookup_insert_eq.
  - intros name' st' Hst'.
    destruct (Hentries _ _ Hst') as (_ & a' & -> & Ha'). simpl.
    intros [= ->]. lia.
Qed.

Lemma Release_clears_both_maps_witness :
  let s := (Init "x" 4 (fresh_process "x:2")).1.2 in
  ∃ s1 s2 t2,
    (Release s).1 = (Ok tt, s1) ∧
    Init "x" 4 s = (Ok (Some 0%nat), s, lock_unlock arenas_mutex_) ∧
    Init "x" 4 s1 = (Ok (Some 1%nat), s2, t2).
Proof.
  intros s.
  destruct (Release_clears_both_maps s) as (s1 & Hrel & _ & _ & Hnew).
  destruct (Hnew "x" {| arena := Some 0%nat; initialized := true |} 4)
    as (a & s2 & t2 & HInit & -> & _).
  - apply wf_Init, wf_fresh.
  - vm_compute. reflexivity.
  - exists s1, s2, t2. rewrite Hrel. split_and!; [done| |exact HInit].
    vm_compute. reflexivity.
Defined.

(** ** Lock acquisitions of a dispatch *)

Lemma lock_count_app m t1 t2 :
  lock_count m (t1 ++ t2) = (lock_count m t1 + lock_count m t2)%nat.
Proof. unfold lock_count. by rewrite filter_app, length_app. Qed.

Lemma lock_count_calls m els : lock_count m (EvCall <$> els) = 0%nat.
Proof.
  unfold lock_count. induction els as [|i els IH]; [done|].
  csimpl. by rewrite filter_cons_False.
Qed.

Lemma calls_app t1 t2 : calls (t1 ++ t2) = calls t1 ++ calls t2.
Proof. unfold calls. apply omap_app. Qed.

Lemma calls_calls els : calls (EvCall <$> els) = els.
Proof.
  unfold calls. induction els as [|i els IH]; [done|]. csimpl. by rewrite IH.
Qed.

Lemma sub_range_events_count sched :
  lock_count contexts_mutex_ (concat (sub_range_events <$> sched))
  = length sched ∧
  calls (concat (sub_range_events <$> sched))
  = concat (range_elements <$> sched).
Proof.
  induction sched as [|sr sched [IH1 IH2]]; [done|]. csimpl.
  unfold sub_range_events at 1 3.
  rewrite !lock_count_app, !calls_app, lock_count_calls, calls_calls, IH1, IH2.
  split; [done|]. by rewrite app_nil_r.
Qed.

Lemma sub_range_log_completes task sr :
  completes task sr → my_begin sr < my_end sr →
  sub_range_log task sr = sub_range_events sr.
Proof.
  unfold completes, sub_range_log, sub_range_events. intros -> Hne.
  f_equal. unfold range_elements. by rewrite seqZ_cons by lia.
Qed.

Lemma sub_range_log_throws task sr :
  ¬ completes task sr →
  lock_count contexts_mutex_ (sub_range_log task sr) = 0%nat.
Proof.
  unfold completes, sub_range_log. intros Hthrow.
  destruct (first_exception task (range_elements sr)); [|done].
  apply lock_count_calls.
Qed.

Lemma dispatch_log_locks task sched :
  Forall (λ sr, my_begin sr < my_end sr) sched →
  lock_count contexts_mutex_ (dispatch_log task sched)
  = length (filter (completes task) sched).
Proof.
  unfold dispatch_log. induction 1 as [|sr sched Hne _ IH]; [done|].
  csimpl. rewrite lock_count_app, IH.
  destruct (decide (completes task sr)) as [Hc|Hc].
  - rewrite filter_cons_True by done.
    rewrite (sub_range_log_completes _ _ Hc Hne). unfold sub_range_events.
    by rewrite lock_count_app, lock_count_calls.
  - rewrite filter_cons_False by done. by rewrite sub_range_log_throws.
Qed.

(** C9 (as amended): in a dispatch, a sub-range on whose elements the body
    returns logs the body calls for its elements and then takes the
    context-queue lock exactly once; a sub-range in which the body throws
    takes it not at all, and no other step of the dispatch takes it.  So
    the lock is taken once per sub-range that ran to its end, never per
    element; when the body throws nowhere that is once per sub-range
    handed out. *)
Theorem ParallelFor_locks_once_per_sub_range
    tbb_name start end_ task now d sched s a s2 t2 :
  Init tbb_name d (GenerateUniqueTaskId now s).1.2 = (Ok (Some a), s2, t2) →
  engine_schedule task {| my_begin := start; my_end := end_ |} sched →
  ∃ r s' t,
    ParallelFor tbb_name start end_ task now d sched s = (r, s', t) ∧
    t = t2 ++ concat (sub_range_log task <$> sched) ∧
    lock_count contexts_mutex_ t2 = 0%nat ∧
    (∀ sr, sr ∈ sched → completes task sr →
           sub_range_log task sr = sub_range_events sr) ∧
    (∀ sr, sr ∈ sched → ¬ completes task sr →
           lock_count contexts_mutex_ (sub_range_log task sr) = 0%nat) ∧
    lock_count contexts_mutex_ t = length (filter (completes task) sched) ∧
    ((∀ i, start ≤ i < end_ → task i = None) →
     r = Ok tt ∧ lock_count contexts_mutex_ t = length sched).
Proof.
  intros HInit Hsched.
  rewrite GenerateUniqueTaskId_spec in HInit. simpl in HInit.
  pose proof (engine_schedule_within _ _ _ Hsched) as Hw. simpl in Hw.
  assert (Hne : Forall (λ sr, my_begin sr < my_end sr) sched)
    by (eapply Forall_impl; [exact Hw|]; simpl; intros; lia).
  destruct (Init_no_contexts_lock tbb_name d
              (set_global_counter (wrap32 (global_counter s + 1)) s))
    as [Hlock _].
  rewrite HInit in Hlock. simpl in Hlock.
  assert (Hcount : lock_count contexts_mutex_ (t2 ++ dispatch_log task sched)
                   = length (filter (completes task) sched))
    by (by rewrite lock_count_app, Hlock, dispatch_log_locks).
  do 3 eexists. rewrite (ParallelFor_spec _ _ _ _ _ _ _ _ _ _ _ HInit).
  split_and!; [done..| | |done|].
  - intros sr Hsr Hc. apply sub_range_log_completes; [done|].
    rewrite Forall_forall in Hne. by apply Hne.
  - intros sr _. apply sub_range_log_throws.
  - intros Hquiet.
    destruct (engine_schedule_complete _ _ _ Hsched Hquiet) as [Hnone _].
    split; [by apply dispatch_result_quiet|].
    rewrite Hcount. f_equal. clear -Hnone.
    induction Hnone as [|sr sched Hsr _ IH]; [done|].
    rewrite filter_cons_True by done. by rewrite IH.
Qed.

Lemma ParallelFor_locks_once_per_sub_range_witness :
  ∃ s' t,
    ParallelFor "x" 0 1000 quiet_body 7 4
      [{| my_begin := 500; my_end := 1000 |};
       {| my_begin := 0; my_end := 500 |}] (fresh_process "x:2")
    = (Ok tt, s', t) ∧
    lock_count contexts_mutex_ t = 2%nat.
Proof.
  destruct (ParallelFor_locks_once_per_sub_range "x" 0 1000 quiet_body 7 4
              [{| my_begin := 500; my_end := 1000 |};
               {| my_begin := 0; my_end := 500 |}]
              (fresh_process "x:2") 0%nat
              (Init "x" 4
                 (GenerateUniqueTaskId 7 (fresh_process "x:2")).1.2).1.2
              (Init "x" 4
                 (GenerateUniqueTaskId 7 (fresh_process "x:2")).1.2).2)
    as (r & s' & t & Hrun & _ & _ & _ & _ & _ & Hquiet).
  - vm_compute. reflexivity.
  - apply two_halves_schedule.
  - destruct Hquiet as [-> Hcount]; [reflexivity|].
    exists s', t. split; [exact Hrun|exact Hcount].
Defined.

(** C9, counterexample: a dispatch over 0..1000 handed out as one sub-range
    whose body throws on element 500 never takes the context-queue lock,
    although one sub-range was handed out. *)
Lemma ParallelFor_throwing_sub_range_takes_no_lock :
  let sched := [{| my_begin := 0; my_end := 1000 |}] in
  let run := ParallelFor "x" 0 1000 fails_at_500 7 4 sched
               (fresh_process "x:2") in
  engine_schedule fails_at_500 {| my_begin := 0; my_end := 1000 |} sched ∧
  run.1.1 = Throw (task_exception 1) ∧
  lock_count contexts_mutex_ run.2 = 0%nat ∧
  lock_count contexts_mutex_ run.2 ≠ length sched.
Proof.
  intros sched run. split_and!.
  - exists sched. split_and!; [by apply splits_leaf|done|by left].
  - vm_compute. reflexivity.
  - vm_compute. reflexivity.
  - vm_compute. discriminate.
Qed.

(** ** Empty ranges *)

Lemma empty_sub_range task mk sr :
  my_end sr ≤ my_begin sr →
  sub_range_flushed task mk sr = [] ∧ sub_range_log task sr = [].
Proof.
  intros He. unfold sub_range_flushed, sub_range_log, range_elements.
  by rewrite seqZ_nil by lia.
Qed.

Lemma empty_dispatch task mk sched :
  Forall (λ sr, my_end sr ≤ my_begin sr) sched →
  flushed task mk sched = [] ∧ dispatch_log task sched = [].
Proof.
  unfold flushed, dispatch_log.
  induction 1 as [|sr sched Hsr _ [IH1 IH2]]; [done|]. csimpl.
  destruct (empty_sub_range task mk sr Hsr) as [-> ->]. by rewrite IH1, IH2.
Qed.

(** The scheduler's sub-ranges lie inside the range, and there are none
    when the range is empty. *)
Lemma engine_schedule_inside task start end_ sched :
  engine_schedule task {| my_begin := start; my_end := end_ |} sched →
  Forall (λ sr, start ≤ my_begin sr ∧ my_end sr ≤ end_) sched ∧
  (end_ ≤ start → sched = []).
Proof.
  intros Hw%engine_schedule_within. simpl in Hw. split.
  - eapply Forall_impl; [exact Hw|]. simpl. intros; lia.
  - intros Hempty. destruct Hw as [|sr sched Hsr _]; [done|]. lia.
Qed.

(** C10: a dispatch over an empty range ([end <= start]) never calls the
    body and leaves the map of context queues as it was, in particular
    without an entry for its own task-instance name, whatever sub-ranges
    inside the range the scheduler hands out (TBB hands out none); an
    empty local buffer is not flushed. *)
Theorem ParallelFor_empty_range tbb_name start end_ task now d sched s :
  end_ ≤ start →
  Forall (λ sr, start ≤ my_begin sr ∧ my_end sr ≤ end_) sched →
  let run := ParallelFor tbb_name start end_ task now d sched s in
  thread_contexts_ run.1.2 = thread_contexts_ s ∧
  calls run.2 = [] ∧
  lock_count contexts_mutex_ run.2 = 0%nat.
Proof.
  intros Hempty Hin run.
  assert (Hall : Forall (λ sr, my_end sr ≤ my_begin sr) sched)
    by (eapply Forall_impl; [exact Hin|]; simpl; intros; lia).
  destruct (ParallelFor_frame tbb_name start end_ task now d sched s)
    as (recs & log & Hstate & Hlog & Hrecs & Hlogs).
  destruct (empty_dispatch task
              (context_of_index tbb_name (task_id_at now (global_counter s)))
              sched Hall) as [Hfl Hdl].
  rewrite Hfl in Hrecs. rewrite Hdl in Hlogs.
  assert (recs = []) as -> by (by destruct Hrecs).
  assert (log = []) as -> by (by destruct Hlogs).
  fold run in Hstate, Hlog. rewrite Hstate, Hlog, app_nil_r.
  rewrite set_thread_contexts_id.
  destruct (Init_thread_contexts tbb_name d
              (set_global_counter (wrap32 (global_counter s + 1)) s))
    as [-> _].
  destruct (Init_no_contexts_lock tbb_name d
              (set_global_counter (wrap32 (global_counter s + 1)) s))
    as [-> ->].
  done.
Qed.

Lemma ParallelFor_empty_range_witness :
  let run := ParallelFor "x" 5 3 fails_at_500 7 4
               [{| my_begin := 5; my_end := 3 |}] (fresh_process "x:2") in
  thread_contexts_ run.1.2 = ∅ ∧ calls run.2 = [].
Proof.
  intros run.
  destruct (ParallelFor_empty_range "x" 5 3 fails_at_500 7 4
              [{| my_begin := 5; my_end := 3 |}] (fresh_process "x:2"))
    as (Hctx & Hcalls & _).
  - lia.
  - repeat constructor; simpl; lia.
  - by split.
Defined.

(** * Further properties *)

(** ** Decimal numbers and [std::stoi] *)

Lemma digit_pretty_N_char x :
  (x < 10)%N → Str.digit (pretty_N_char x) = Some (Z.of_N x).
Proof.
  intros Hx.
  assert (x = 0 ∨ x = 1 ∨ x = 2 ∨ x = 3 ∨ x = 4 ∨ x = 5 ∨ x = 6 ∨ x = 7
          ∨ x = 8 ∨ x = 9)%N as Hcases by lia.
  repeat destruct Hcases as [->|Hcases]; try reflexivity. by subst.
Qed.

Lemma read_digits_pretty_N_go x s :
  (0 < x)%N →
  Str.read_digits None (pretty_N_go x s)
  = Str.read_digits (Some (Z.of_N x)) s.
Proof.
  revert s. induction (N.lt_wf_0 x) as [x _ IH]; intros s Hx.
  rewrite pretty_N_go_step by done.
  pose proof (N.mod_lt x 10 ltac:(lia)) as Hmod.
  pose proof (N.div_mod x 10 ltac:(lia)) as Hdiv.
  destruct (decide (x `div` 10 = 0)%N) as [H0|H0].
  - rewrite H0, pretty_N_go_0. simpl.
    rewrite digit_pretty_N_char by done. simpl. f_equal. f_equal. lia.
  - rewrite IH by (try apply N.div_lt; lia). simpl.
    rewrite digit_pretty_N_char by done. simpl. f_equal. f_equal. lia.
Qed.

Lemma pretty_N_go_app x s rest :
  pretty_N_go x s +:+ rest = pretty_N_go x (s +:+ rest).
Proof.
  revert s. induction (N.lt_wf_0 x) as [x _ IH]; intros s.
  destruct (decide (x = 0)%N) as [->|Hx]; [by rewrite !pretty_N_go_0|].
  rewrite (pretty_N_go_step x s), (pretty_N_go_step x (s +:+ rest)) by lia.
  by rewrite IH by (apply N.div_lt; lia).
Qed.

Lemma pretty_N_go_head x s :
  (0 < x)%N →
  ∃ c s', pretty_N_go x s = String c s' ∧ is_Some (Str.digit c).
Proof.
  revert s. induction (N.lt_wf_0 x) as [x _ IH]; intros s Hx.
  rewrite pretty_N_go_step by done.
  destruct (decide (x `div` 10 = 0)%N) as [H0|H0].
  - rewrite H0, pretty_N_go_0. do 2 eexists. split; [done|].
    rewrite digit_pretty_N_char by (apply N.mod_lt; lia). done.
  - apply IH; [apply N.div_lt; lia|by apply N.neq_0_lt_0].
Qed.

Lemma read_digits_stops v rest :
  stops rest → Str.read_digits (Some v) rest = Some v.
Proof. destruct rest as [|c r]; simpl; [done|]. by intros ->. Qed.

Lemma stoi_after_spaces s c s' :
  Str.skip_spaces s = String c s' →
  Str.stoi s =
    if Ascii.eqb c "-" then finish true (Str.read_digits None s')
    else if Ascii.eqb c "+" then finish false (Str.read_digits None s')
    else finish false (Str.read_digits None (String c s')).
Proof.
  intros Hs. unfold Str.stoi. rewrite Hs.
  destruct c as [[] [] [] [] [] [] [] []]; reflexivity.
Qed.

Lemma digit_not_space_or_sign c :
  is_Some (Str.digit c) →
  Str.isspace c = false ∧ Ascii.eqb c "-" = false ∧ Ascii.eqb c "+" = false.
Proof.
  destruct c as [[] [] [] [] [] [] [] []]; vm_compute; intros [? ?];
    done.
Qed.

Lemma skip_spaces_app ws s :
  Str.skip_spaces ws = "" → Str.skip_spaces (ws +:+ s) = Str.skip_spaces s.
Proof.
  induction ws as [|c ws IH]; simpl; [done|].
  destruct (Str.isspace c); [done|]. discriminate.
Qed.

(** The digits of a positive number, followed by text at which reading
    stops, read back as the number. *)
Lemma stoi_digits ws (x : N) rest :
  Str.skip_spaces ws = "" → stops rest → (0 < x)%N →
  Str.stoi (ws +:+ pretty_N_go x "" +:+ rest) = finish false (Some (Z.of_N x)).
Proof.
  intros Hws Hstop Hx. rewrite pretty_N_go_app.
  change ("" +:+ rest) with rest.
  destruct (pretty_N_go_head x rest Hx) as (c & s' & Hhead & Hdigit).
  destruct (digit_not_space_or_sign c Hdigit) as (Hsp & Hminus & Hplus).
  rewrite (stoi_after_spaces _ c s').
  - rewrite Hminus, Hplus, <- Hhead.
    by rewrite read_digits_pretty_N_go, read_digits_stops.
  - rewrite skip_spaces_app by done. rewrite Hhead. simpl.
    by rewrite Hsp.
Qed.

Lemma stoi_minus_digits ws (x : N) rest :
  Str.skip_spaces ws = "" → stops rest → (0 < x)%N →
  Str.stoi (ws +:+ "-" +:+ pretty_N_go x "" +:+ rest)
  = finish true (Some (Z.of_N x)).
Proof.
  intros Hws Hstop Hx. rewrite pretty_N_go_app.
  change ("" +:+ rest) with rest.
  change ("-" +:+ pretty_N_go x rest)
    with (String "-" (pretty_N_go x rest)).
  rewrite (stoi_after_spaces _ "-" (pretty_N_go x rest))
    by (by rewrite skip_spaces_app).
  rewrite Ascii.eqb_refl.
  by rewrite read_digits_pretty_N_go, read_digits_stops.
Qed.

Lemma stoi_pretty ws (z : Z) rest :
  Str.skip_spaces ws = "" → stops rest →
  Str.stoi (ws +:+ pretty z +:+ rest) =
    if bool_decide (Str.INT_MIN ≤ z ≤ Str.INT_MAX) then Ok z
    else Throw out_of_range.
Proof.
  intros Hws Hstop.
  assert (Hfin : ∀ (neg : bool) v, (if neg then - v else v) = z →
            finish neg (Some v)
            = if bool_decide (Str.INT_MIN ≤ z ≤ Str.INT_MAX) then Ok z
              else Throw out_of_range).
  { intros neg v <-. unfold finish. simpl.
    destruct (_ && _) eqn:Hb.
    - rewrite bool_decide_eq_true_2; [done|]. apply andb_prop in Hb. lia.
    - rewrite bool_decide_eq_false_2; [done|].
      apply andb_false_iff in Hb. lia. }
  destruct z as [|p|p].
  - change (pretty 0 +:+ rest) with (String "0" rest).
    rewrite (stoi_after_spaces _ "0" rest)
      by (rewrite skip_spaces_app by done; done).
    change (Str.read_digits None (String "0" rest))
      with (Str.read_digits (Some 0) rest).
    rewrite read_digits_stops by done. by apply (Hfin false).
  - change (pretty (Z.pos p)) with (pretty_N_go (N.pos p) "").
    rewrite stoi_digits by (done || lia). by apply (Hfin false).
  - change (pretty (Z.neg p)) with ("-" +:+ pretty_N_go (N.pos p) "").
    change (("-" +:+ pretty_N_go (N.pos p) "") +:+ rest)
      with ("-" +:+ pretty_N_go (N.pos p) "" +:+ rest).
    rewrite stoi_minus_digits by (done || lia). by apply (Hfin true).
Qed.

(** ** Strings *)

Ltac sapp :=
  repeat match goal with
  | |- context [String ?c ?a +:+ ?b] =>
      change (String c a +:+ b) with (String c (a +:+ b))
  | |- context [EmptyString +:+ ?b] => change (EmptyString +:+ b) with b
  end.

Lemma append_empty_r s : s +:+ "" = s.
Proof. induction s as [|c s IH]; sapp; [done|]. by rewrite IH. Qed.

Lemma append_assoc_string a b c : (a +:+ b) +:+ c = a +:+ b +:+ c.
Proof. induction a as [|x a IH]; sapp; simpl; [done|]. by rewrite IH. Qed.

Lemma find_app_None c a b :
  Str.find c (a +:+ b) = None ↔ Str.find c a = None ∧ Str.find c b = None.
Proof.
  induction a as [|x a IH]; sapp; simpl.
  - split; [done|by intros [_ ?]].
  - destruct (Ascii.eqb x c); [split; [done|by intros [? _]]|].
    by rewrite !fmap_None.
Qed.

Lemma find_first c a rest :
  Str.find c a = None →
  Str.find c (a +:+ String c rest) = Some (String.length a).
Proof.
  induction a as [|x a IH]; sapp; simpl.
  - by rewrite Ascii.eqb_refl.
  - destruct (Ascii.eqb x c); [done|].
    destruct (Str.find c a) eqn:Hf; [done|]. intros _. by rewrite IH.
Qed.

Lemma substr_to_app a b : Str.substr_to (String.length a) (a +:+ b) = a.
Proof. induction a as [|x a IH]; sapp; simpl; [by destruct b|]. by rewrite IH. Qed.

Lemma substr_from_app a c b :
  Str.substr_from (String.length a + 1) (a +:+ String c b) = b.
Proof. induction a as [|x a IH]; sapp; simpl; [done|]. by rewrite IH. Qed.

(** An entry written as [name:field] splits back into the two. *)
Lemma fields_of_entry name field :
  Str.find ":" name = None →
  has_separator (name +:+ ":" +:+ field) ∧
  name_field (name +:+ ":" +:+ field) = Some name ∧
  count_field (name +:+ ":" +:+ field) = Some field.
Proof.
  intros Hname. unfold has_separator, name_field, count_field.
  change (":" +:+ field) with (String ":" field).
  rewrite (find_first _ _ _ Hname). simpl.
  by rewrite substr_to_app, substr_from_app.
Qed.

Lemma read_until_whole d item :
  Str.find d item = None → Str.read_until d item = (item, "").
Proof.
  induction item as [|x item IH]; simpl; [done|].
  destruct (Ascii.eqb x d); [done|].
  destruct (Str.find d item); [done|]. intros _. by rewrite IH.
Qed.

Lemma read_until_first d item rest :
  Str.find d item = None →
  Str.read_until d (item +:+ String d rest) = (item, rest).
Proof.
  induction item as [|x item IH]; sapp; simpl.
  - by rewrite Ascii.eqb_refl.
  - destruct (Ascii.eqb x d); [done|].
    destruct (Str.find d item); [done|]. intros _. by rewrite IH.
Qed.

Lemma read_until_no_delim d s : Str.find d (Str.read_until d s).1 = None.
Proof.
  induction s as [|x s IH]; simpl; [done|].
  destruct (Ascii.eqb x d) eqn:Hx; [done|].
  destruct (Str.read_until d s) as [item rest]. simpl in *.
  by rewrite Hx, IH.
Qed.

(** No entry the loop reads holds a ','. *)
Lemma entries_no_comma ss item :
  item ∈ entries ss → Str.find "," item = None.
Proof.
  funelim (entries ss); [|by intros ?%elem_of_nil].
  intros [->|Hin]%elem_of_cons; [|by apply H].
  destruct ss as [|c s]; [done|].
  pose proof Hget as Hread.
  unfold Str.getline in Hread. apply (inj Some) in Hread.
  pose proof (read_until_no_delim "," (String c s)) as Hno.
  by rewrite Hread in Hno.
Qed.

(** Entries without ',' joined by ',' are read back one by one. *)
Lemma entries_join items :
  Forall (λ item, Str.find "," item = None ∧ item ≠ "") items →
  entries (join_entries items) = items.
Proof.
  induction 1 as [|item items [Hno Hne] Hall IH]; [by rewrite entries_step|].
  destruct items as [|item' items].
  - simpl. rewrite entries_step. destruct item as [|c item]; [done|].
    unfold Str.getline. rewrite (read_until_whole _ _ Hno).
    by rewrite entries_step.
  - change (join_entries (item :: item' :: items))
      with (item +:+ String "," (join_entries (item' :: items))).
    rewrite entries_step.
    assert (Hget : Str.getline
              (item +:+ String "," (join_entries (item' :: items))) ","
            = Some (item, join_entries (item' :: items))).
    { unfold Str.getline. rewrite (read_until_first _ _ _ Hno).
      by destruct item. }
    by rewrite Hget, IH.
Qed.

(** ** What a configuration resolves to *)

Lemma resolve_entries_reads items pairs acc :
  Forall2 reads_as items pairs →
  resolve_entries items acc
  = Ok (foldl (λ m p, <[p.1 := p.2]> m) acc pairs).
Proof.
  intros Hall. revert acc.
  induction Hall as [|item p items pairs (Hn & field & Hc & Hs) _ IH];
    intros acc; [done|].
  simpl. by rewrite Hn, Hc, Hs, IH.
Qed.

Lemma resolve_entries_Ok items acc m :
  resolve_entries items acc = Ok m →
  ∃ pairs, Forall2 reads_as items pairs ∧
           m = foldl (λ m p, <[p.1 := p.2]> m) acc pairs.
Proof.
  revert acc. induction items as [|item items IH]; intros acc; simpl.
  - intros [= <-]. by exists [].
  - destruct (name_field item) as [name|] eqn:Hn; [|done].
    destruct (count_field item) as [field|] eqn:Hc; [|done].
    destruct (Str.stoi field) as [count| |] eqn:Hs; [|done..].
    intros (pairs & Hall & ->)%IH. exists ((name, count) :: pairs).
    split; [|done]. constructor; [|done]. split; [done|]. by exists field.
Qed.

Lemma foldl_insert_list_to_map (pairs : list (string * Z)) :
  foldl (λ m p, <[p.1 := p.2]> m) (∅ : gmap string Z) pairs
  = list_to_map (reverse pairs).
Proof.
  induction pairs as [|p pairs IH] using rev_ind; [done|].
  rewrite foldl_snoc, reverse_snoc, IH. by destruct p.
Qed.

Lemma find_pretty_N_go c x s :
  Str.digit c = None → Str.find c s = None →
  Str.find c (pretty_N_go x s) = None.
Proof.
  intros Hc. revert s. induction (N.lt_wf_0 x) as [x _ IH]; intros s Hs.
  destruct (decide (x = 0)%N) as [->|Hx]; [by rewrite pretty_N_go_0|].
  rewrite pretty_N_go_step by lia. apply IH; [apply N.div_lt; lia|].
  simpl. destruct (Ascii.eqb _ c) eqn:Heq; [|by rewrite Hs].
  apply Ascii.eqb_eq in Heq. subst c.
  rewrite digit_pretty_N_char in Hc by (apply N.mod_lt; lia). done.
Qed.

(** A printed number holds digits and at most a leading '-'. *)
Lemma find_pretty_Z c (z : Z) :
  Str.digit c = None → Ascii.eqb "-" c = false →
  Str.find c (pretty z) = None.
Proof.
  intros Hc Hminus. destruct z as [|p|p].
  - change (Str.find c (pretty 0))
      with (if Ascii.eqb "0" c then Some 0%nat else S <$> Str.find c "").
    destruct (Ascii.eqb "0" c) eqn:Heq; [|done].
    apply Ascii.eqb_eq in Heq. subst c. vm_compute in Hc. done.
  - change (pretty (Z.pos p)) with (pretty_N_go (N.pos p) "").
    by apply find_pretty_N_go.
  - change (Str.find c (pretty (Z.neg p)))
      with (if Ascii.eqb "-" c then Some 0%nat
            else S <$> Str.find c (pretty_N_go (N.pos p) "")).
    rewrite Hminus. by rewrite find_pretty_N_go.
Qed.

Lemma find_substr_to_first c item pos :
  Str.find c item = Some pos → Str.find c (Str.substr_to pos item) = None.
Proof.
  revert pos. induction item as [|x item IH]; intros pos; simpl; [done|].
  destruct (Ascii.eqb x c) eqn:Hx; [by intros [= <-]|].
  destruct (Str.find c item) as [n|]; [|done]. intros [= <-]. simpl.
  by rewrite Hx, IH.
Qed.

Lemma find_substr_to_None c item n :
  Str.find c item = None → Str.find c (Str.substr_to n item) = None.
Proof.
  revert n. induction item as [|x item IH]; intros [|n]; simpl; try done.
  destruct (Ascii.eqb x c); [done|].
  destruct (Str.find c item); [done|]. intros _. by rewrite IH.
Qed.

Lemma spaces_no_comma ws :
  Str.skip_spaces ws = "" → Str.find "," ws = None.
Proof.
  induction ws as [|c ws IH]; simpl; [done|].
  destruct (Str.isspace c) eqn:Hsp; [|done]. intros Hws.
  rewrite (IH Hws). clear -Hsp.
  by destruct c as [[] [] [] [] [] [] [] []].
Qed.

(** X1: a configuration resolves to a mapping exactly when every entry
    that has a ':' reads as a name and a count; the mapping then holds the
    pairs read, a later entry for a name overriding an earlier one. *)
Theorem InitTBBParallelCountDefines_later_entry_wins flag m :
  InitTBBParallelCountDefines flag = Ok m ↔
  ∃ pairs, Forall2 reads_as (filter has_separator (entries flag)) pairs ∧
           m = list_to_map (reverse pairs).
Proof.
  rewrite InitTBBParallelCountDefines_entries. split.
  - intros (pairs & Hall & ->)%resolve_entries_Ok. exists pairs.
    by rewrite foldl_insert_list_to_map.
  - intros (pairs & Hall & ->).
    by rewrite (resolve_entries_reads _ _ _ Hall), foldl_insert_list_to_map.
Qed.

(** X2: every binding of a resolved configuration has a count in the int
    range and a name free of ':' and ',', namely the text before the first
    ':' of one of the entries. *)
Theorem InitTBBParallelCountDefines_bindings flag m name count :
  InitTBBParallelCountDefines flag = Ok m →
  m !! name = Some count →
  Str.INT_MIN ≤ count ≤ Str.INT_MAX ∧
  Str.find ":" name = None ∧ Str.find "," name = None ∧
  ∃ item, item ∈ entries flag ∧ name_field item = Some name.
Proof.
  rewrite InitTBBParallelCountDefines_entries.
  intros (pairs & Hall & ->)%resolve_entries_Ok.
  rewrite foldl_insert_list_to_map.
  intros Hin%elem_of_list_to_map_2. rewrite elem_of_reverse in Hin.
  apply list_elem_of_lookup in Hin as [i Hi].
  destruct (Forall2_lookup_r _ _ _ _ _ Hall Hi)
    as (item & Hitem & Hn & field & Hc & Hs). simpl in *.
  apply list_elem_of_lookup_2, list_elem_of_filter in Hitem as [_ Hitem].
  pose proof (entries_no_comma _ _ Hitem) as Hcomma.
  destruct (stoi_cases field) as [(count' & Hok & Hrange)|[Hthrow|Hthrow]];
    [|congruence..].
  rewrite Hs in Hok. injection Hok as <-.
  unfold name_field in Hn.
  destruct (Str.find ":" item) as [pos|] eqn:Hpos; [|done].
  simpl in Hn. injection Hn as <-. split_and!; [lia..| | |].
  - by apply find_substr_to_first.
  - by apply find_substr_to_None.
  - exists item. split; [done|]. unfold name_field. by rewrite Hpos.
Qed.

Lemma InitTBBParallelCountDefines_bindings_witness :
  Str.INT_MIN ≤ 4 ≤ Str.INT_MAX ∧ Str.find ":" "b" = None.
Proof.
  destruct (InitTBBParallelCountDefines_bindings "a:2,b:4"
              (<["a" := 2]> (<["b" := 4]> ∅)) "b" 4)
    as (Hrange & Hcolon & _).
  - vm_compute. reflexivity.
  - vm_compute. reflexivity.
  - by split.
Defined.

Lemma filter_all {A} (P : A → Prop) `{∀ x, Decision (P x)} (l : list A) :
  Forall P l → filter P l = l.
Proof.
  induction 1 as [|x l Hx _ IH]; [done|].
  rewrite filter_cons_True by done. by rewrite IH.
Qed.

Lemma render_entry_reads p :
  Str.find ":" p.1 = None → Str.find "," p.1 = None →
  Str.INT_MIN ≤ p.2 ≤ Str.INT_MAX →
  has_separator (render_entry p) ∧ reads_as (render_entry p) p ∧
  Str.find "," (render_entry p) = None ∧ render_entry p ≠ "".
Proof.
  intros Hcolon Hcomma Hrange. unfold render_entry.
  destruct (fields_of_entry p.1 (pretty p.2) Hcolon) as (Hsep & Hn & Hc).
  split_and!; [done| | |].
  - split; [done|]. exists (pretty p.2). split; [done|].
    pose proof (stoi_pretty "" p.2 "" eq_refl I) as Hs.
    rewrite append_empty_r in Hs. change ("" +:+ pretty p.2) with (pretty p.2) in Hs.
    rewrite Hs. by rewrite bool_decide_eq_true_2.
  - apply find_app_None. split; [done|].
    change (":" +:+ pretty p.2) with (String ":" (pretty p.2)). simpl.
    by rewrite find_pretty_Z.
  - intros Heq. destruct Hsep as [pos Hpos]. by rewrite Heq in Hpos.
Qed.

(** X3: writing pairs as [name:count] joined by ',' and resolving the text
    gives the pairs back (a later pair for a name overriding an earlier
    one), for names free of ':' and ',' and counts in the int range. *)
Theorem InitTBBParallelCountDefines_render (pairs : list (string * Z)) :
  Forall (λ p, Str.find ":" p.1 = None ∧ Str.find "," p.1 = None ∧
               Str.INT_MIN ≤ p.2 ≤ Str.INT_MAX) pairs →
  InitTBBParallelCountDefines (join_entries (render_entry <$> pairs))
  = Ok (list_to_map (reverse pairs)).
Proof.
  intros Hall. rewrite InitTBBParallelCountDefines_entries.
  assert (Hparts : Forall (λ p,
            has_separator (render_entry p) ∧ reads_as (render_entry p) p ∧
            Str.find "," (render_entry p) = None ∧ render_entry p ≠ "")
            pairs).
  { eapply Forall_impl; [exact Hall|]. simpl.
    intros p (? & ? & ?). by apply render_entry_reads. }
  rewrite entries_join.
  - rewrite filter_all.
    + rewrite (resolve_entries_reads _ pairs).
      * by rewrite foldl_insert_list_to_map.
      * apply Forall2_fmap_l, Forall_Forall2_diag.
        eapply Forall_impl; [exact Hparts|]. by intros p (_ & ? & _).
    + apply Forall_fmap. eapply Forall_impl; [exact Hparts|].
      by intros p (? & _).
  - apply Forall_fmap. eapply Forall_impl; [exact Hparts|].
    by intros p (_ & _ & ? & ?).
Qed.

Lemma InitTBBParallelCountDefines_render_witness :
  InitTBBParallelCountDefines
    (join_entries (render_entry <$> [("a", 2); ("b", -4); ("a", 7)]))
  = Ok (list_to_map [("a", 7); ("b", -4); ("a", 2)]).
Proof.
  apply (InitTBBParallelCountDefines_render [("a", 2); ("b", -4); ("a", 7)]).
  repeat constructor; simpl; unfold Str.INT_MIN, Str.INT_MAX; lia.
Defined.

(** X4: the count of an entry may be preceded by white space and followed
    by any text that does not start with a digit: the entry resolves to the
    number written, or throws [out_of_range] when the number does not fit
    an int. *)
Theorem InitTBBParallelCountDefines_lenient_count name ws (z : Z) junk :
  Str.find ":" name = None → Str.find "," name = None →
  Str.skip_spaces ws = "" →
  stops junk → Str.find "," junk = None →
  InitTBBParallelCountDefines (name +:+ ":" +:+ ws +:+ pretty z +:+ junk) =
    if bool_decide (Str.INT_MIN ≤ z ≤ Str.INT_MAX)
    then Ok (<[name := z]> ∅)
    else Throw out_of_range.
Proof.
  intros Hcolon Hcomma Hws Hstop Hjunk.
  set (field := ws +:+ pretty z +:+ junk).
  destruct (fields_of_entry name field Hcolon) as (Hsep & Hn & Hc).
  assert (Hno : Str.find "," (name +:+ ":" +:+ field) = None).
  { apply find_app_None. split; [done|].
    change (":" +:+ field) with (String ":" field). simpl. rewrite fmap_None.
    subst field. rewrite !find_app_None.
    split_and!; [|by apply find_pretty_Z|done].
    by apply spaces_no_comma. }
  assert (Hne : name +:+ ":" +:+ field ≠ "").
  { intros Heq. destruct Hsep as [pos Hpos]. by rewrite Heq in Hpos. }
  rewrite InitTBBParallelCountDefines_entries.
  assert (Hent : entries (name +:+ ":" +:+ field)
                 = [name +:+ ":" +:+ field])
    by (apply (entries_join [_]); by repeat constructor).
  rewrite Hent, filter_cons_True, filter_nil by done. simpl.
  rewrite Hn, Hc. subst field. rewrite (stoi_pretty ws z junk Hws Hstop).
  by case_bool_decide.
Qed.

Lemma InitTBBParallelCountDefines_lenient_count_witness :
  InitTBBParallelCountDefines "x: 12 threads" = Ok (<["x" := 12]> ∅) ∧
  InitTBBParallelCountDefines "x:4294967296" = Throw out_of_range.
Proof.
  split.
  - apply (InitTBBParallelCountDefines_lenient_count "x" " " 12 " threads");
      reflexivity.
  - apply (InitTBBParallelCountDefines_lenient_count "x" "" 4294967296 "");
      reflexivity.
Defined.

(** X5: an entry that has a ':' but no number after it (nothing, or text
    that starts with neither a digit, a sign nor white space, possibly after
    white space) makes the resolution throw [invalid_argument]. *)
Theorem InitTBBParallelCountDefines_no_number name ws junk :
  Str.find ":" name = None → Str.find "," name = None →
  Str.skip_spaces ws = "" →
  bare junk → Str.find "," junk = None →
  InitTBBParallelCountDefines (name +:+ ":" +:+ ws +:+ junk)
  = Throw invalid_argument.
Proof.
  intros Hcolon Hcomma Hws Hbare Hjunk.
  set (field := ws +:+ junk).
  destruct (fields_of_entry name field Hcolon) as (Hsep & Hn & Hc).
  assert (Hno : Str.find "," (name +:+ ":" +:+ field) = None).
  { apply find_app_None. split; [done|].
    change (":" +:+ field) with (String ":" field). simpl. rewrite fmap_None.
    subst field. rewrite find_app_None. split; [|done].
    by apply spaces_no_comma. }
  assert (Hne : name +:+ ":" +:+ field ≠ "").
  { intros Heq. destruct Hsep as [pos Hpos]. by rewrite Heq in Hpos. }
  rewrite InitTBBParallelCountDefines_entries.
  assert (Hent : entries (name +:+ ":" +:+ field)
                 = [name +:+ ":" +:+ field])
    by (apply (entries_join [_]); by repeat constructor).
  rewrite Hent, filter_cons_True, filter_nil by done. simpl.
  rewrite Hn, Hc. subst field.
  assert (Hstoi : Str.stoi (ws +:+ junk) = Throw invalid_argument);
    [|by rewrite Hstoi].
  destruct junk as [|c junk].
  - unfold Str.stoi. rewrite skip_spaces_app by done. done.
  - destruct Hbare as (Hd & Hsp & Hminus & Hplus).
    rewrite (stoi_after_spaces _ c junk).
    + rewrite Hminus, Hplus. simpl. by rewrite Hd.
    + rewrite skip_spaces_app by done. simpl. by rewrite Hsp.
Qed.

Lemma InitTBBParallelCountDefines_no_number_witness :
  InitTBBParallelCountDefines "x:" = Throw invalid_argument ∧
  InitTBBParallelCountDefines "x: many" = Throw invalid_argument.
Proof.
  split.
  - apply (InitTBBParallelCountDefines_no_number "x" "" ""); reflexivity.
  - apply (InitTBBParallelCountDefines_no_number "x" " " "many");
      try reflexivity. by vm_compute.
Defined.

(** ** The configuration cache *)

(** X6: the flag is resolved until it has been resolved once.  After a
    call that returned a mapping, every later call returns that mapping
    without reading the flag, whatever the flag then holds; a call that
    threw has stored nothing, so the next call resolves the flag again. *)
Theorem GetTBBParallelCountDefines_once s :
  match GetTBBParallelCountDefines s with
  | (Ok defines, s1, _) =>
      tbb_parallel_count_defines s1 = Some defines ∧
      ∀ flag', GetTBBParallelCountDefines (set_flag flag' s1)
               = (Ok defines, set_flag flag' s1, [])
  | (Throw e, s1, _) =>
      s1 = s ∧
      InitTBBParallelCountDefines (FLAGS_custom_tbb_parallel_control s)
        = Throw e ∧
      ∀ flag' defines,
        InitTBBParallelCountDefines flag' = Ok defines →
        (GetTBBParallelCountDefines (set_flag flag' s1)).1.1 = Ok defines
  | (Undefined, _, _) => False
  end.
Proof.
  destruct (tbb_parallel_count_defines s) as [defines|] eqn:Hc.
  - rewrite (GetTBBParallelCountDefines_cached _ _ Hc). split; [done|].
    intros flag'. by apply GetTBBParallelCountDefines_cached.
  - destruct (InitTBBParallelCountDefines
                (FLAGS_custom_tbb_parallel_control s)) as [m|e|] eqn:Hi.
    + rewrite (GetTBBParallelCountDefines_first _ _ Hc Hi). split; [done|].
      intros flag'. by apply GetTBBParallelCountDefines_cached.
    + rewrite (GetTBBParallelCountDefines_throw _ _ Hc Hi).
      split_and!; [done..|]. intros flag' defines Hok.
      by rewrite (GetTBBParallelCountDefines_first _ defines).
    + by apply InitTBBParallelCountDefines_defined in Hi.
Qed.

(** ** [Init]: failure and frame *)

Lemma GetTBBParallelCountDefines_counter c s :
  GetTBBParallelCountDefines (set_global_counter c s) =
    let '(r, s', t) := GetTBBParallelCountDefines s in
    (r, set_global_counter c s', t).
Proof.
  destruct (tbb_parallel_count_defines s) as [defines|] eqn:Hc.
  - by rewrite (GetTBBParallelCountDefines_cached s defines),
      (GetTBBParallelCountDefines_cached (set_global_counter c s) defines).
  - destruct (InitTBBParallelCountDefines
                (FLAGS_custom_tbb_parallel_control s)) as [m|e|] eqn:Hi.
    + by rewrite (GetTBBParallelCountDefines_first s m),
        (GetTBBParallelCountDefines_first (set_global_counter c s) m).
    + by rewrite (GetTBBParallelCountDefines_throw s e),
        (GetTBBParallelCountDefines_throw (set_global_counter c s) e).
    + by apply InitTBBParallelCountDefines_defined in Hi.
Qed.

(** [Init] neither reads nor writes the id counter. *)
Lemma Init_counter tbb_name d c s :
  Init tbb_name d (set_global_counter c s) =
    let '(r, s', t) := Init tbb_name d s in (r, set_global_counter c s', t).
Proof.
  destruct (needs_init_dec tbb_name s) as [(st & Hl & Hi)|Hn].
  - by rewrite (Init_hit _ d s st), (Init_hit _ d (set_global_counter c s) st).
  - pose proof (GetTBBParallelCountDefines_counter c s) as Hg.
    destruct (GetTBBParallelCountDefines_frame s)
      as (r & dc & Hgs & Hdef & _). rewrite Hgs in Hg.
    destruct r as [defines|e|]; [| |done].
    + by rewrite (Init_construct _ d s defines dc),
        (Init_construct _ d (set_global_counter c s) defines dc).
    + by rewrite (Init_throw _ d s e dc),
        (Init_throw _ d (set_global_counter c s) e dc).
Qed.

(** X7: when the flag cannot be resolved and the name has no initialized
    entry, [Init] throws the parser's exception with both lock scopes
    closed and the process unchanged: no entry, no arena, nothing cached.
    A dispatch of either overload then throws the same exception without
    calling the body or touching a queue; only the id counter has moved. *)
Theorem Init_unresolvable tbb_name d s e :
  needs_init tbb_name s →
  tbb_parallel_count_defines s = None →
  InitTBBParallelCountDefines (FLAGS_custom_tbb_parallel_control s)
    = Throw e →
  let log := lock_unlock arenas_mutex_ ++ lock_unlock arenas_mutex_ in
  let s1 := set_global_counter (wrap32 (global_counter s + 1)) s in
  Init tbb_name d s = (Throw e, s, log) ∧
  (∀ start end_ task now sched,
     ParallelFor tbb_name start end_ task now d sched s
     = (Throw e, s1, log)) ∧
  (∀ range task now sched,
     ParallelFor_blocked_range tbb_name range task now d sched s
     = (Throw e, s1, log)).
Proof.
  intros Hn Hc Hi log s1.
  assert (HInit : Init tbb_name d s = (Throw e, s, log)).
  { rewrite <- (set_defines_same s) at 2.
    apply Init_throw; [done|]. rewrite set_defines_same.
    by apply GetTBBParallelCountDefines_throw. }
  assert (HInit1 : Init tbb_name d s1 = (Throw e, s1, log))
    by (unfold s1; by rewrite Init_counter, HInit).
  split_and!; [done| |].
  - intros start end_ task now sched. unfold ParallelFor.
    rewrite (dispatch_unfold tbb_name d now
      (λ id, parallel_for sched
         (sub_range_body task tbb_name id
            (make_unique_task_name tbb_name id)))).
    simpl. fold s1. by rewrite HInit1.
  - intros range task now sched. unfold ParallelFor_blocked_range.
    rewrite (dispatch_unfold tbb_name d now
      (λ id, parallel_for sched
         (sub_range_body_br task tbb_name id
            (make_unique_task_name tbb_name id)))).
    simpl. fold s1. by rewrite HInit1.
Qed.

Lemma Init_unresolvable_witness :
  Init "x" 4 (fresh_process "x:many")
  = (Throw invalid_argument, fresh_process "x:many",
     lock_unlock arenas_mutex_ ++ lock_unlock arenas_mutex_).
Proof.
  apply (Init_unresolvable "x" 4 (fresh_process "x:many") invalid_argument).
  - by intros st Hst.
  - reflexivity.
  - vm_compute. reflexivity.
Defined.

(** X8: what [Init] never does.  It leaves the queues, the id counter and
    the flag alone, keeps every entry of another name and every
    initialized entry of its own name, keeps every arena object at its
    address, and keeps a cached configuration. *)
Theorem Init_frame tbb_name d s :
  let s' := (Init tbb_name d s).1.2 in
  thread_contexts_ s' = thread_contexts_ s ∧
  global_counter s' = global_counter s ∧
  FLAGS_custom_tbb_parallel_control s'
    = FLAGS_custom_tbb_parallel_control s ∧
  (∀ other, other ≠ tbb_name →
     task_arenas_ s' !! other = task_arenas_ s !! other) ∧
  (∀ st, task_arenas_ s !! tbb_name = Some st → initialized st = true →
     task_arenas_ s' !! tbb_name = Some st) ∧
  arena_objects s `prefix_of` arena_objects s' ∧
  (∀ defines, tbb_parallel_count_defines s = Some defines →
     tbb_parallel_count_defines s' = Some defines).
Proof.
  destruct (Init_cases tbb_name d s)
    as [(st & Hl & Hi & ->)|[(Hn & defines & Hg & ->)|(_ & e & ->)]]; simpl;
    try (split_and!; done).
  split_and!; try done.
  - intros other Hne. by rewrite lookup_insert_ne.
  - intros st Hl Hi. by rewrite (Hn st Hl) in Hi.
  - by apply prefix_app_r.
  - intros defines' Hc.
    rewrite (GetTBBParallelCountDefines_cached _ _ Hc) in Hg. simpl in Hg.
    congruence.
Qed.

(** ** Dispatch: frame, order of the records, the two overloads *)

Lemma flushed_tags task tbb_name task_id mk sched :
  (∀ i, task_name (mk i) = tbb_name ∧ task_instance_id (mk i) = task_id) →
  Forall (λ c, task_name c = tbb_name ∧ task_instance_id c = task_id)
         (flushed task mk sched) ∧
  (length (flushed task mk sched)
   ≤ length (concat (range_elements <$> sched)))%nat.
Proof.
  intros Hmk. unfold flushed.
  induction sched as [|sr sched [IH1 IH2]]; [by split|]. csimpl.
  rewrite Forall_app, !length_app. unfold sub_range_flushed at 1 3.
  destruct (first_exception task (range_elements sr)).
  - split; [by split|]. simpl. lia.
  - split; [split; [|done]|rewrite length_fmap; lia].
    apply Forall_fmap, Forall_true. intros i. apply Hmk.
Qed.

(** X9: a dispatch, whatever the body and the scheduler do, advances the
    id counter by one, leaves the registry, the arena objects and the
    configuration cache as [Init] alone would, leaves every queue but its
    own untouched, and only appends to its own queue: records that carry
    its arena name and task id, at most one per element handed out. *)
Theorem ParallelFor_touches_own_queue_only
    tbb_name start end_ task now d sched s :
  let s' := (ParallelFor tbb_name start end_ task now d sched s).1.2 in
  let init := (Init tbb_name d s).1.2 in
  let task_id := task_id_at now (global_counter s) in
  let name := make_unique_task_name tbb_name task_id in
  global_counter s' = wrap32 (global_counter s + 1) ∧
  task_arenas_ s' = task_arenas_ init ∧
  arena_objects s' = arena_objects init ∧
  tbb_parallel_count_defines s' = tbb_parallel_count_defines init ∧
  (∀ other, other ≠ name →
     thread_contexts_ s' !! other = thread_contexts_ s !! other) ∧
  ∃ recs,
    queue_of name s' = queue_of name s ++ recs ∧
    Forall (λ c, task_name c = tbb_name ∧ task_instance_id c = task_id)
           recs ∧
    (length recs ≤ length (concat (range_elements <$> sched)))%nat.
Proof.
  intros s' init task_id name.
  destruct (ParallelFor_frame tbb_name start end_ task now d sched s)
    as (recs & log & Hstate & _ & Hrecs & _).
  fold s' task_id name in Hstate.
  pose proof (Init_counter tbb_name d (wrap32 (global_counter s + 1)) s)
    as Hc.
  destruct (Init tbb_name d s) as [[r si] ti] eqn:HInit.
  rewrite Hc in Hstate. simpl in Hstate. subst init. simpl.
  pose proof (Init_thread_contexts tbb_name d s) as [Hctx Hcnt].
  rewrite HInit in Hctx, Hcnt. simpl in Hctx, Hcnt.
  rewrite Hstate. simpl. split_and!; try done.
  - intros other Hne. rewrite Hctx. by apply append_queue_lookup_ne.
  - exists recs. split_and!.
    + unfold queue_of. simpl. by rewrite append_queue_lookup, Hctx.
    + destruct Hrecs as [-> | ->]; [done|].
      by apply (flushed_tags task tbb_name task_id).
    + destruct Hrecs as [-> | ->]; [simpl; lia|].
      by apply (flushed_tags task tbb_name task_id).
Qed.

Lemma split_schedule task b m e :
  b < m < e →
  engine_schedule task {| my_begin := b; my_end := e |}
    [{| my_begin := m; my_end := e |}; {| my_begin := b; my_end := m |}].
Proof.
  intros Hm.
  exists [{| my_begin := b; my_end := m |}; {| my_begin := m; my_end := e |}].
  split_and!.
  - apply (splits_node b m e [_] [_]); [lia|apply splits_leaf..]; simpl; lia.
  - apply Permutation_submseteq, perm_swap.
  - left. apply perm_swap.
Qed.

(** X10: for any range, a dispatch of the IntType overload whose body does
    not throw appends the records batch by batch: the batches follow the
    order in which the sub-ranges flush, and inside a batch the records
    follow the iteration order.  Each record holds its element converted to
    int; for a range inside the int range these are the elements
    themselves, each once. *)
Theorem ParallelFor_records_in_batches
    tbb_name start end_ task now d sched s a s2 t2 :
  Init tbb_name d (GenerateUniqueTaskId now s).1.2 = (Ok (Some a), s2, t2) →
  engine_schedule task {| my_begin := start; my_end := end_ |} sched →
  (∀ i, start ≤ i < end_ → task i = None) →
  let name :=
    make_unique_task_name tbb_name (task_id_at now (global_counter s)) in
  ∃ s' t recs,
    ParallelFor tbb_name start end_ task now d sched s = (Ok tt, s', t) ∧
    queue_of name s' = queue_of name s ++ recs ∧
    thread_id <$> recs = cast_int <$> concat (range_elements <$> sched) ∧
    concat (range_elements <$> sched) ≡ₚ seqZ start (end_ - start) ∧
    length recs = Z.to_nat (end_ - start) ∧
    (- 2 ^ 31 ≤ start → end_ ≤ 2 ^ 31 →
     thread_id <$> recs = concat (range_elements <$> sched) ∧
     NoDup (thread_id <$> recs)).
Proof.
  intros HInit Hsched Hquiet name.
  rewrite GenerateUniqueTaskId_spec in HInit. simpl in HInit.
  destruct (engine_schedule_complete _ _ _ Hsched Hquiet) as [Hnone Hperm].
  unfold range_elements in Hperm at 2. simpl in Hperm.
  assert (Hq : queue_of name s2 = queue_of name s).
  { pose proof (proj1 (Init_thread_contexts tbb_name d
      (set_global_counter (wrap32 (global_counter s + 1)) s))) as H.
    rewrite HInit in H. simpl in H. unfold queue_of. by rewrite H. }
  do 3 eexists. rewrite (ParallelFor_spec _ _ _ _ _ _ _ _ _ _ _ HInit).
  rewrite (dispatch_result_quiet _ _ Hnone), (flushed_quiet _ _ _ Hnone).
  fold name.
  assert (Hids : thread_id <$>
            (context_of_index tbb_name (task_id_at now (global_counter s))
               <$> concat (range_elements <$> sched))
            = cast_int <$> concat (range_elements <$> sched))
    by (by rewrite <- list_fmap_compose).
  split_and!; [done| |done|done| |].
  - by rewrite queue_after_flush, Hq.
  - by rewrite length_fmap, Hperm, length_seqZ.
  - intros Hlo Hhi.
    assert (Hid : cast_int <$> concat (range_elements <$> sched)
                  = concat (range_elements <$> sched)).
    { rewrite (proj1 (Forall_fmap_ext _ id _)); [apply list_fmap_id|].
      apply Forall_forall. intros i Hi. rewrite Hperm in Hi.
      apply elem_of_seqZ in Hi. apply (cast_int_small i). lia. }
    rewrite Hids, Hid. split; [done|]. rewrite Hperm. apply NoDup_seqZ.
Qed.

Lemma ParallelFor_records_in_batches_witness :
  ∃ s' t recs,
    ParallelFor "x" (-5) 5 quiet_body 7 4
      [{| my_begin := 0; my_end := 5 |}; {| my_begin := -5; my_end := 0 |}]
      (fresh_process "") = (Ok tt, s', t) ∧
    thread_id <$> recs = [0; 1; 2; 3; 4; -5; -4; -3; -2; -1].
Proof.
  destruct (ParallelFor_records_in_batches "x" (-5) 5 quiet_body 7 4
              [{| my_begin := 0; my_end := 5 |};
               {| my_begin := -5; my_end := 0 |}]
              (fresh_process "") 0%nat
              (Init "x" 4
                 (GenerateUniqueTaskId 7 (fresh_process "")).1.2).1.2
              (Init "x" 4
                 (GenerateUniqueTaskId 7 (fresh_process "")).1.2).2)
    as (s' & t & recs & Hrun & _ & _ & _ & _ & Hids).
  - vm_compute. reflexivity.
  - apply split_schedule. lia.
  - reflexivity.
  - exists s', t, recs. split; [exact Hrun|].
    destruct Hids as [Hids _]; [lia..|]. exact Hids.
Defined.

Lemma cast_int_period z : cast_int (z + 2 ^ 32) = cast_int z.
Proof.
  unfold cast_int. f_equal.
  replace (z + 2 ^ 32 + 2 ^ 31) with (z + 2 ^ 31 + 1 * 2 ^ 32) by lia.
  by rewrite Z.mod_add.
Qed.

(** X11: the index field is an int.  When the range holds more than 2^32
    elements (a 64-bit IntType), elements 2^32 apart are recorded under the
    same index, so the recorded indices are no longer distinct. *)
Theorem ParallelFor_index_wraps
    tbb_name start end_ task now d sched s a s2 t2 :
  Init tbb_name d (GenerateUniqueTaskId now s).1.2 = (Ok (Some a), s2, t2) →
  engine_schedule task {| my_begin := start; my_end := end_ |} sched →
  (∀ i, start ≤ i < end_ → task i = None) →
  2 ^ 32 < end_ - start →
  let name :=
    make_unique_task_name tbb_name (task_id_at now (global_counter s)) in
  ∃ s' t recs,
    ParallelFor tbb_name start end_ task now d sched s = (Ok tt, s', t) ∧
    queue_of name s' = queue_of name s ++ recs ∧
    ¬ NoDup (thread_id <$> recs).
Proof.
  intros HInit Hsched Hquiet Hwide name.
  rewrite GenerateUniqueTaskId_spec in HInit. simpl in HInit.
  destruct (engine_schedule_complete _ _ _ Hsched Hquiet) as [Hnone Hperm].
  unfold range_elements in Hperm at 2. simpl in Hperm.
  assert (Hq : queue_of name s2 = queue_of name s).
  { pose proof (proj1 (Init_thread_contexts tbb_name d
      (set_global_counter (wrap32 (global_counter s + 1)) s))) as H.
    rewrite HInit in H. simpl in H. unfold queue_of. by rewrite H. }
  do 3 eexists. rewrite (ParallelFor_spec _ _ _ _ _ _ _ _ _ _ _ HInit).
  rewrite (dispatch_result_quiet _ _ Hnone), (flushed_quiet _ _ _ Hnone).
  fold name. split_and!; [done|by rewrite queue_after_flush, Hq|].
  rewrite <- list_fmap_compose.
  change (thread_id ∘ context_of_index tbb_name
                        (task_id_at now (global_counter s)))
    with cast_int.
  rewrite Hperm. intros Hnd.
  assert (Hfirst : (cast_int <$> seqZ start (end_ - start)) !! 0%nat
                   = Some (cast_int start)).
  { rewrite list_lookup_fmap, lookup_seqZ_lt by lia. simpl.
    by rewrite Z.add_0_r. }
  assert (Hlater : (cast_int <$> seqZ start (end_ - start))
                     !! Z.to_nat (2 ^ 32) = Some (cast_int start)).
  { rewrite list_lookup_fmap, lookup_seqZ_lt by lia. simpl.
    rewrite Z2Nat.id by lia. by rewrite cast_int_period. }
  pose proof (NoDup_lookup _ _ _ _ Hnd Hfirst Hlater) as Heq. lia.
Qed.

Lemma ParallelFor_index_wraps_witness :
  ∃ s' t recs,
    ParallelFor "x" 0 (2 ^ 32 + 1) quiet_body 7 4
      [{| my_begin := 0; my_end := 2 ^ 32 + 1 |}] (fresh_process "")
    = (Ok tt, s', t) ∧
    queue_of "x_30064771072" s' = recs ∧
    ¬ NoDup (thread_id <$> recs).
Proof.
  destruct (ParallelFor_index_wraps "x" 0 (2 ^ 32 + 1) quiet_body 7 4
              [{| my_begin := 0; my_end := 2 ^ 32 + 1 |}]
              (fresh_process "") 0%nat
              (Init "x" 4
                 (GenerateUniqueTaskId 7 (fresh_process "")).1.2).1.2
              (Init "x" 4
                 (GenerateUniqueTaskId 7 (fresh_process "")).1.2).2)
    as (s' & t & recs & Hrun & Hqueue & Hdup).
  - vm_compute. reflexivity.
  - exists [{| my_begin := 0; my_end := 2 ^ 32 + 1 |}].
    split_and!; [by apply splits_leaf|done|by left].
  - reflexivity.
  - lia.
  - exists s', t, recs. split_and!; [exact Hrun|exact Hqueue|exact Hdup].
Defined.

Lemma flushed_zero_index task tbb_name task_id sched :
  flushed task (context_of_position tbb_name task_id) sched
  = zero_index <$> flushed task (context_of_index tbb_name task_id) sched.
Proof.
  unfold flushed. induction sched as [|sr sched IH]; [done|]. csimpl.
  rewrite fmap_app, IH. f_equal. unfold sub_range_flushed.
  destruct (first_exception task (range_elements sr)); [done|].
  by rewrite <- list_fmap_compose.
Qed.

(** X12: over the same range, body and schedule the blocked_range overload
    behaves as the IntType overload does: the same outcome, the same lock
    and call events, the same state apart from the queues, and the same
    records in the queue of the dispatch except that each record's index is
    0 instead of the converted element. *)
Theorem ParallelFor_overloads_agree
    tbb_name start end_ task now d sched s :
  let run := ParallelFor tbb_name start end_ task now d sched s in
  let run_br :=
    ParallelFor_blocked_range tbb_name
      {| my_begin := start; my_end := end_ |} task now d sched s in
  let name :=
    make_unique_task_name tbb_name (task_id_at now (global_counter s)) in
  run_br.1.1 = run.1.1 ∧
  run_br.2 = run.2 ∧
  set_thread_contexts (λ _, ∅) run_br.1.2
  = set_thread_contexts (λ _, ∅) run.1.2 ∧
  (∀ other, other ≠ name →
     thread_contexts_ run_br.1.2 !! other
     = thread_contexts_ run.1.2 !! other) ∧
  ∃ recs,
    queue_of name run.1.2 = queue_of name s ++ recs ∧
    queue_of name run_br.1.2 = queue_of name s ++ (zero_index <$> recs).
Proof.
  intros run run_br name. subst run run_br.
  pose proof (Init_thread_contexts tbb_name d
    (set_global_counter (wrap32 (global_counter s + 1)) s)) as [Hctx _].
  destruct (Init tbb_name d
              (set_global_counter (wrap32 (global_counter s + 1)) s))
    as [[[[a|]|e|] s2] t2] eqn:HInit; simpl in Hctx.
  2-4: unfold ParallelFor, ParallelFor_blocked_range;
    rewrite (dispatch_unfold tbb_name d now
      (λ id, parallel_for sched
         (sub_range_body task tbb_name id
            (make_unique_task_name tbb_name id)))),
      (dispatch_unfold tbb_name d now
      (λ id, parallel_for sched
         (sub_range_body_br task tbb_name id
            (make_unique_task_name tbb_name id))));
    simpl; rewrite HInit; simpl; (split_and!; [done..|]);
    exists []; unfold queue_of; by rewrite Hctx, !app_nil_r.
  rewrite (ParallelFor_spec _ _ _ _ _ _ _ _ _ _ _ HInit),
    (ParallelFor_blocked_range_spec _ _ _ _ _ _ _ _ _ _ HInit).
  fold name. simpl. split_and!; [done..| |].
  - intros other Hne. by rewrite !append_queue_lookup_ne.
  - exists (flushed task (context_of_index tbb_name
              (task_id_at now (global_counter s))) sched).
    unfold queue_of. simpl.
    by rewrite !append_queue_lookup, Hctx, flushed_zero_index.
Qed.

Lemma pretty_no_underscore (z : Z) name rest :
  pretty z ≠ name +:+ "_" +:+ rest.
Proof.
  intros Heq.
  assert (Hnone : Str.find "_" (pretty z) = None) by by apply find_pretty_Z.
  rewrite Heq in Hnone. apply find_app_None in Hnone as [_ Hnone].
  by change ("_" +:+ rest) with (String "_" rest) in Hnone.
Qed.

Lemma make_unique_task_name_eq name1 id1 name2 id2 :
  make_unique_task_name name1 id1 = make_unique_task_name name2 id2 →
  name1 = name2 ∧ id1 = id2.
Proof.
  unfold make_unique_task_name.
  revert name2. induction name1 as [|c name1 IH]; intros [|c2 name2] Heq.
  - change ("" +:+ "_" +:+ pretty id1) with (String "_" (pretty id1)) in Heq.
    change ("" +:+ "_" +:+ pretty id2) with (String "_" (pretty id2)) in Heq.
    split; [done|]. injection Heq as Heq. by apply (inj pretty).
  - change ("" +:+ "_" +:+ pretty id1) with (String "_" (pretty id1)) in Heq.
    change (String c2 name2 +:+ "_" +:+ pretty id2)
      with (String c2 (name2 +:+ "_" +:+ pretty id2)) in Heq.
    injection Heq as _ Heq. by apply pretty_no_underscore in Heq.
  - change ("" +:+ "_" +:+ pretty id2) with (String "_" (pretty id2)) in Heq.
    change (String c name1 +:+ "_" +:+ pretty id1)
      with (String c (name1 +:+ "_" +:+ pretty id1)) in Heq.
    injection Heq as _ Heq. symmetry in Heq.
    by apply pretty_no_underscore in Heq.
  - change (String c name1 +:+ "_" +:+ pretty id1)
      with (String c (name1 +:+ "_" +:+ pretty id1)) in Heq.
    change (String c2 name2 +:+ "_" +:+ pretty id2)
      with (String c2 (name2 +:+ "_" +:+ pretty id2)) in Heq.
    injection Heq as -> Heq. destruct (IH _ Heq) as [-> ->]. done.
Qed.

(** X13: the queue key [tbb_name + "_" + std::to_string(task_id)] determines
    both the arena name and the task id, also when arena names contain
    underscores or digits: two dispatches share a queue only if they agree
    on both. *)
Theorem make_unique_task_name_inj name1 id1 name2 id2 :
  make_unique_task_name name1 id1 = make_unique_task_name name2 id2 ↔
  name1 = name2 ∧ id1 = id2.
Proof.
  split; [apply make_unique_task_name_eq|by intros [-> ->]].
Qed.

(** ** What holds of every reachable state *)

Lemma invariant_fresh flag : invariant flag (fresh_process flag).
Proof. by split. Qed.

Lemma invariant_set_global_counter flag c s :
  invariant flag s →
  invariant flag (set_global_counter (wrap32 c) s).
Proof.
  intros [Hflag Hcache Hcnt Hres Hent Hdist Hq]. split; simpl; try done.
  unfold wrap32. apply Z.mod_pos_bound. lia.
Qed.

Lemma invariant_Release flag s :
  invariant flag s → invariant flag (Release s).1.2.
Proof.
  intros [Hflag Hcache Hcnt Hres Hent Hdist Hq]. rewrite Release_spec.
  by split.
Qed.

Lemma invariant_append_queue flag key recs s :
  Forall (λ c, make_unique_task_name (task_name c) (task_instance_id c)
               = key) recs →
  invariant flag s →
  invariant flag (set_thread_contexts (append_queue key recs) s).
Proof.
  intros Hrecs [Hflag Hcache Hcnt Hres Hent Hdist Hq].
  split; simpl; try done.
  intros key' q. destruct recs as [|c recs]; [apply Hq|]. simpl.
  destruct (decide (key' = key)) as [->|Hne].
  - rewrite lookup_insert_eq. intros [= <-]. split.
    + by destruct (default [] (thread_contexts_ s !! key)).
    + apply Forall_app. split; [|done].
      destruct (thread_contexts_ s !! key) as [q0|] eqn:Hq0; [|done].
      by apply (Hq key q0).
  - rewrite lookup_insert_ne by done. apply Hq.
Qed.

Lemma GetTBBParallelCountDefines_Ok s defines :
  (GetTBBParallelCountDefines s).1.1 = Ok defines →
  match tbb_parallel_count_defines s with
  | Some cached => cached = defines
  | None =>
      InitTBBParallelCountDefines (FLAGS_custom_tbb_parallel_control s)
      = Ok defines
  end.
Proof.
  intros Hget.
  destruct (tbb_parallel_count_defines s) as [cached|] eqn:Hc.
  - rewrite (GetTBBParallelCountDefines_cached _ _ Hc) in Hget.
    by injection Hget.
  - destruct (InitTBBParallelCountDefines
                (FLAGS_custom_tbb_parallel_control s)) as [m|e|] eqn:Hi.
    + rewrite (GetTBBParallelCountDefines_first _ _ Hc Hi) in Hget.
      simpl in Hget. by rewrite Hget.
    + by rewrite (GetTBBParallelCountDefines_throw _ _ Hc Hi) in Hget.
    + by apply InitTBBParallelCountDefines_defined in Hi.
Qed.

Lemma invariant_Init flag tbb_name d s :
  invariant flag s → invariant flag (Init tbb_name d s).1.2.
Proof.
  intros Hinv.
  destruct (Init_cases tbb_name d s)
    as [(st & _ & _ & ->)|[(Hn & defines & Hget & ->)|(_ & e & ->)]];
    [done| |done].
  destruct Hinv as [Hflag Hcache Hcnt Hres Hent Hdist Hq].
  apply GetTBBParallelCountDefines_Ok in Hget.
  assert (Hnone : task_arenas_ s !! tbb_name = None).
  { destruct (task_arenas_ s !! tbb_name) as [st|] eqn:Hst; [|done].
    destruct (Hent _ _ Hst) as [Hi _]. by rewrite (Hn st) in Hi. }
  assert (Hold : ∀ cached, tbb_parallel_count_defines s = Some cached →
                           cached = defines).
  { intros cached Hc. by rewrite Hc in Hget. }
  split; simpl; try done.
  - intros ? [= <-]. destruct (tbb_parallel_count_defines s) as [cached|].
    + rewrite <- Hget. by apply Hcache.
    + by rewrite <- Hflag.
  - intros name st. destruct (decide (name = tbb_name)) as [->|Hne].
    + rewrite lookup_insert_eq. intros [= <-]. simpl. split; [done|].
      eexists _, _. split_and!; [done|by apply list_lookup_middle|].
      simpl. intros ? c [= <-] Hc. by rewrite Hc.
    + rewrite lookup_insert_ne by done. intros Hst.
      destruct (Hent _ _ Hst) as (Hi & a & obj & Ha & Hobj & Hover).
      split; [done|]. exists a, obj.
      split_and!; [done|by apply lookup_app_l_Some|].
      intros ? c [= <-] Hc.
      destruct Hres as [cached Hcached].
      { intros Hnil. by rewrite Hnil in Hobj. }
      apply (Hover cached c Hcached). by rewrite (Hold _ Hcached).
  - intros name1 name2 st1 st2.
    destruct (decide (name1 = tbb_name)) as [->|Hne1];
      destruct (decide (name2 = tbb_name)) as [->|Hne2]; [done|..].
    + rewrite lookup_insert_eq, lookup_insert_ne by done.
      intros [= <-] Hst2. simpl. intros Heq.
      destruct (Hent _ _ Hst2) as (_ & a & obj & Ha & Hobj & _).
      apply lookup_lt_Some in Hobj. rewrite Ha in Heq.
      injection Heq as Heq. lia.
    + rewrite lookup_insert_eq, lookup_insert_ne by done.
      intros Hst1 [= <-]. simpl. intros Heq.
      destruct (Hent _ _ Hst1) as (_ & a & obj & Ha & Hobj & _).
      apply lookup_lt_Some in Hobj. rewrite Ha in Heq.
      injection Heq as Heq. lia.
    + rewrite !lookup_insert_ne by done. apply Hdist.
Qed.

Lemma flushed_keys task tbb_name task_id mk sched :
  (∀ i, task_name (mk i) = tbb_name ∧ task_instance_id (mk i) = task_id) →
  Forall (λ c, make_unique_task_name (task_name c) (task_instance_id c)
               = make_unique_task_name tbb_name task_id)
         (flushed task mk sched).
Proof.
  intros Hmk. eapply Forall_impl; [by apply (flushed_tags _ _ _ _ _ Hmk)|].
  simpl. by intros c [-> ->].
Qed.

Lemma invariant_run_op flag o s : invariant flag s → invariant flag (run_op o s).
Proof.
  intros Hinv.
  destruct o as [n d|n b e task now d sched|n r task now d sched|]; simpl.
  - by apply invariant_Init.
  - destruct (ParallelFor_frame n b e task now d sched s)
      as (recs & log & -> & _ & Hrecs & _).
    apply invariant_append_queue;
      [|by apply invariant_Init, invariant_set_global_counter].
    destruct Hrecs as [-> | ->]; [done|]. by apply flushed_keys.
  - destruct (ParallelFor_blocked_range_frame n r task now d sched s)
      as (recs & log & -> & _ & Hrecs & _).
    apply invariant_append_queue;
      [|by apply invariant_Init, invariant_set_global_counter].
    destruct Hrecs as [-> | ->]; [done|]. by apply flushed_keys.
  - by apply invariant_Release.
Qed.

Lemma invariant_reachable flag s : reachable flag s → invariant flag s.
Proof.
  induction 1 as [|s o _ IH]; [apply invariant_fresh|].
  by apply invariant_run_op.
Qed.

(** X14: in every state a process reaches by calls of [Init], the two
    [ParallelFor] overloads and [Release], the cached configuration is the
    parse of the flag; the id counter is below 2^32; every registry entry is
    initialized and holds a non-null arena, which no other name holds and
    which was built with the configured count when the name is configured;
    and every queue is non-empty and holds only records whose arena name and
    task id spell its key. *)
Theorem reachable_invariant flag s :
  reachable flag s → wf s ∧ invariant flag s.
Proof.
  intros Hs. split; [by apply (wf_reachable flag)|by apply invariant_reachable].
Qed.

Lemma reachable_invariant_witness :
  invariant "a:2"
    (run_op (OpParallelFor "a" 0 4 quiet_body 7 8
               [{| my_begin := 0; my_end := 4 |}])
       (fresh_process "a:2")).
Proof.
  apply reachable_invariant. apply reachable_step, reachable_fresh.
Defined.

(** ** The flag decides the fate of every call *)

Lemma invariant_GetTBBParallelCountDefines flag s :
  invariant flag s →
  match InitTBBParallelCountDefines flag with
  | Ok defines =>
      GetTBBParallelCountDefines s
      = (Ok defines, set_defines (Some defines) s, [])
  | Throw e =>
      GetTBBParallelCountDefines s = (Throw e, s, []) ∧
      task_arenas_ s = ∅ ∧ arena_objects s = []
  | Undefined => False
  end.
Proof.
  intros [Hflag Hcache Hcnt Hres Hent Hdist Hq].
  destruct (InitTBBParallelCountDefines flag) as [defines|e|] eqn:Hparse.
  - destruct (tbb_parallel_count_defines s) as [cached|] eqn:Hc.
    + pose proof (Hcache _ eq_refl) as [= ->].
      rewrite (GetTBBParallelCountDefines_cached _ _ Hc).
      by rewrite <- Hc, set_defines_same.
    + apply GetTBBParallelCountDefines_first; [done|by rewrite Hflag].
  - assert (Hc : tbb_parallel_count_defines s = None).
    { destruct (tbb_parallel_count_defines s) as [cached|]; [|done].
      by pose proof (Hcache _ eq_refl). }
    assert (Hobjs : arena_objects s = []).
    { destruct (arena_objects s) as [|obj objs]; [done|].
      destruct Hres as [cached Hcached]; [done|]. by rewrite Hc in Hcached. }
    split_and!; [|apply map_empty; intros name|done].
    + apply GetTBBParallelCountDefines_throw; [done|by rewrite Hflag].
    + destruct (task_arenas_ s !! name) as [st|] eqn:Hst; [|done].
      destruct (Hent _ _ Hst) as (_ & a & obj & _ & Hobj & _).
      by rewrite Hobjs in Hobj.
  - by apply InitTBBParallelCountDefines_defined in Hparse.
Qed.

Lemma invariant_Init_outcome flag s tbb_name d :
  invariant flag s →
  match InitTBBParallelCountDefines flag with
  | Ok defines =>
      ∃ a obj s' t,
        Init tbb_name d s = (Ok (Some a), s', t) ∧
        arena_objects s' !! a = Some obj ∧
        (∀ c, defines !! tbb_name = Some c → max_concurrency obj = c) ∧
        (task_arenas_ s !! tbb_name = None →
         max_concurrency obj = default d (defines !! tbb_name))
  | Throw e =>
      Init tbb_name d s
      = (Throw e, s, lock_unlock arenas_mutex_ ++ lock_unlock arenas_mutex_)
  | Undefined => False
  end.
Proof.
  intros Hinv. pose proof (invariant_GetTBBParallelCountDefines _ _ Hinv) as Hg.
  destruct Hinv as [Hflag Hcache Hcnt Hres Hent Hdist Hq].
  destruct (InitTBBParallelCountDefines flag) as [defines|e|] eqn:Hparse;
    [| |done].
  - destruct (needs_init_dec tbb_name s) as [(st & Hst & Hi)|Hn].
    + destruct (Hent _ _ Hst) as (_ & a & obj & Ha & Hobj & Hover).
      exists a, obj, s, (lock_unlock arenas_mutex_).
      rewrite (Init_hit _ _ _ _ Hst Hi), Ha.
      split_and!; [done..| |by rewrite Hst].
      intros c Hc. destruct Hres as [cached Hcached].
      { intros Hnil. by rewrite Hnil in Hobj. }
      apply (Hover cached c Hcached).
      pose proof (Hcache _ Hcached) as [= ->]. done.
    + eexists _, _, _, _. rewrite (Init_construct _ _ _ _ _ Hn Hg).
      split_and!; [done|by apply list_lookup_middle|..]; simpl.
      * by intros c ->.
      * done.
  - destruct Hg as (Hg & Hempty & _).
    rewrite <- (set_defines_same s) at 2.
    apply Init_throw.
    + intros st Hst. by rewrite Hempty, lookup_empty in Hst.
    + by rewrite set_defines_same.
Qed.

(** X15: in a reachable state the flag alone decides how [Init] ends.  If
    the flag parses, [Init] returns a non-null arena, for every name: an
    arena object built with the configured count when the name is
    configured, and with the default concurrency when the name is neither
    configured nor registered yet.  If the flag does not parse, no arena was
    ever built, the registry is empty, and [Init] throws the parse error
    and changes nothing. *)
Theorem Init_outcome_by_flag flag s tbb_name d :
  reachable flag s →
  match InitTBBParallelCountDefines flag with
  | Ok defines =>
      ∃ a obj s' t,
        Init tbb_name d s = (Ok (Some a), s', t) ∧
        arena_objects s' !! a = Some obj ∧
        (∀ c, defines !! tbb_name = Some c → max_concurrency obj = c) ∧
        (task_arenas_ s !! tbb_name = None →
         max_concurrency obj = default d (defines !! tbb_name))
  | Throw e =>
      Init tbb_name d s
      = (Throw e, s, lock_unlock arenas_mutex_ ++ lock_unlock arenas_mutex_)
      ∧ task_arenas_ s = ∅ ∧ arena_objects s = []
  | Undefined => False
  end.
Proof.
  intros Hinv%invariant_reachable.
  pose proof (invariant_Init_outcome _ _ tbb_name d Hinv) as HInit.
  pose proof (invariant_GetTBBParallelCountDefines _ _ Hinv) as Hg.
  destruct (InitTBBParallelCountDefines flag); [done| |done].
  by destruct Hg as (_ & ? & ?).
Qed.

Lemma Init_outcome_by_flag_witness :
  (∃ a obj s' t,
     Init "b" 8 (run_op (OpInit "a" 8) (fresh_process "a:2,b:3"))
     = (Ok (Some a), s', t) ∧
     arena_objects s' !! a = Some obj ∧ max_concurrency obj = 3) ∧
  Init "b" 8 (run_op (OpInit "a" 8) (fresh_process "a:2,b:x"))
  = (Throw invalid_argument,
     run_op (OpInit "a" 8) (fresh_process "a:2,b:x"),
     lock_unlock arenas_mutex_ ++ lock_unlock arenas_mutex_).
Proof.
  split.
  - pose proof (Init_outcome_by_flag "a:2,b:3"
                  (run_op (OpInit "a" 8) (fresh_process "a:2,b:3")) "b" 8
                  (reachable_step _ _ _ (reachable_fresh _))) as H.
    change (InitTBBParallelCountDefines "a:2,b:3")
      with (Ok (<["a" := 2]> (<["b" := 3]> (∅ : gmap string Z)))) in H.
    destruct H as (a & obj & s' & t & HInit & Hobj & Hover & _).
    exists a, obj, s', t. split_and!; [exact HInit|exact Hobj|].
    apply Hover. reflexivity.
  - pose proof (Init_outcome_by_flag "a:2,b:x"
                  (run_op (OpInit "a" 8) (fresh_process "a:2,b:x")) "b" 8
                  (reachable_step _ _ _ (reachable_fresh _))) as H.
    change (InitTBBParallelCountDefines "a:2,b:x")
      with (Throw invalid_argument : outcome (gmap string Z)) in H.
    exact (proj1 H).
Defined.

(** X16: in a reachable state neither overload of [ParallelFor] ever
    dereferences a null arena.  If the flag parses, the dispatch ends as the
    scheduler's run ends: with the first exception a sub-range threw, or
    normally.  If the flag does not parse, every dispatch throws the parse
    error and the body is never called. *)
Theorem ParallelFor_outcome_by_flag
    flag s tbb_name start end_ task now d sched :
  reachable flag s →
  let run := ParallelFor tbb_name start end_ task now d sched s in
  let run_br :=
    ParallelFor_blocked_range tbb_name
      {| my_begin := start; my_end := end_ |} task now d sched s in
  run.1.1 ≠ Undefined ∧ run_br.1.1 ≠ Undefined ∧
  match InitTBBParallelCountDefines flag with
  | Ok _ =>
      run.1.1 = dispatch_result task sched ∧
      run_br.1.1 = dispatch_result task sched
  | Throw e =>
      run.1.1 = Throw e ∧ run_br.1.1 = Throw e ∧
      calls run.2 = [] ∧ calls run_br.2 = []
  | Undefined => False
  end.
Proof.
  intros Hinv%invariant_reachable run run_br.
  apply (invariant_set_global_counter _ (global_counter s + 1)) in Hinv.
  pose proof (invariant_Init_outcome _ _ tbb_name d Hinv) as HInit.
  subst run run_br.
  destruct (InitTBBParallelCountDefines flag) as [defines|e|]; [| |done].
  - destruct HInit as (a & obj & s' & t & HInit & _).
    rewrite (ParallelFor_spec _ _ _ _ _ _ _ _ _ _ _ HInit),
      (ParallelFor_blocked_range_spec _ _ _ _ _ _ _ _ _ _ HInit). simpl.
    split_and!; try done; apply dispatch_result_defined.
  - unfold ParallelFor, ParallelFor_blocked_range.
    rewrite (dispatch_unfold tbb_name d now
      (λ id, parallel_for sched
         (sub_range_body task tbb_name id
            (make_unique_task_name tbb_name id)))),
      (dispatch_unfold tbb_name d now
      (λ id, parallel_for sched
         (sub_range_body_br task tbb_name id
            (make_unique_task_name tbb_name id)))).
    simpl. rewrite HInit. simpl. done.
Qed.

Lemma ParallelFor_outcome_by_flag_witness :
  (ParallelFor "a" 0 4 fails_at_500 7 8 [{| my_begin := 0; my_end := 4 |}]
     (fresh_process "a:")).1.1 = Throw invalid_argument ∧
  (ParallelFor "a" 0 4 fails_at_500 7 8 [{| my_begin := 0; my_end := 4 |}]
     (fresh_process "a:1")).1.1 = Ok tt.
Proof.
  split.
  - pose proof (ParallelFor_outcome_by_flag "a:" (fresh_process "a:") "a" 0 4
                  fails_at_500 7 8 [{| my_begin := 0; my_end := 4 |}]
                  (reachable_fresh _)) as (_ & _ & H).
    change (InitTBBParallelCountDefines "a:")
      with (Throw invalid_argument : outcome (gmap string Z)) in H.
    exact (proj1 H).
  - pose proof (ParallelFor_outcome_by_flag "a:1" (fresh_process "a:1") "a"
                  0 4 fails_at_500 7 8 [{| my_begin := 0; my_end := 4 |}]
                  (reachable_fresh _)) as (_ & _ & H).
    change (InitTBBParallelCountDefines "a:1")
      with (Ok (<["a" := 1]> (∅ : gmap string Z))) in H.
    exact (proj1 H).
Defined.

(** ** Lock discipline *)

Lemma lock_discipline_app held held' t1 t2 :
  lock_discipline held t1 = Some held' →
  lock_discipline held (t1 ++ t2) = lock_discipline held' t2.
Proof.
  revert held. induction t1 as [|ev t1 IH]; intros held; simpl.
  - destruct held; by intros [= ->].
  - destruct ev as [m|m|i], held as [m'|]; try done; try apply IH.
    case_decide; [apply IH|done].
Qed.

Lemma lock_discipline_calls els :
  lock_discipline None (EvCall <$> els) = Some None.
Proof. by induction els. Qed.

Lemma lock_discipline_dispatch_log task sched :
  lock_discipline None (dispatch_log task sched) = Some None.
Proof.
  unfold dispatch_log. induction sched as [|sr sched IH]; [done|]. csimpl.
  rewrite (lock_discipline_app None None); [done|]. unfold sub_range_log.
  destruct (first_exception task (range_elements sr));
    [apply lock_discipline_calls|].
  rewrite (lock_discipline_app None None) by apply lock_discipline_calls.
  by destruct (range_elements sr).
Qed.

Lemma lock_discipline_Init tbb_name d s :
  lock_discipline None (Init tbb_name d s).2 = Some None.
Proof.
  by destruct (Init_cases tbb_name d s)
    as [(st & _ & _ & ->)|[(_ & defines & _ & ->)|(_ & e & ->)]].
Qed.

(** X17: [Init] and both overloads of [ParallelFor] hold at most one mutex
    at a time, release what they take, and call the body only while they
    hold none, whatever the body and the scheduler do.  [Release] is the
    one call that takes a second mutex while it holds the first. *)
Theorem dispatch_lock_discipline tbb_name start end_ task now d sched s :
  lock_discipline None (Init tbb_name d s).2 = Some None ∧
  lock_discipline None
    (ParallelFor tbb_name start end_ task now d sched s).2 = Some None ∧
  lock_discipline None
    (ParallelFor_blocked_range tbb_name
       {| my_begin := start; my_end := end_ |} task now d sched s).2
  = Some None ∧
  lock_discipline None (Release s).2 = None.
Proof.
  split_and!; [apply lock_discipline_Init| | |done].
  - destruct (ParallelFor_frame tbb_name start end_ task now d sched s)
      as (recs & log & _ & -> & _ & Hlog).
    rewrite (lock_discipline_app None None) by apply lock_discipline_Init.
    destruct Hlog as [-> | ->]; [done|apply lock_discipline_dispatch_log].
  - destruct (ParallelFor_blocked_range_frame tbb_name
                {| my_begin := start; my_end := end_ |} task now d sched s)
      as (recs & log & _ & -> & _ & Hlog).
    rewrite (lock_discipline_app None None) by apply lock_discipline_Init.
    destruct Hlog as [-> | ->]; [done|apply lock_discipline_dispatch_log].
Qed.

(** ** Later calls and the records of a dispatch *)

Lemma counter_apart c k :
  0 < k < 2 ^ 32 → (c + k) mod 2 ^ 32 ≠ c mod 2 ^ 32.
Proof.
  intros Hk Heq.
  pose proof (Z.div_mod (c + k) (2 ^ 32) ltac:(lia)) as H1.
  pose proof (Z.div_mod c (2 ^ 32) ltac:(lia)) as H2.
  rewrite Heq in H1. lia.
Qed.

Lemma frame_other_queues tbb_name d c name recs s other :
  other ≠ name →
  let s' := set_thread_contexts (append_queue name recs)
              (Init tbb_name d (set_global_counter c s)).1.2 in
  thread_contexts_ s' !! other = thread_contexts_ s !! other ∧
  global_counter s' = c.
Proof.
  intros Hne.
  pose proof (Init_thread_contexts tbb_name d (set_global_counter c s))
    as [Hctx Hcnt].
  simpl. by rewrite Hctx, Hcnt, append_queue_lookup_ne.
Qed.

Lemma run_ops_keep_queue tbb_name now c k os s :
  0 < k → k + Z.of_nat (length os) ≤ 2 ^ 32 →
  global_counter s mod 2 ^ 32 = (c + k) mod 2 ^ 32 →
  let name := make_unique_task_name tbb_name (task_id_at now c) in
  thread_contexts_ (run_ops os s) !! name
  = if existsb is_release os then None else thread_contexts_ s !! name.
Proof.
  intros Hk Hlen Hc name. revert k s Hk Hlen Hc.
  induction os as [|o os IH]; intros k s Hk Hlen Hc; [done|].
  simpl in Hlen.
  assert (Hother : ∀ n now',
    name ≠ make_unique_task_name n (task_id_at now' (global_counter s))).
  { intros n now' [_ Hid]%make_unique_task_name_eq.
    apply task_id_at_inj in Hid as [_ Hid]. rewrite Hc in Hid.
    symmetry in Hid. by apply counter_apart in Hid; [|lia]. }
  assert (Hnext : wrap32 (global_counter s + 1) mod 2 ^ 32
                  = (c + (k + 1)) mod 2 ^ 32).
  { unfold wrap32. rewrite Z.mod_mod by lia.
    rewrite Z.add_assoc, <- Zplus_mod_idemp_l, Hc, Zplus_mod_idemp_l. done. }
  unfold run_ops. simpl. fold (run_ops os (run_op o s)).
  destruct o as [n d|n b e task now' d sched|n r task now' d sched|];
    simpl.
  - pose proof (Init_thread_contexts n d s) as [Hctx Hcnt].
    rewrite (IH k) by (lia || by rewrite Hcnt). by rewrite Hctx.
  - destruct (ParallelFor_frame n b e task now' d sched s)
      as (recs & log & Hs & _).
    destruct (frame_other_queues n d (wrap32 (global_counter s + 1))
                (make_unique_task_name n (task_id_at now' (global_counter s)))
                recs s name (Hother n now')) as [Hctx Hcnt].
    rewrite <- Hs in Hctx, Hcnt.
    rewrite (IH (k + 1)) by (lia || by rewrite Hcnt). by rewrite Hctx.
  - destruct (ParallelFor_blocked_range_frame n r task now' d sched s)
      as (recs & log & Hs & _).
    destruct (frame_other_queues n d (wrap32 (global_counter s + 1))
                (make_unique_task_name n (task_id_at now' (global_counter s)))
                recs s name (Hother n now')) as [Hctx Hcnt].
    rewrite <- Hs in Hctx, Hcnt.
    rewrite (IH (k + 1)) by (lia || by rewrite Hcnt). by rewrite Hctx.
  - rewrite (IH k) by (lia || done). by destruct (existsb is_release os).
Qed.

(** X18: the records a dispatch has flushed stay as they are through any
    later calls, fewer than 2^32 of them: no later [Init] or [ParallelFor],
    under whatever name and at whatever clock reading, touches the queue of
    that dispatch, until a [Release], after which the queue is gone and
    stays gone.  The same holds for the blocked_range overload. *)
Theorem later_calls_keep_records
    tbb_name start end_ task now d sched s os :
  Z.of_nat (length os) < 2 ^ 32 →
  let name :=
    make_unique_task_name tbb_name (task_id_at now (global_counter s)) in
  let s1 := (ParallelFor tbb_name start end_ task now d sched s).1.2 in
  let s1_br :=
    (ParallelFor_blocked_range tbb_name
       {| my_begin := start; my_end := end_ |} task now d sched s).1.2 in
  thread_contexts_ (run_ops os s1) !! name
  = (if existsb is_release os then None else thread_contexts_ s1 !! name) ∧
  thread_contexts_ (run_ops os s1_br) !! name
  = (if existsb is_release os then None else thread_contexts_ s1_br !! name).
Proof.
  intros Hlen name s1 s1_br. split.
  - apply (run_ops_keep_queue tbb_name now (global_counter s) 1);
      [lia..|]. subst s1.
    destruct (ParallelFor_frame tbb_name start end_ task now d sched s)
      as (recs & log & -> & _).
    pose proof (Init_thread_contexts tbb_name d
      (set_global_counter (wrap32 (global_counter s + 1)) s)) as [_ Hcnt].
    simpl. rewrite Hcnt. simpl. unfold wrap32. by rewrite Z.mod_mod by lia.
  - apply (run_ops_keep_queue tbb_name now (global_counter s) 1);
      [lia..|]. subst s1_br.
    destruct (ParallelFor_blocked_range_frame tbb_name
                {| my_begin := start; my_end := end_ |} task now d sched s)
      as (recs & log & -> & _).
    pose proof (Init_thread_contexts tbb_name d
      (set_global_counter (wrap32 (global_counter s + 1)) s)) as [_ Hcnt].
    simpl. rewrite Hcnt. simpl. unfold wrap32. by rewrite Z.mod_mod by lia.
Qed.

Lemma later_calls_keep_records_witness :
  let s1 := (ParallelFor "x" 0 2 quiet_body 7 4
               [{| my_begin := 0; my_end := 2 |}] (fresh_process "")).1.2 in
  thread_contexts_
    (run_ops [OpParallelFor "x" 0 3 quiet_body 7 4
                [{| my_begin := 0; my_end := 3 |}];
              OpInit "x_3006477107" 4] s1) !! "x_30064771072"
  = thread_contexts_ s1 !! "x_30064771072".
Proof.
  intros s1.
  exact (proj1 (later_calls_keep_records "x" 0 2 quiet_body 7 4
                  [{| my_begin := 0; my_end := 2 |}] (fresh_process "")
                  [OpParallelFor "x" 0 3 quiet_body 7 4
                     [{| my_begin := 0; my_end := 3 |}];
                   OpInit "x_3006477107" 4]
                  ltac:(simpl; lia))).
Defined.

(** ** Two callers of [Init]: who builds the arena *)

Lemma Init_locked_construct tbb_name d s defines :
  needs_init tbb_name s →
  (GetTBBParallelCountDefines s).1.1 = Ok defines →
  Init_locked tbb_name d s =
    (Ok (Some (length (arena_objects s))),
     constructed tbb_name (default d (defines !! tbb_name))
       (set_defines (Some defines) s),
     lock_unlock arenas_mutex_).
Proof.
  intros Hn Hget.
  destruct (GetTBBParallelCountDefines_frame s)
    as (r & dc & Hg & _ & Hok & _).
  rewrite Hg in Hget. simpl in Hget. subst r.
  rewrite (Hok defines eq_refl) in Hg.
  pose proof (Init_construct tbb_name d s defines _ Hn Hg) as HInit.
  unfold Init in HInit. run_monad.
  rewrite (Init_first_check_miss _ _ Hn) in HInit. simpl in HInit.
  destruct (Init_locked tbb_name d s) as [[r s'] t].
  by injection HInit as -> -> ->.
Qed.

Lemma interleave_constructed tbb_name d1 d2 turns c1 c2 count s h1 h2 s' :
  settled tbb_name c1 (constructed tbb_name count s) →
  settled tbb_name c2 (constructed tbb_name count s) →
  interleave tbb_name d1 d2 turns c1 c2 (constructed tbb_name count s)
  = (Returned h1, Returned h2, s') →
  s' = constructed tbb_name count s ∧ h1 = Some (length (arena_objects s)).
Proof.
  intros H1 H2 Hrun.
  destruct (interleave_settled _ _ _ _ _ _ _ _ _ _ H1 H2 Hrun)
    as (_ & (st & Hst & _ & Hh) & Hs').
  assert (Hsame : s' = constructed tbb_name count s).
  { destruct Hs' as [->|[Hn _]]; [done|].
    by apply constructed_initialized in Hn. }
  split; [done|]. subst s'. rewrite constructed_lookup in Hst.
  injection Hst as <-. by rewrite <- Hh.
Qed.

Lemma interleave_pending tbb_name d1 d2 turns c1 c2 w1 w2 s defines h1 h2 s' :
  needs_init tbb_name s →
  (GetTBBParallelCountDefines s).1.1 = Ok defines →
  pending c1 = Some w1 → pending c2 = Some w2 →
  interleave tbb_name d1 d2 turns c1 c2 s = (Returned h1, Returned h2, s') →
  ∃ first,
    first_writer turns w1 w2 = Some first ∧
    s' = constructed tbb_name
           (default (if first then d1 else d2) (defines !! tbb_name))
           (set_defines (Some defines) s) ∧
    h1 = Some (length (arena_objects s)).
Proof.
  intros Hn Hget. revert c1 c2 w1 w2.
  induction turns as [|turn turns IH]; intros c1 c2 w1 w2 Hc1 Hc2 Hrun.
  - simpl in Hrun. injection Hrun as -> _ _. done.
  - destruct turn; simpl in Hrun.
    + destruct c1; try done; injection Hc1 as <-; simpl in Hrun.
      * rewrite (Init_first_check_miss _ _ Hn) in Hrun. simpl in Hrun.
        destruct (IH Waiting c2 true w2 eq_refl Hc2 Hrun)
          as (first & Hfirst & Hs' & Hh).
        by exists first.
      * rewrite (Init_locked_construct _ d1 _ _ Hn Hget) in Hrun.
        simpl in Hrun. exists true. split; [done|].
        apply (interleave_constructed _ _ _ _ _ _ _ _ _ _ _) in Hrun;
          [done| |by destruct c2].
        eexists. by rewrite constructed_lookup.
    + destruct c2; try done; injection Hc2 as <-; simpl in Hrun.
      * rewrite (Init_first_check_miss _ _ Hn) in Hrun. simpl in Hrun.
        destruct (IH c1 Waiting w1 true Hc1 eq_refl Hrun)
          as (first & Hfirst & Hs' & Hh).
        exists first. split; [|done]. simpl. by destruct w1.
      * rewrite (Init_locked_construct _ d2 _ _ Hn Hget) in Hrun.
        simpl in Hrun. exists false. split; [by destruct w1|].
        apply (interleave_constructed _ _ _ _ _ _ _ _ _ _ _) in Hrun;
          [done|by destruct c1|].
        eexists. by rewrite constructed_lookup.
Qed.

(** X19: when two threads call [Init] for a name that has no arena yet and
    both return, the arena is built by the thread that is first to take the
    write lock, with the count configured for the name, or else with the
    default concurrency that thread reported.  So for a configured name the
    arena does not depend on the race, and for any other name it does when
    the two threads report different defaults. *)
Theorem Init_race_first_writer
    tbb_name d1 d2 turns s defines h1 h2 s' :
  needs_init tbb_name s →
  (GetTBBParallelCountDefines s).1.1 = Ok defines →
  interleave tbb_name d1 d2 turns Entering Entering s
  = (Returned h1, Returned h2, s') →
  ∃ first,
    first_writer turns false false = Some first ∧
    s' = constructed tbb_name
           (default (if first then d1 else d2) (defines !! tbb_name))
           (set_defines (Some defines) s) ∧
    h1 = Some (length (arena_objects s)) ∧ h2 = h1 ∧
    (∀ c, defines !! tbb_name = Some c →
       arena_objects s' = arena_objects s ++ [{| max_concurrency := c |}]).
Proof.
  intros Hn Hget Hrun.
  destruct (interleave_pending tbb_name d1 d2 turns Entering Entering
              false false s defines h1 h2 s' Hn Hget eq_refl eq_refl Hrun)
    as (first & Hfirst & -> & ->).
  destruct (interleave_one_arena _ _ _ _ _ _ _ _ Hrun) as (<- & _).
  exists first. split_and!; try done.
  intros c Hc. simpl. by rewrite Hc.
Qed.

Lemma Init_race_first_writer_witness :
  arena_objects
    (interleave "x" 4 9 [true; false; false; true] Entering Entering
       (fresh_process "y:2")).2
  = [{| max_concurrency := 9 |}] ∧
  arena_objects
    (interleave "x" 4 9 [true; false; true; false] Entering Entering
       (fresh_process "y:2")).2
  = [{| max_concurrency := 4 |}].
Proof.
  split.
  - destruct (Init_race_first_writer "x" 4 9 [true; false; false; true]
                (fresh_process "y:2") (<["y" := 2]> ∅) (Some 0%nat)
                (Some 0%nat)
                (interleave "x" 4 9 [true; false; false; true]
                   Entering Entering (fresh_process "y:2")).2)
      as (first & Hfirst & Hs' & _).
    + intros st Hst. inversion Hst.
    + vm_compute. reflexivity.
    + vm_compute. reflexivity.
    + injection Hfirst as <-. rewrite Hs'. reflexivity.
  - destruct (Init_race_first_writer "x" 4 9 [true; false; true; false]
                (fresh_process "y:2") (<["y" := 2]> ∅) (Some 0%nat)
                (Some 0%nat)
                (interleave "x" 4 9 [true; false; true; false]
                   Entering Entering (fresh_process "y:2")).2)
      as (first & Hfirst & Hs' & _).
    + intros st Hst. inversion Hst.
    + vm_compute. reflexivity.
    + vm_compute. reflexivity.
    + injection Hfirst as <-. rewrite Hs'. reflexivity.
Defined.

(** ** Task ids that repeat *)

(** X20: in a run of calls of [GenerateUniqueTaskId], two calls return the
    same id exactly when their clock readings agree in the low 32 bits and
    the number of calls from one to the other is a multiple of 2^32: the
    high bits of the clock are dropped and the counter comes round. *)
Theorem GenerateUniqueTaskId_repeats (nows : list Z) s :
  ∃ ids s',
    each GenerateUniqueTaskId nows s = (Ok ids, s', []) ∧
    ∀ i j now_i now_j id_i id_j,
      nows !! i = Some now_i → nows !! j = Some now_j →
      ids !! i = Some id_i → ids !! j = Some id_j →
      id_i = id_j ↔
      now_i mod 2 ^ 32 = now_j mod 2 ^ 32 ∧
      (Z.of_nat j - Z.of_nat i) mod 2 ^ 32 = 0.
Proof.
  destruct (each_GenerateUniqueTaskId nows s) as [s' Heach].
  eexists _, s'. split; [exact Heach|].
  intros i j now_i now_j id_i id_j Hi Hj.
  rewrite !list_lookup_imap, Hi, Hj. simpl. intros [= <-] [= <-].
  rewrite task_id_at_inj.
  replace (Z.of_nat j - Z.of_nat i)
    with ((global_counter s + Z.of_nat j) - (global_counter s + Z.of_nat i))
    by lia.
  rewrite <- Z.cong_iff_0. split; intros [? ?]; split; congruence.
Qed.

(** ** A body that throws anywhere *)

Lemma first_exception_first task els e :
  first_exception task els = Some e →
  ∃ before i after,
    els = before ++ i :: after ∧
    Forall (λ j, task j = None) before ∧ task i = Some e.
Proof.
  unfold first_exception. induction els as [|i els IH]; csimpl; [done|].
  destruct (task i) as [e'|] eqn:Ht.
  - intros [= ->]. by exists [], i, els.
  - intros (before & j & after & -> & Hbefore & Hj)%IH.
    exists (i :: before), j, after. split_and!; [done|by constructor|done].
Qed.

Lemma flushed_completes task mk sched :
  flushed task mk sched
  = mk <$> concat (range_elements <$> filter (completes task) sched).
Proof.
  unfold flushed. induction sched as [|sr sched IH]; [done|]. csimpl.
  rewrite IH. unfold sub_range_flushed.
  destruct (decide (completes task sr)) as [Hc|Hc].
  - rewrite filter_cons_True by done. csimpl. rewrite fmap_app.
    unfold completes in Hc. by rewrite Hc.
  - rewrite filter_cons_False by done. unfold completes in Hc.
    by destruct (first_exception task (range_elements sr)).
Qed.

Lemma dispatch_result_cases task sched :
  (dispatch_result task sched = Ok tt ∧ Forall (completes task) sched) ∨
  (∃ done_ sr rest e,
     sched = done_ ++ sr :: rest ∧ Forall (completes task) done_ ∧
     first_exception task (range_elements sr) = Some e ∧
     dispatch_result task sched = Throw e).
Proof.
  unfold dispatch_result. induction sched as [|sr sched IH]; [by left|].
  csimpl. destruct (first_exception task (range_elements sr)) as [e|] eqn:Hsr.
  - right. by exists [], sr, sched, e.
  - destruct IH as [[Hr Hall]|(done_ & sr' & rest & e & -> & Hall & He & Hr)].
    + left. split; [done|]. by constructor.
    + right. exists (sr :: done_), sr', rest, e.
      split_and!; [done|by constructor|done..].
Qed.

Lemma calls_dispatch_log task sched :
  calls (dispatch_log task sched)
  = concat ((λ sr, called task (range_elements sr)) <$> sched).
Proof.
  unfold dispatch_log. induction sched as [|sr sched IH]; [done|]. csimpl.
  rewrite calls_app, IH. f_equal. unfold sub_range_log.
  destruct (first_exception task (range_elements sr)) eqn:Hsr.
  - apply calls_calls.
  - rewrite calls_app, calls_calls, (called_all _ _ Hsr).
    destruct (range_elements sr); by rewrite app_nil_r.
Qed.

(** X21: a dispatch of the IntType overload, whatever its body throws and
    wherever: a sub-range contributes all of its records or none, so the
    queue gains exactly the records of the sub-ranges on which the body
    returned throughout, in the order of the schedule.  The dispatch returns
    normally exactly when every sub-range handed out completes, and
    otherwise throws the exception of the earliest sub-range in the schedule
    that failed, at that sub-range's first failing element.  In each
    sub-range the body is called on the elements in order up to and
    including the first one on which it throws, and on none after it. *)
Theorem ParallelFor_all_or_nothing
    tbb_name start end_ task now d sched s a s2 t2 :
  Init tbb_name d (GenerateUniqueTaskId now s).1.2 = (Ok (Some a), s2, t2) →
  let task_id := task_id_at now (global_counter s) in
  let name := make_unique_task_name tbb_name task_id in
  let run := ParallelFor tbb_name start end_ task now d sched s in
  queue_of name run.1.2
  = queue_of name s
    ++ (context_of_index tbb_name task_id
          <$> concat (range_elements <$> filter (completes task) sched)) ∧
  (run.1.1 = Ok tt ↔ Forall (completes task) sched) ∧
  (∀ e, run.1.1 = Throw e →
     ∃ done_ sr rest i,
       sched = done_ ++ sr :: rest ∧ Forall (completes task) done_ ∧
       holds i sr ∧ task i = Some e ∧
       ∀ j, my_begin sr ≤ j < i → task j = None) ∧
  calls run.2 = concat ((λ sr, called task (range_elements sr)) <$> sched).
Proof.
  intros HInit task_id name run. subst run.
  rewrite GenerateUniqueTaskId_spec in HInit. simpl in HInit.
  assert (Hq : queue_of name s2 = queue_of name s).
  { pose proof (proj1 (Init_thread_contexts tbb_name d
      (set_global_counter (wrap32 (global_counter s + 1)) s))) as H.
    rewrite HInit in H. simpl in H. unfold queue_of. by rewrite H. }
  assert (Ht2 : calls t2 = []).
  { pose proof (proj2 (Init_no_contexts_lock tbb_name d
      (set_global_counter (wrap32 (global_counter s + 1)) s))) as H.
    by rewrite HInit in H. }
  rewrite (ParallelFor_spec _ _ _ _ _ _ _ _ _ _ _ HInit).
  fold task_id name. simpl. split_and!.
  - by rewrite queue_after_flush, Hq, flushed_completes.
  - destruct (dispatch_result_cases task sched)
      as [[-> Hall]|(done_ & sr & rest & e & -> & Hall & He & ->)]; [done|].
    split; [done|]. intros Hc. apply Forall_app in Hc as [_ Hc].
    apply Forall_cons in Hc as [Hc _]. unfold completes in Hc. congruence.
  - intros e.
    destruct (dispatch_result_cases task sched)
      as [[-> Hall]|(done_ & sr & rest & e' & -> & Hall & He & ->)]; [done|].
    intros [= <-].
    destruct (first_exception_first task (range_elements sr) e' He)
      as (before & i & after & Hels & Hbefore & Hi).
    exists done_, sr, rest, i. split_and!; [done..| |done|].
    + apply elem_of_range_elements. rewrite Hels.
      apply elem_of_app. right. left.
    + intros j Hj. unfold range_elements in Hels.
      assert (Hlen : Z.of_nat (length before) = i - my_begin sr).
      { assert (Hlook : seqZ (my_begin sr) (my_end sr - my_begin sr)
                          !! length before = Some i)
          by (rewrite Hels; apply list_lookup_middle; done).
        apply lookup_seqZ in Hlook. lia. }
      assert (Hjl : before !! Z.to_nat (j - my_begin sr) = Some j).
      { assert (Hlook : seqZ (my_begin sr) (my_end sr - my_begin sr)
                          !! Z.to_nat (j - my_begin sr) = Some j).
        { apply lookup_seqZ. split; [lia|].
          assert (i ∈ seqZ (my_begin sr) (my_end sr - my_begin sr))
            as Hin%elem_of_seqZ
            by (rewrite Hels; apply elem_of_app; right; left).
          lia. }
        rewrite Hels, lookup_app_l in Hlook by lia. done. }
      apply list_elem_of_lookup_2 in Hjl.
      by apply (proj1 (Forall_forall _ _) Hbefore).
  - by rewrite calls_app, Ht2, calls_dispatch_log.
Qed.

Lemma ParallelFor_all_or_nothing_witness :
  let run :=
    ParallelFor "x" 499 502 fails_at_500 7 4
      [{| my_begin := 499; my_end := 501 |};
       {| my_begin := 501; my_end := 502 |}] (fresh_process "") in
  thread_id <$> queue_of "x_30064771072" run.1.2 = [501] ∧
  calls run.2 = [499; 500; 501].
Proof.
  intros run.
  destruct (ParallelFor_all_or_nothing "x" 499 502 fails_at_500 7 4
              [{| my_begin := 499; my_end := 501 |};
               {| my_begin := 501; my_end := 502 |}] (fresh_process "")
              0%nat
              (Init "x" 4
                 (GenerateUniqueTaskId 7 (fresh_process "")).1.2).1.2
              (Init "x" 4
                 (GenerateUniqueTaskId 7 (fresh_process "")).1.2).2)
    as (Hqueue & _ & _ & Hcalls).
  - vm_compute. reflexivity.
  - split; [|exact Hcalls].
    exact (f_equal (fmap thread_id) Hqueue).
Defined.

(** ** Configuration texts put together *)

Lemma read_until_app d a b pos :
  Str.find d a = Some pos →
  Str.read_until d (a +:+ b)
  = ((Str.read_until d a).1, (Str.read_until d a).2 +:+ b).
Proof.
  revert pos. induction a as [|x a IH]; intros pos; sapp; simpl; [done|].
  destruct (Ascii.eqb x d); [done|].
  destruct (Str.find d a) as [pos'|]; [|done]. intros _.
  rewrite (IH pos' eq_refl). by destruct (Str.read_until d a).
Qed.

Lemma read_until_shorter d x a :
  (String.length (Str.read_until d (String x a)).2
   < String.length (String x a))%nat.
Proof.
  revert x. induction a as [|y a IH]; intros x; simpl.
  - destruct (Ascii.eqb x d); simpl; lia.
  - destruct (Ascii.eqb x d); [simpl; lia|].
    specialize (IH y). simpl in IH.
    destruct (Ascii.eqb y d); [simpl in *; lia|].
    destruct (Str.read_until d a) as [item rest]. simpl in *. lia.
Qed.

Lemma parse_items_concat a b m :
  parse_items (a +:+ "," +:+ b) m
  = match parse_items a m with
    | Ok m1 => parse_items b m1
    | Throw e => Throw e
    | Undefined => Undefined
    end.
Proof.
  change ("," +:+ b) with (String "," b).
  remember (String.length a) as n eqn:Hn. revert a m Hn.
  induction (lt_wf n) as [n _ IH]; intros a m ->.
  rewrite (parse_items_step (a +:+ _)), (parse_items_step a).
  destruct a as [|x a].
  { sapp. simpl. by rewrite (parse_items_step b m). }
  change (Str.getline (String x a) ",")
    with (Some (Str.read_until "," (String x a))).
  change (Str.getline (String x a +:+ String "," b) ",")
    with (Some (Str.read_until "," (String x a +:+ String "," b))).
  destruct (Str.find "," (String x a)) as [pos|] eqn:Hfind.
  - rewrite (read_until_app _ _ _ _ Hfind).
    pose proof (read_until_shorter "," x a) as Hlen.
    destruct (Str.read_until "," (String x a)) as [item rest]. simpl in *.
    destruct (Str.find ":" item) as [p|]; [|by apply (IH _ Hlen)].
    destruct (Str.stoi _); [by apply (IH _ Hlen)|done..].
  - rewrite (read_until_first _ _ _ Hfind), (read_until_whole _ _ Hfind).
    destruct (Str.find ":" (String x a)) as [p|];
      [|by rewrite (parse_items_step "")].
    destruct (Str.stoi _); [by rewrite (parse_items_step "")|done..].
Qed.

Lemma resolve_entries_union items (m acc : gmap string Z) :
  resolve_entries items (acc ∪ m)
  = match resolve_entries items acc with
    | Ok m2 => Ok (m2 ∪ m)
    | Throw e => Throw e
    | Undefined => Undefined
    end.
Proof.
  revert acc. induction items as [|item items IH]; intros acc; simpl; [done|].
  destruct (name_field item) as [name|]; [|done].
  destruct (count_field item) as [field|]; [|done].
  destruct (Str.stoi field) as [count| |]; [|done..].
  by rewrite insert_union_l, IH.
Qed.

Lemma InitTBBParallelCountDefines_parse_items flag :
  InitTBBParallelCountDefines flag = parse_items flag ∅.
Proof.
  unfold InitTBBParallelCountDefines. case_decide as Hflag; [|done].
  subst flag. by rewrite parse_items_step.
Qed.

(** X22: resolving two configuration texts joined by a ',' is resolving
    the first and then the second on top of it: the bindings of the second
    override those of the first, and an error in the first is thrown before
    the second is looked at.  So a ',' at the end or at the start of the
    flag never matters. *)
Theorem InitTBBParallelCountDefines_concat a b :
  InitTBBParallelCountDefines (a +:+ "," +:+ b)
  = match InitTBBParallelCountDefines a with
    | Ok m1 =>
        match InitTBBParallelCountDefines b with
        | Ok m2 => Ok (m2 ∪ m1)
        | Throw e => Throw e
        | Undefined => Undefined
        end
    | Throw e => Throw e
    | Undefined => Undefined
    end ∧
  InitTBBParallelCountDefines (a +:+ ",") = InitTBBParallelCountDefines a ∧
  InitTBBParallelCountDefines ("," +:+ b) = InitTBBParallelCountDefines b.
Proof.
  assert (Hjoin : ∀ a b,
    InitTBBParallelCountDefines (a +:+ "," +:+ b)
    = match InitTBBParallelCountDefines a with
      | Ok m1 =>
          match InitTBBParallelCountDefines b with
          | Ok m2 => Ok (m2 ∪ m1)
          | Throw e => Throw e
          | Undefined => Undefined
          end
      | Throw e => Throw e
      | Undefined => Undefined
      end).
  { clear a b. intros a b.
    rewrite !InitTBBParallelCountDefines_parse_items, parse_items_concat.
    destruct (parse_items a ∅) as [m1| |]; [|done..].
    rewrite !parse_items_entries.
    rewrite <- (left_id_L ∅ (∪) m1) at 1. apply resolve_entries_union. }
  split_and!; [apply Hjoin| |].
  - change (a +:+ ",") with (a +:+ "," +:+ ""). rewrite (Hjoin a "").
    change (InitTBBParallelCountDefines "") with (Ok (∅ : gmap string Z)).
    destruct (InitTBBParallelCountDefines a) as [m1| |]; [|done..].
    by rewrite (left_id_L ∅ (∪)).
  - change ("," +:+ b) with ("" +:+ "," +:+ b). rewrite (Hjoin "" b).
    change (InitTBBParallelCountDefines "") with (Ok (∅ : gmap string Z)).
    destruct (InitTBBParallelCountDefines b) as [m2| |]; [|done..].
    by rewrite (right_id_L ∅ (∪)).
Qed.

(** ** What [Release] keeps *)

(** X23: the two function-local statics survive [Release]: the id counter
    goes on from where it was, and the configuration cached before is still
    the one [Init] builds from afterwards, whatever the flag holds by then:
    [Init] then returns a non-null arena built with the count that
    configuration gives the name, or else with the default concurrency.  A
    second [Release] changes nothing. *)
Theorem Release_keeps_statics s :
  let s1 := (Release s).1.2 in
  global_counter s1 = global_counter s ∧
  tbb_parallel_count_defines s1 = tbb_parallel_count_defines s ∧
  (∀ now, (GenerateUniqueTaskId now s1).1.1
          = (GenerateUniqueTaskId now s).1.1) ∧
  (∀ defines flag' tbb_name d,
     tbb_parallel_count_defines s = Some defines →
     ∃ a obj s2 t,
       Init tbb_name d (set_flag flag' s1) = (Ok (Some a), s2, t) ∧
       arena_objects s2 !! a = Some obj ∧
       max_concurrency obj = default d (defines !! tbb_name) ∧
       tbb_parallel_count_defines s2 = Some defines) ∧
  (Release s1).1.2 = s1.
Proof.
  rewrite Release_spec. simpl. split_and!; [done..| |done].
  intros defines flag' tbb_name d Hc.
  set (s1 := set_flag flag'
               (set_thread_contexts (λ _, ∅) (set_task_arenas (λ _, ∅) s))).
  assert (Hn : needs_init tbb_name s1)
    by (intros st Hst; simpl in Hst; by rewrite lookup_empty in Hst).
  assert (Hg : GetTBBParallelCountDefines s1
               = (Ok defines, set_defines (Some defines) s1, [])).
  { rewrite (GetTBBParallelCountDefines_cached s1 defines) by done.
    do 2 f_equal. subst s1. destruct s; simpl in *. by subst. }
  eexists _, _, _, _. rewrite (Init_construct _ d _ _ _ Hn Hg).
  split_and!; [done|by apply list_lookup_middle|done..].
Qed.
